(** * Minesweeper: the minefield engine, the game state machine and the
      high-score table of [Games/Minesweeper/minesweeper.js]

    The JavaScript keeps the game in module-level variables ([grid], [rows],
    [cols], [mineCount], [flagCount], [revealedCount], [gameOver],
    [gameStarted], [timer], [timerInterval], [hints], ...).  Here they are the
    fields of one record [Game] that every function receives and returns.
    A function returns [None] where the JavaScript does not return normally:
    a [TypeError] on [grid[row][col]] outside the arrays, or a loop that has
    used up the random draws it was given.  DOM updates, sounds and particles
    do not touch the game variables and are left out. *)

From stdpp Require Import base option list gmap strings pretty.
From Stdlib Require Import ZArith Lia Sorted.

Local Open Scope Z_scope.

(** ** Cells and the grid *)

Record Cell := mkCell {
  isMine : bool;
  isRevealed : bool;
  isFlagged : bool;
  neighborMines : Z
}.

(** The object literal of [createGrid]. *)
Definition newCell : Cell := mkCell false false false 0.

Definition withMine (b : bool) (x : Cell) : Cell :=
  mkCell b (isRevealed x) (isFlagged x) (neighborMines x).
Definition withRevealed (b : bool) (x : Cell) : Cell :=
  mkCell (isMine x) b (isFlagged x) (neighborMines x).
Definition withFlagged (b : bool) (x : Cell) : Cell :=
  mkCell (isMine x) (isRevealed x) b (neighborMines x).
Definition withNeighborMines (n : Z) (x : Cell) : Cell :=
  mkCell (isMine x) (isRevealed x) (isFlagged x) n.

(** [grid] is an array of rows, each an array of cells. *)
Abbreviation Grid := (list (list Cell)).

(** [grid[r][c]]: [None] stands for the [TypeError] (or [undefined]) that
    JavaScript gives outside the arrays, negative indices included. *)
Definition getCell (g : Grid) (r c : Z) : option Cell :=
  if (0 <=? r) && (0 <=? c)
  then match g !! Z.to_nat r with
       | Some line => line !! Z.to_nat c
       | None => None
       end
  else None.

(** [grid[r][c].field = v], used only after [grid[r][c]] has been read. *)
Definition updCell (f : Cell → Cell) (r c : Z) (g : Grid) : Grid :=
  alter (alter f (Z.to_nat c)) (Z.to_nat r) g.

(** ** The game variables *)

Inductive Face := FaceNew | FaceWin | FaceLose.

Record Game := mkGame {
  grid : Grid;
  rows : Z;
  cols : Z;
  mineCount : Z;
  flagCount : Z;
  revealedCount : Z;
  gameOver : bool;
  gameStarted : bool;
  timer : Z;
  timerInterval : bool;      (* is the one-second interval installed? *)
  hints : Z;
  isTimeAttack : bool;
  timeAttackLimit : Z;
  face : Face;               (* the last [updateFace] *)
  entropy : list nat         (* what [Math.random] is going to deliver *)
}.

Definition set_grid (g : Grid) (s : Game) : Game :=
  mkGame g (rows s) (cols s) (mineCount s) (flagCount s) (revealedCount s)
    (gameOver s) (gameStarted s) (timer s) (timerInterval s) (hints s)
    (isTimeAttack s) (timeAttackLimit s) (face s) (entropy s).
Definition set_flagCount (n : Z) (s : Game) : Game :=
  mkGame (grid s) (rows s) (cols s) (mineCount s) n (revealedCount s)
    (gameOver s) (gameStarted s) (timer s) (timerInterval s) (hints s)
    (isTimeAttack s) (timeAttackLimit s) (face s) (entropy s).
Definition set_revealedCount (n : Z) (s : Game) : Game :=
  mkGame (grid s) (rows s) (cols s) (mineCount s) (flagCount s) n
    (gameOver s) (gameStarted s) (timer s) (timerInterval s) (hints s)
    (isTimeAttack s) (timeAttackLimit s) (face s) (entropy s).
Definition set_gameOver (b : bool) (s : Game) : Game :=
  mkGame (grid s) (rows s) (cols s) (mineCount s) (flagCount s) (revealedCount s)
    b (gameStarted s) (timer s) (timerInterval s) (hints s)
    (isTimeAttack s) (timeAttackLimit s) (face s) (entropy s).
Definition set_gameStarted (b : bool) (s : Game) : Game :=
  mkGame (grid s) (rows s) (cols s) (mineCount s) (flagCount s) (revealedCount s)
    (gameOver s) b (timer s) (timerInterval s) (hints s)
    (isTimeAttack s) (timeAttackLimit s) (face s) (entropy s).
Definition set_timer (n : Z) (s : Game) : Game :=
  mkGame (grid s) (rows s) (cols s) (mineCount s) (flagCount s) (revealedCount s)
    (gameOver s) (gameStarted s) n (timerInterval s) (hints s)
    (isTimeAttack s) (timeAttackLimit s) (face s) (entropy s).
Definition set_timerInterval (b : bool) (s : Game) : Game :=
  mkGame (grid s) (rows s) (cols s) (mineCount s) (flagCount s) (revealedCount s)
    (gameOver s) (gameStarted s) (timer s) b (hints s)
    (isTimeAttack s) (timeAttackLimit s) (face s) (entropy s).
Definition set_hints (n : Z) (s : Game) : Game :=
  mkGame (grid s) (rows s) (cols s) (mineCount s) (flagCount s) (revealedCount s)
    (gameOver s) (gameStarted s) (timer s) (timerInterval s) n
    (isTimeAttack s) (timeAttackLimit s) (face s) (entropy s).
Definition set_face (f : Face) (s : Game) : Game :=
  mkGame (grid s) (rows s) (cols s) (mineCount s) (flagCount s) (revealedCount s)
    (gameOver s) (gameStarted s) (timer s) (timerInterval s) (hints s)
    (isTimeAttack s) (timeAttackLimit s) f (entropy s).
Definition set_entropy (l : list nat) (s : Game) : Game :=
  mkGame (grid s) (rows s) (cols s) (mineCount s) (flagCount s) (revealedCount s)
    (gameOver s) (gameStarted s) (timer s) (timerInterval s) (hints s)
    (isTimeAttack s) (timeAttackLimit s) (face s) l.

(** ** Loops *)

(** [for (const a of l) body], threading the variables the body assigns. *)
Definition forEach {A S : Type} (body : A → S → option S) : list A → S → option S :=
  fix go (l : list A) (s : S) : option S :=
    match l with
    | [] => Some s
    | a :: l' => match body a s with
                 | Some s' => go l' s'
                 | None => None
                 end
    end.

(** [for (let r = 0; r < rows; r++) for (let c = 0; c < cols; c++) body]. *)
Definition forCells {S : Type} (nrows ncols : Z) (body : Z → Z → S → option S)
  : S → option S :=
  forEach (λ r, forEach (λ c, body r c) (seqZ 0 ncols)) (seqZ 0 nrows).

(** The pairs [(dr, dc)] that the two loops
    [for dr = -1..1, for dc = -1..1, if (dr === 0 && dc === 0) continue]
    go through, in their order. *)
Definition offsets : list (Z * Z) :=
  dr ← [-1; 0; 1]; dc ← [-1; 0; 1];
  if (dr =? 0) && (dc =? 0) then [] else [(dr, dc)].
Arguments offsets : simpl never.

(** [Math.floor(Math.random() * n)] for the draw [x]: some integer of [0, n). *)
Definition randomBelow (x : nat) (n : Z) : Z :=
  if 0 <? n then Z.of_nat x `mod` n else 0.

(** ** Grid functions *)

Definition createGrid (s : Game) : Game :=
  set_grid ((λ _, (λ _, newCell) <$> seqZ 0 (cols s)) <$> seqZ 0 (rows s)) s.

Definition inBounds (s : Game) (r c : Z) : bool :=
  (0 <=? r) && (r <? rows s) && (0 <=? c) && (c <? cols s).

Definition countAdjacentMines (s : Game) (row col : Z) : option Z :=
  forEach (λ '(dr, dc) count,
             let nr := row + dr in
             let nc := col + dc in
             if inBounds s nr nc
             then match getCell (grid s) nr nc with
                  | Some x => Some (if isMine x then count + 1 else count)
                  | None => None
                  end
             else Some count)
          offsets 0.

Definition calculateNumbers (s : Game) : option Game :=
  forCells (rows s) (cols s)
    (λ r c s,
       match getCell (grid s) r c with
       | Some x =>
           if negb (isMine x)
           then match countAdjacentMines s r c with
                | Some n => Some (set_grid (updCell (withNeighborMines n) r c (grid s)) s)
                | None => None
                end
           else Some s
       | None => None
       end) s.

(** The [while (minesPlaced < mineCount)] loop of [placeMines]; every turn
    takes two draws, and the loop is cut where the draws end. *)
Fixpoint placeMinesLoop (rnd : list nat) (firstRow firstCol minesPlaced : Z)
    (s : Game) : option Game :=
  if minesPlaced <? mineCount s
  then match rnd with
       | x :: y :: rnd' =>
           let r := randomBelow x (rows s) in
           let c := randomBelow y (cols s) in
           let isFirstClick :=
             (Z.abs (r - firstRow) <=? 1) && (Z.abs (c - firstCol) <=? 1) in
           match getCell (grid s) r c with
           | Some x =>
               if negb (isMine x) && negb isFirstClick
               then placeMinesLoop rnd' firstRow firstCol (minesPlaced + 1)
                      (set_grid (updCell (withMine true) r c (grid s)) s)
               else placeMinesLoop rnd' firstRow firstCol minesPlaced s
           | None => None
           end
       | _ => None
       end
  else Some (set_entropy rnd s).

Definition placeMines (firstRow firstCol : Z) (s : Game) : option Game :=
  placeMinesLoop (entropy s) firstRow firstCol 0 s ≫= calculateNumbers.

Definition getNeighbors (s : Game) (row col : Z) : list (Z * Z) :=
  '(dr, dc) ← offsets;
  if inBounds s (row + dr) (col + dc) then [(row + dr, col + dc)] else [].

(** [revealCell].  The recursion of the JavaScript has no counter; [depth]
    bounds how many calls that reveal a cell may be nested, and [None] is
    returned where that bound is hit. *)
Fixpoint revealCell (depth : nat) (row col : Z) (s : Game) : option Game :=
  if (row <? 0) || (rows s <=? row) || (col <? 0) || (cols s <=? col) then Some s
  else match getCell (grid s) row col with
       | None => None
       | Some x =>
           if isRevealed x || isFlagged x then Some s
           else match depth with
                | O => None
                | S d =>
                    let s1 := set_revealedCount (revealedCount s + 1)
                                (set_grid (updCell (withRevealed true) row col (grid s)) s) in
                    if neighborMines x =? 0
                    then forEach (λ '(dr, dc) s', revealCell d (row + dr) (col + dc) s')
                           offsets s1
                    else Some s1
                end
       end.

Definition revealMine (row col : Z) (s : Game) : Game :=
  set_grid (updCell (withRevealed true) row col (grid s)) s.

Definition revealAllMines (s : Game) : option Game :=
  forCells (rows s) (cols s)
    (λ r c s,
       match getCell (grid s) r c with
       | Some x =>
           if isMine x
           then Some (set_grid (updCell (withRevealed true) r c (grid s)) s)
           else Some s
       | None => None
       end) s.

(** ** Timer, win and loss *)

Definition startTimer (s : Game) : Game := set_timerInterval true s.
Definition stopTimer (s : Game) : Game := set_timerInterval false s.

Definition checkWin (s : Game) : bool :=
  let totalCells := rows s * cols s in
  let safeCells := totalCells - mineCount s in
  revealedCount s =? safeCells.

(** [endGame(won)].  On a win the JavaScript also offers the time to the
    high-score table, which is no game variable (see [HighScoreManager]). *)
Definition endGame (won : bool) (s : Game) : option Game :=
  let s1 := stopTimer (set_gameOver true s) in
  if won then Some (set_face FaceWin s1)
  else revealAllMines (set_face FaceLose s1).

(** The callback of [setInterval] in [startTimer]. *)
Definition tick (s : Game) : option Game :=
  if isTimeAttack s
  then let s1 := set_timer (timer s - 1) s in
       if timer s1 <=? 0 then endGame false s1 else Some s1
  else Some (set_timer (timer s + 1) s).

(** ** Game actions *)

(** As many calls of [revealCell] may be nested as the grid has cells, which
    is never too few (see the properties of the flood fill). *)
Definition cellCount (s : Game) : nat := Z.to_nat (rows s) * Z.to_nat (cols s).

Definition handleReveal (row col : Z) (s : Game) : option Game :=
  if gameOver s then Some s
  else
    x ← getCell (grid s) row col;
    if isFlagged x || isRevealed x then Some s
    else
      s1 ← (if negb (gameStarted s)
            then s' ← placeMines row col s; Some (set_gameStarted true (startTimer s'))
            else Some s);
      x1 ← getCell (grid s1) row col;
      if isMine x1 then endGame false (revealMine row col s1)
      else
        s2 ← revealCell (cellCount s1) row col s1;
        if checkWin s2 then endGame true s2 else Some s2.

Definition handleFlag (row col : Z) (s : Game) : option Game :=
  if gameOver s then Some s
  else
    x ← getCell (grid s) row col;
    if isRevealed x then Some s
    else
      let s1 := set_grid (updCell (withFlagged (negb (isFlagged x))) row col (grid s)) s in
      Some (if negb (isFlagged x)
            then set_flagCount (flagCount s1 + 1) s1
            else set_flagCount (flagCount s1 - 1) s1).

Definition handleChord (row col : Z) (s : Game) : option Game :=
  x ← getCell (grid s) row col;
  if negb (isRevealed x) || (neighborMines x =? 0) then Some s
  else
    let neighbors := getNeighbors s row col in
    adjacentFlags ←
      forEach (λ '(nr, nc) n,
                 y ← getCell (grid s) nr nc;
                 Some (if isFlagged y then n + 1 else n))
              neighbors 0;
    if adjacentFlags =? neighborMines x
    then forEach (λ '(nr, nc) s',
                    y ← getCell (grid s') nr nc;
                    if negb (isFlagged y) && negb (isRevealed y)
                    then handleReveal nr nc s'
                    else Some s')
                 neighbors s
    else Some s.

(** [useHint].  The second component is the cell whose reveal the function
    schedules with [setTimeout]; that reveal is a later [handleReveal]. *)
Definition useHint (s : Game) : option (Game * option (Z * Z)) :=
  if (hints s <=? 0) || gameOver s || negb (gameStarted s) then Some (s, None)
  else
    safeCells ←
      forCells (rows s) (cols s)
        (λ r c acc,
           x ← getCell (grid s) r c;
           Some (if negb (isMine x) && negb (isRevealed x) && negb (isFlagged x)
                 then acc ++ [(r, c)] else acc)) [];
    if (0 <? Z.of_nat (length safeCells))%Z
    then match entropy s with
         | x :: rnd =>
             p ← safeCells !! Z.to_nat (randomBelow x (Z.of_nat (length safeCells)));
             Some (set_hints (hints s - 1) (set_entropy rnd s), Some p)
         | [] => None
         end
    else Some (s, None).

(** ** Starting a game *)

(** An entry of [difficulties]: its sizes are fixed in the source, its
    [mines] follow a slider. *)
Record Settings := mkSettings { s_rows : Z; s_cols : Z; s_mines : Z }.

Definition easy : Settings := mkSettings 9 9 10.
Definition medium : Settings := mkSettings 16 16 40.
Definition hard : Settings := mkSettings 16 30 99.

Definition initGame (cfg : Settings) (s : Game) : Game :=
  createGrid
    (mkGame [] (s_rows cfg) (s_cols cfg) (s_mines cfg) 0 0 false false
       (if isTimeAttack s then timeAttackLimit s else 0) false 3
       (isTimeAttack s) (timeAttackLimit s) FaceNew (entropy s)).

Definition startGame (timeAttack : bool) (cfg : Settings) (s : Game) : Game :=
  initGame cfg
    (mkGame (grid s) (rows s) (cols s) (mineCount s) (flagCount s) (revealedCount s)
       (gameOver s) (gameStarted s) (timer s) (timerInterval s) (hints s)
       timeAttack (timeAttackLimit s) (face s) (entropy s)).

(** The values the module-level [let]s give the variables. *)
Definition boot (rnd : list nat) : Game :=
  mkGame [] 9 9 10 0 0 false false 0 false 3 false 60 FaceNew rnd.

(** ** High scores *)

(** An entry of a high-score list; [date] is [new Date().toISOString()]. *)
Record Entry := mkEntry {
  name : string;
  initials : string;
  time : Z;
  date : string
}.

(** [Array.prototype.sort] with the comparator [(a, b) => a.time - b.time]
    sorts by [time] and keeps the order of entries that compare equal; it is
    modelled by the insertion sort that has this behaviour. *)
Fixpoint insertByTime (e : Entry) (l : list Entry) : list Entry :=
  match l with
  | [] => [e]
  | x :: l' => if time e <=? time x then e :: x :: l' else x :: insertByTime e l'
  end.

Definition sortByTime (l : list Entry) : list Entry := foldr insertByTime [] l.

(** The object under a mode: a list per difficulty. *)
Definition emptyBuckets : gmap string (list Entry) :=
  <["easy"%string := []]> (<["medium"%string := []]> (<["hard"%string := []]> ∅)).

(** What [getScores] returns when nothing is stored. *)
Definition defaultScores : gmap string (gmap string (list Entry)) :=
  <["classic"%string := emptyBuckets]> (<["timeattack"%string := emptyBuckets]> ∅).

(** [getScores]: the stored item, [None] when there is none. *)
Definition getScores (stored : option (gmap string (gmap string (list Entry))))
  : gmap string (gmap string (list Entry)) :=
  match stored with
  | Some scores => scores
  | None => defaultScores
  end.

(** [addScore], for the entry that it builds from its arguments and the
    clock; the result is what [saveScores] stores. *)
Definition addScore (mode difficulty : string) (e : Entry)
    (stored : option (gmap string (gmap string (list Entry))))
  : option (gmap string (gmap string (list Entry))) :=
  let scores := getScores stored in
  let ofMode := match scores !! mode with
                | Some m => m
                | None => emptyBuckets
                end in
  let list := match ofMode !! difficulty with
              | Some l => l
              | None => []
              end in
  let list := take 10 (sortByTime (list ++ [e])) in
  Some (<[mode := <[difficulty := list]> ofMode]> scores).

(** [scores[mode]?.[difficulty] || []], as [isHighScore] and
    [displayHighScores] read a list. *)
Definition scoresOf (stored : option (gmap string (gmap string (list Entry))))
    (mode difficulty : string) : list Entry :=
  match getScores stored !! mode with
  | Some m => match m !! difficulty with
              | Some l => l
              | None => []
              end
  | None => []
  end.




(** Sorting numbers, and the [n] lowest of a list of numbers. *)
Fixpoint insertZ (a : Z) (l : list Z) : list Z :=
  match l with
  | [] => [a]
  | x :: l' => if a <=? x then a :: x :: l' else x :: insertZ a l'
  end.

Definition sortZ (l : list Z) : list Z := foldr insertZ [] l.



(** The handlers the page wires to the board, the buttons and the timer. *)
Inductive Action :=
  | StartGame (timeAttack : bool) (cfg : Settings)
  | SetTimeLimit (n : Z)
  | Reveal (r c : Z)
  | Flag (r c : Z)
  | Chord (r c : Z)
  | Hint
  | Tick
  | BackToMenu.

Definition perform (a : Action) (s : Game) : option Game :=
  match a with
  | StartGame ta cfg => Some (startGame ta cfg s)
  | SetTimeLimit n =>
      Some (mkGame (grid s) (rows s) (cols s) (mineCount s) (flagCount s)
              (revealedCount s) (gameOver s) (gameStarted s) (timer s)
              (timerInterval s) (hints s) (isTimeAttack s) n (face s) (entropy s))
  | Reveal r c => handleReveal r c s
  | Flag r c => handleFlag r c s
  | Chord r c => if gameOver s then Some s else handleChord r c s
  | Hint => fst <$> useHint s
  | Tick => if timerInterval s then tick s else Some s
  | BackToMenu => Some (stopTimer s)
  end.

(** The board exists from the first [initGame] on; whatever the variables
    held before, [startGame] overwrites them. *)
Inductive reachable : Game → Prop :=
  | reachable_start ta cfg s0 : reachable (startGame ta cfg s0)
  | reachable_step a s s' : reachable s → perform a s = Some s' → reachable s'.

(** ** Vocabulary of the properties *)

(** The coordinates of an [nr] by [nc] grid, row by row. *)
Definition allCoords (nr nc : Z) : list (Z * Z) :=
  r ← seqZ 0 nr; c ← seqZ 0 nc; [(r, c)].

(** Does the grid have a cell at [p], and does [P] hold of it? *)
Definition cellIs (P : Cell → bool) (g : Grid) (p : Z * Z) : bool :=
  match getCell g p.1 p.2 with
  | Some x => P x
  | None => false
  end.

(** How many cells of the grid satisfy [P]. *)
Definition countCells (P : Cell → bool) (s : Game) : Z :=
  Z.of_nat (length (filter (λ p, cellIs P (grid s) p) (allCoords (rows s) (cols s)))).

(** [grid] has [rows] lines of [cols] cells. *)
Definition wfGame (s : Game) : Prop :=
  length (grid s) = Z.to_nat (rows s) ∧
  Forall (λ line, length line = Z.to_nat (cols s)) (grid s).

Definition isOpen (x : Cell) : bool := negb (isRevealed x) && negb (isFlagged x).
Definition isSafeRevealed (x : Cell) : bool := isRevealed x && negb (isMine x).

(** Chebyshev distance between two coordinates. *)
Definition chebyshev (p q : Z * Z) : Z :=
  Z.max (Z.abs (q.1 - p.1)) (Z.abs (q.2 - p.2)).

(** How many cells of the grid at distance 1 of [(r, c)] satisfy [P]. *)
Definition countAround (P : Cell → bool) (s : Game) (r c : Z) : Z :=
  Z.of_nat (length (filter (λ q, chebyshev (r, c) q = 1 ∧ cellIs P (grid s) q)
                      (allCoords (rows s) (cols s)))).

(** The mines among the cells of the grid at distance 1 of [(r, c)]. *)
Definition adjacentMines (s : Game) (r c : Z) : Z := countAround isMine s r c.

(** What one passing call of [revealCell] does before it recurses. *)
Definition markRevealed (row col : Z) (s : Game) : Game :=
  set_revealedCount (revealedCount s + 1)
    (set_grid (updCell (withRevealed true) row col (grid s)) s).

(** What a flood fill may do to a cell: nothing, or reveal it if it was
    neither revealed nor flagged. *)
Definition cellStep (x x' : Cell) : Prop :=
  x' = x ∨ (isOpen x = true ∧ x' = withRevealed true x).

(** What a flood fill may do to the game. *)
Record floods (s s' : Game) : Prop := mkFloods {
  floods_frame :
    s' = set_revealedCount (revealedCount s') (set_grid (grid s') s);
  floods_wf : wfGame s → wfGame s';
  floods_cells :
    ∀ r c, option_Forall2 cellStep (getCell (grid s) r c) (getCell (grid s') r c);
  floods_open :
    wfGame s →
    revealedCount s' - revealedCount s = countCells isOpen s - countCells isOpen s';
  floods_revealed :
    wfGame s →
    revealedCount s' - revealedCount s =
    countCells isRevealed s' - countCells isRevealed s
}.

Definition openAt (s : Game) (p : Z * Z) : Prop := cellIs isOpen (grid s) p = true.
Definition zeroAt (s : Game) (p : Z * Z) : Prop :=
  cellIs (λ x, neighborMines x =? 0) (grid s) p = true.
Definition revealedAt (s : Game) (p : Z * Z) : Prop :=
  cellIs isRevealed (grid s) p = true.

(** [q] is one of the up to eight cells around [p]. *)
Definition adjacent (p q : Z * Z) : Prop :=
  ∃ d, d ∈ offsets ∧ q = (p.1 + d.1, p.2 + d.2).

(** The cells a flood fill started at a cell can get to: it enters cells that
    are neither revealed nor flagged, and goes on from those whose
    [neighborMines] is 0. *)
Inductive floodReach (s : Game) : Z * Z → Z * Z → Prop :=
  | floodReach_here p : openAt s p → floodReach s p p
  | floodReach_step p q x :
      openAt s p → zeroAt s p → adjacent p q → floodReach s q x →
      floodReach s p x.

(** In [s'], the cells revealed since [s] whose [neighborMines] is 0 have no
    cell around them that is neither revealed nor flagged. *)
Definition closedOver (s s' : Game) : Prop :=
  ∀ p x x', getCell (grid s) p.1 p.2 = Some x → isRevealed x = false →
    getCell (grid s') p.1 p.2 = Some x' → isRevealed x' = true →
    neighborMines x' = 0 →
    ∀ q y, adjacent p q → getCell (grid s') q.1 q.2 = Some y →
      isRevealed y = true ∨ isFlagged y = true.

(** The grid has a cell at [p]. *)
Definition inGrid (s : Game) (p : Z * Z) : Prop :=
  is_Some (getCell (grid s) p.1 p.2).

(** The connected region of cells with [neighborMines] 0 around a cell,
    with the cells that border it, whatever is flagged or revealed. *)
Inductive zeroRegion (s : Game) : Z * Z → Z * Z → Prop :=
  | zeroRegion_here p : inGrid s p → zeroRegion s p p
  | zeroRegion_step p q x :
      inGrid s p → zeroAt s p → adjacent p q → zeroRegion s q x →
      zeroRegion s p x.

(** "Revealing the cell reveals the whole region", read to the letter. *)
Definition revealsZeroRegion (s : Game) (row col : Z) : Prop :=
  ∀ s', revealCell (cellCount s) row col s = Some s' →
        ∀ p, zeroRegion s (row, col) p → revealedAt s' p.

(** What a loop over the grid may do to the game: the grid keeps its shape,
    the cell at [(r, c)] changes as [step r c] allows, and no other variable
    changes but the draws left. *)
Record regrid (step : Z → Z → Cell → Cell → Prop) (s s' : Game) : Prop := mkRegrid {
  regrid_frame : s' = set_entropy (entropy s') (set_grid (grid s') s);
  regrid_wf : wfGame s → wfGame s';
  regrid_cells :
    ∀ r c, option_Forall2 (step r c) (getCell (grid s) r c) (getCell (grid s') r c)
}.

(** The first-clicked cell and the cells around it. *)
Definition nearFirstClick (firstRow firstCol r c : Z) : Prop :=
  Z.abs (r - firstRow) ≤ 1 ∧ Z.abs (c - firstCol) ≤ 1.

Definition mineStep (firstRow firstCol r c : Z) (x x' : Cell) : Prop :=
  x' = x ∨
  (isMine x = false ∧ ¬ nearFirstClick firstRow firstCol r c ∧ x' = withMine true x).

Definition numberStep (r c : Z) (x x' : Cell) : Prop :=
  ∃ n, x' = withNeighborMines n x.

Definition uncoverStep (r c : Z) (x x' : Cell) : Prop :=
  x' = x ∨ (isMine x = true ∧ x' = withRevealed true x).

(** Every cell without a mine carries the number of mines around it. *)
Definition numbersRight (s : Game) : Prop :=
  ∀ r c x, getCell (grid s) r c = Some x → isMine x = false →
           neighborMines x = adjacentMines s r c.

(** What flagging may do to a cell. *)
Definition flagStep (r c : Z) (x x' : Cell) : Prop :=
  isMine x' = isMine x ∧ isRevealed x' = isRevealed x ∧
  neighborMines x' = neighborMines x ∧ (isRevealed x = true → x' = x).

(** What holds of the game variables whenever a handler starts. *)
Record Inv (s : Game) : Prop := mkInv {
  inv_wf : wfGame s;
  inv_fresh :
    gameStarted s = false →
    gameOver s = false ∧ revealedCount s = 0 ∧
    ∀ r c x, getCell (grid s) r c = Some x → isMine x = false ∧ isRevealed x = false;
  inv_mines :
    gameStarted s = true →
    countCells isMine s = Z.max 0 (mineCount s) ∧ numbersRight s;
  inv_count : revealedCount s = countCells isSafeRevealed s;
  inv_live :
    face s ≠ FaceLose →
    ∀ r c x, getCell (grid s) r c = Some x → isRevealed x = true →
             isFlagged x = false ∧ isMine x = false;
  inv_flag :
    ∀ r c x, getCell (grid s) r c = Some x → isRevealed x = true →
             isFlagged x = true → isMine x = true;
  inv_nowin :
    gameStarted s = true → gameOver s = false →
    revealedCount s ≠ rows s * cols s - mineCount s;
  inv_face :
    face s = FaceWin →
    gameOver s = true ∧ revealedCount s = rows s * cols s - mineCount s;
  inv_new : face s = FaceNew ↔ gameOver s = false;
  inv_lose :
    face s = FaceLose → revealedCount s ≠ rows s * cols s - mineCount s;
  inv_timer : timerInterval s = true → gameStarted s = true ∧ gameOver s = false
}.

(** What a reveal in a started game may do to a cell: reveal it. *)
Definition playStep (x y : Cell) : Prop :=
  isMine y = isMine x ∧ isFlagged y = isFlagged x ∧
  (isRevealed x = true → isRevealed y = true).

Definition plays (s s' : Game) : Prop :=
  ∀ r c, option_Forall2 playStep (getCell (grid s) r c) (getCell (grid s') r c).


(** "No cell is both revealed and flagged", read to the letter. *)
Definition neverRevealedAndFlagged (s : Game) : Prop :=
  ∀ r c x, getCell (grid s) r c = Some x →
           ¬ (isRevealed x = true ∧ isFlagged x = true).

(** ** Games on the easy board *)

Definition play (actions : list Action) (s : Game) : option Game :=
  forEach perform actions s.

(** Draws that put the ten mines of the easy board on (0,3), (0,6) and
    (8,0) to (8,7), and two draws more. *)
Definition easyDraws : list nat :=
  [0; 3; 0; 6; 8; 0; 8; 1; 8; 2; 8; 3; 8; 4; 8; 5; 8; 6; 8; 7; 1; 2]%nat.

Definition easyGame : Game := startGame false easy (boot easyDraws).

(** The board when [placeMines] returns from a first click on (0,0). *)
Definition minedEasy : Game :=
  Eval vm_compute in default easyGame (placeMines 0 0 easyGame).

(** After a first click on (0,0): all is revealed but the mines and the
    cells (0,4), (0,5) and (8,8). *)
Definition firstClick : Game :=
  Eval vm_compute in default easyGame (play [Reveal 0 0] easyGame).

(** After a hint on that board. *)
Definition hintGiven : Game :=
  Eval vm_compute in
    match useHint firstClick with Some (s, _) => s | None => firstClick end.

(** Three flags around the corner before the first click on it, then the
    flag on (0,1) taken back: (0,0) alone is revealed, and (1,0) and (1,1),
    which have no mine around, are flagged. *)
Definition blockedCorner : Game :=
  Eval vm_compute in
    default easyGame
      (play [Flag 0 1; Flag 1 0; Flag 1 1; Reveal 0 0; Flag 0 1] easyGame).

(** After the first click, a flag on (0,4), which carries no mine; the mine
    around (1,4) is on (0,3). *)
Definition wrongFlag : Game :=
  Eval vm_compute in default easyGame (play [Reveal 0 0; Flag 0 4] easyGame).

(** After the first click, a flag on the mine (0,6) and a click on the mine
    (0,3). *)
Definition flaggedMineLost : Game :=
  Eval vm_compute in
    default easyGame (play [Reveal 0 0; Flag 0 6; Reveal 0 3] easyGame).

(** After the first click and clicks on (0,4) and (0,5): (8,8) is the last
    cell without a mine that is hidden. *)
Definition almostWon : Game :=
  Eval vm_compute in
    default easyGame (play [Reveal 0 0; Reveal 0 4; Reveal 0 5] easyGame).

Definition wonGame : Game :=
  Eval vm_compute in default almostWon (handleReveal 8 8 almostWon).

(** A stored table whose classic easy list has eleven entries, and a call
    of [addScore] that names another list. *)
Definition elevenEntries : list Entry :=
  (λ t, mkEntry "Player" "AAA" t "2024-01-01T00:00:00.000Z") <$> seqZ 1 11.



(** ** Vocabulary of the further properties *)

(** Does the action start a new game? *)
Definition startsGame (a : Action) : bool :=
  match a with StartGame _ _ => true | _ => false end.

(** What a handler other than [handleFlag] may do to a cell: the flag stays,
    a revealed cell stays revealed and, once the mines are placed, the mine
    and the number stay. *)
Definition turnStep (started : bool) (x y : Cell) : Prop :=
  isFlagged y = isFlagged x ∧
  (isRevealed x = true → isRevealed y = true) ∧
  (started = true → isMine y = isMine x ∧ neighborMines y = neighborMines x).

(** What a reveal, a chord or the end of the game may do to the game. *)
Record turns (s s' : Game) : Prop := mkTurns {
  turns_rows : rows s' = rows s;
  turns_cols : cols s' = cols s;
  turns_mineCount : mineCount s' = mineCount s;
  turns_flagCount : flagCount s' = flagCount s;
  turns_hints : hints s' = hints s;
  turns_timer : timer s' = timer s;
  turns_isTimeAttack : isTimeAttack s' = isTimeAttack s;
  turns_timeAttackLimit : timeAttackLimit s' = timeAttackLimit s;
  turns_started : gameStarted s = true → gameStarted s' = true;
  turns_cells :
    ∀ r c, option_Forall2 (turnStep (gameStarted s))
             (getCell (grid s) r c) (getCell (grid s') r c)
}.

(** Every mine of the grid is revealed. *)
Definition minesShown (s : Game) : Prop :=
  ∀ r c x, getCell (grid s) r c = Some x → isMine x = true → isRevealed x = true.

(** A cell that [useHint] may choose. *)
Definition isHintable (x : Cell) : bool :=
  negb (isMine x) && negb (isRevealed x) && negb (isFlagged x).


(** [isHighScore]: is the list not full, or the time below its last one?
    [None] stands for the [TypeError] of [list[list.length - 1].time] on a
    list without entries. *)
Definition isHighScore (stored : option (gmap string (gmap string (list Entry))))
    (mode difficulty : string) (t : Z) : option bool :=
  let list := scoresOf stored mode difficulty in
  if (length list <? 10)%nat then Some true
  else e ← last list; Some (t <? time e).

(** A stored table whose classic easy list is full, with the times 1 to
    10, and an entry that ties with the last of them. *)
Definition tenStored : gmap string (gmap string (list Entry)) :=
  <["classic"%string := <["easy"%string := take 10 elevenEntries]> emptyBuckets]>
    defaultScores.

Definition tieEntry : Entry := mkEntry "Late" "LAT" 10 "2024-02-01T00:00:00.000Z".

(** ** The page *)

(** [s.padStart(n, pad)]: [s] behind as much of [pad], repeated, as takes
    it to [n] characters. *)
Fixpoint padding (n : nat) (pad rest : string) : string :=
  match n with
  | O => ""
  | S n' =>
      match rest with
      | String c rest' => String c (padding n' pad rest')
      | EmptyString =>
          match pad with
          | String c rest' => String c (padding n' pad rest')
          | EmptyString => ""
          end
      end
  end.

Definition padStart (n : nat) (pad s : string) : string :=
  padding (n - String.length s) pad pad +:+ s.

(** The functions of the game once more, now with what they write to the
    page: the cells of the board that [renderGrid] creates and [updateCell]
    paints, the two counters, the count of hints and the hint button.
    [String(n)] of an integer is its decimal numeral, [pretty n].  Sounds,
    particles, the [hint-glow] and [win] classes and the screens are left
    out. *)
Module Dom.

(** The [div] of a cell: its classes [flagged], [revealed] and [mine], its
    text (the empty text is [None]) and its [data-count]. *)
Record CellView := mkCellView {
  flagged : bool;
  revealed : bool;
  mine : bool;
  textContent : option Z;
  dataCount : option Z
}.

(** The [div] that [renderGrid] creates, of class [cell]. *)
Definition newView : CellView := mkCellView false false false None None.

Record Page := mkPage {
  game : Game;
  board : list (list CellView);
  mineCounter : string;
  timeCounter : string;
  hintCount : Z;
  hintDisabled : bool
}.

Definition set_game (s : Game) (p : Page) : Page :=
  mkPage s (board p) (mineCounter p) (timeCounter p) (hintCount p) (hintDisabled p).
Definition set_board (b : list (list CellView)) (p : Page) : Page :=
  mkPage (game p) b (mineCounter p) (timeCounter p) (hintCount p) (hintDisabled p).
Definition set_hintCount (n : Z) (p : Page) : Page :=
  mkPage (game p) (board p) (mineCounter p) (timeCounter p) n (hintDisabled p).
Definition set_hintDisabled (b : bool) (p : Page) : Page :=
  mkPage (game p) (board p) (mineCounter p) (timeCounter p) (hintCount p) b.

(** [document.querySelector('[data-row=r][data-col=c]')]; [None] is
    [null]. *)
Definition getView (b : list (list CellView)) (r c : Z) : option CellView :=
  if (0 <=? r) && (0 <=? c)
  then match b !! Z.to_nat r with
       | Some line => line !! Z.to_nat c
       | None => None
       end
  else None.

Definition updView (f : CellView → CellView) (r c : Z) (b : list (list CellView))
  : list (list CellView) :=
  alter (alter f (Z.to_nat c)) (Z.to_nat r) b.

Definition renderGrid (p : Page) : Page :=
  set_board ((λ _, (λ _, newView) <$> seqZ 0 (cols (game p)))
               <$> seqZ 0 (rows (game p))) p.

(** What [updateCell] does to the [div] of a cell whose data is
    [cellData]. *)
Definition drawCell (cellData : Cell) (cell : CellView) : CellView :=
  if isFlagged cellData
  then mkCellView true false (mine cell) None (dataCount cell)
  else if isRevealed cellData
  then if isMine cellData
       then mkCellView false true true None (dataCount cell)
       else if 0 <? neighborMines cellData
       then mkCellView false true (mine cell)
              (Some (neighborMines cellData)) (Some (neighborMines cellData))
       else mkCellView false true (mine cell) None (dataCount cell)
  else mkCellView false false (mine cell) None (dataCount cell).

(** [updateCell]: [None] where there is no [div] or no cell. *)
Definition updateCell (row col : Z) (p : Page) : option Page :=
  cell ← getView (board p) row col;
  cellData ← getCell (grid (game p)) row col;
  Some (set_board (updView (drawCell cellData) row col (board p)) p).

Definition updateCounters (p : Page) : Page :=
  let remaining := mineCount (game p) - flagCount (game p) in
  mkPage (game p) (board p)
    (padStart 3 "0" (pretty remaining))
    (padStart 3 "0" (pretty (Z.min (Z.abs (timer (game p))) 999)))
    (hints (game p)) (hintDisabled p).

Fixpoint revealCell (depth : nat) (row col : Z) (p : Page) : option Page :=
  let s := game p in
  if (row <? 0) || (rows s <=? row) || (col <? 0) || (cols s <=? col) then Some p
  else match getCell (grid s) row col with
       | None => None
       | Some x =>
           if isRevealed x || isFlagged x then Some p
           else match depth with
                | O => None
                | S d =>
                    p1 ← updateCell row col
                           (set_game
                              (set_revealedCount (revealedCount s + 1)
                                 (set_grid (updCell (withRevealed true) row col (grid s)) s))
                              p);
                    if neighborMines x =? 0
                    then forEach (λ '(dr, dc) p', revealCell d (row + dr) (col + dc) p')
                           offsets p1
                    else Some p1
                end
       end.

Definition revealMine (row col : Z) (p : Page) : option Page :=
  updateCell row col
    (set_game (set_grid (updCell (withRevealed true) row col (grid (game p))) (game p)) p).

Definition revealAllMines (p : Page) : option Page :=
  forCells (rows (game p)) (cols (game p))
    (λ r c p,
       match getCell (grid (game p)) r c with
       | Some x =>
           if isMine x
           then updateCell r c
                  (set_game
                     (set_grid (updCell (withRevealed true) r c (grid (game p))) (game p))
                     p)
           else Some p
       | None => None
       end) p.

Definition endGame (won : bool) (p : Page) : option Page :=
  let p1 := set_game (stopTimer (set_gameOver true (game p))) p in
  if won then Some (set_game (set_face FaceWin (game p1)) p1)
  else revealAllMines (set_game (set_face FaceLose (game p1)) p1).

(** The callback of [setInterval] in [startTimer]. *)
Definition tick (p : Page) : option Page :=
  p1 ← (if isTimeAttack (game p)
        then let p' := set_game (set_timer (timer (game p) - 1) (game p)) p in
             if timer (game p') <=? 0 then endGame false p' else Some p'
        else Some (set_game (set_timer (timer (game p) + 1) (game p)) p));
  Some (updateCounters p1).

Definition handleReveal (row col : Z) (p : Page) : option Page :=
  if gameOver (game p) then Some p
  else
    x ← getCell (grid (game p)) row col;
    if isFlagged x || isRevealed x then Some p
    else
      p1 ← (if negb (gameStarted (game p))
            then s' ← placeMines row col (game p);
                 Some (set_game (set_gameStarted true (startTimer s')) p)
            else Some p);
      x1 ← getCell (grid (game p1)) row col;
      if isMine x1 then p2 ← revealMine row col p1; endGame false p2
      else
        p2 ← revealCell (cellCount (game p1)) row col p1;
        if checkWin (game p2) then endGame true p2 else Some p2.

Definition handleFlag (row col : Z) (p : Page) : option Page :=
  let s := game p in
  if gameOver s then Some p
  else
    x ← getCell (grid s) row col;
    if isRevealed x then Some p
    else
      let s1 := set_grid (updCell (withFlagged (negb (isFlagged x))) row col (grid s)) s in
      let s2 := if negb (isFlagged x)
                then set_flagCount (flagCount s1 + 1) s1
                else set_flagCount (flagCount s1 - 1) s1 in
      p1 ← updateCell row col (set_game s2 p);
      Some (updateCounters p1).

Definition handleChord (row col : Z) (p : Page) : option Page :=
  let s := game p in
  x ← getCell (grid s) row col;
  if negb (isRevealed x) || (neighborMines x =? 0) then Some p
  else
    let neighbors := getNeighbors s row col in
    adjacentFlags ←
      forEach (λ '(nr, nc) n,
                 y ← getCell (grid s) nr nc;
                 Some (if isFlagged y then n + 1 else n))
              neighbors 0;
    if adjacentFlags =? neighborMines x
    then forEach (λ '(nr, nc) p',
                    y ← getCell (grid (game p')) nr nc;
                    if negb (isFlagged y) && negb (isRevealed y)
                    then handleReveal nr nc p'
                    else Some p')
                 neighbors p
    else Some p.

(** [useHint]; the [div] of the chosen cell is looked up for the glow. *)
Definition useHint (p : Page) : option (Page * option (Z * Z)) :=
  let s := game p in
  if (hints s <=? 0) || gameOver s || negb (gameStarted s) then Some (p, None)
  else
    safeCells ←
      forCells (rows s) (cols s)
        (λ r c acc,
           x ← getCell (grid s) r c;
           Some (if negb (isMine x) && negb (isRevealed x) && negb (isFlagged x)
                 then acc ++ [(r, c)] else acc)) [];
    if (0 <? Z.of_nat (length safeCells))%Z
    then match entropy s with
         | x :: rnd =>
             q ← safeCells !! Z.to_nat (randomBelow x (Z.of_nat (length safeCells)));
             let s1 := set_hints (hints s - 1) (set_entropy rnd s) in
             let p1 := set_hintCount (hints s1) (set_game s1 p) in
             let p2 := if hints s1 =? 0 then set_hintDisabled true p1 else p1 in
             cell ← getView (board p2) q.1 q.2;
             Some (p2, Some q)
         | [] => None
         end
    else Some (p, None).

Definition initGame (cfg : Settings) (p : Page) : Page :=
  let s := game p in
  let s1 := mkGame [] (s_rows cfg) (s_cols cfg) (s_mines cfg) 0 0 false false
              (if isTimeAttack s then timeAttackLimit s else 0) false 3
              (isTimeAttack s) (timeAttackLimit s) (face s) (entropy s) in
  let p1 := set_hintDisabled false (updateCounters (set_game s1 p)) in
  let p2 := renderGrid (set_game (createGrid s1) p1) in
  set_game (set_face FaceNew (game p2)) p2.

Definition startGame (timeAttack : bool) (cfg : Settings) (p : Page) : Page :=
  let s := game p in
  initGame cfg
    (set_game
       (mkGame (grid s) (rows s) (cols s) (mineCount s) (flagCount s) (revealedCount s)
          (gameOver s) (gameStarted s) (timer s) (timerInterval s) (hints s)
          timeAttack (timeAttackLimit s) (face s) (entropy s)) p).

Definition perform (a : Action) (p : Page) : option Page :=
  let s := game p in
  match a with
  | StartGame ta cfg => Some (startGame ta cfg p)
  | SetTimeLimit n =>
      Some (set_game
              (mkGame (grid s) (rows s) (cols s) (mineCount s) (flagCount s)
                 (revealedCount s) (gameOver s) (gameStarted s) (timer s)
                 (timerInterval s) (hints s) (isTimeAttack s) n (face s) (entropy s)) p)
  | Reveal r c => handleReveal r c p
  | Flag r c => handleFlag r c p
  | Chord r c => if gameOver s then Some p else handleChord r c p
  | Hint => fst <$> useHint p
  | Tick => if timerInterval s then tick p else Some p
  | BackToMenu => Some (set_game (stopTimer s) p)
  end.

(** The pages from the first [startGame] on. *)
Inductive reachable : Page → Prop :=
  | reachable_start ta cfg p0 : reachable (startGame ta cfg p0)
  | reachable_step a p p' : reachable p → perform a p = Some p' → reachable p'.

(** How a cell is to look. *)
Definition cellView (x : Cell) : CellView :=
  if isFlagged x then mkCellView true false false None None
  else if isRevealed x
  then if isMine x then mkCellView false true true None None
       else if 0 <? neighborMines x
       then mkCellView false true false (Some (neighborMines x)) (Some (neighborMines x))
       else mkCellView false true false None None
  else newView.

Definition viewGrid (g : Grid) : list (list CellView) :=
  (λ line : list Cell, cellView <$> line) <$> g.

(** The page with the game [s] and its board, the rest as on [p]. *)
Definition repaint (s : Game) (p : Page) : Page :=
  mkPage s (viewGrid (grid s)) (mineCounter p) (timeCounter p) (hintCount p)
    (hintDisabled p).

(** How the page is to look for the game [s]. *)
Definition render (s : Game) : Page :=
  mkPage s (viewGrid (grid s))
    (padStart 3 "0" (pretty (mineCount s - flagCount s)))
    (padStart 3 "0" (pretty (Z.min (Z.abs (timer s)) 999)))
    (hints s) (hints s =? 0).

End Dom.

(** The page of the easy board, before and after the first click on (0,0)
    and after a flag on (0,4); what the page held before is of no
    account. *)
Definition easyPage : Dom.Page :=
  Dom.startGame false easy (Dom.mkPage (boot easyDraws) [] "" "" 0 false).

Definition firstClickPage : Dom.Page :=
  Eval vm_compute in default easyPage (Dom.handleReveal 0 0 easyPage).

Definition wrongFlagPage : Dom.Page :=
  Eval vm_compute in default firstClickPage (Dom.handleFlag 0 4 firstClickPage).

(** ** Mouse and touch *)

(** The listeners that [renderGrid] puts on the cells, with the variables
    [mouseDownButtons], [chordingActive] and [touchTimer] that they share.
    [timeouts] holds the callbacks of [setTimeout] that wait, under the ids
    that [setTimeout] returned; [touchStart], which is written and never
    read, is left out. *)
Module Ui.

Record State := mkState {
  game : Game;
  mouseDownButtons : Z;
  chordingActive : bool;
  touchTimer : option nat;          (* [null] is [None] *)
  timeouts : gmap nat (Z * Z);      (* the cell that the callback flags *)
  lastTimeout : nat                 (* the last id that [setTimeout] gave *)
}.

(** An event on the cell [(row, col)], or the firing of a timeout. *)
Inductive Event :=
  | TouchStart (row col : Z)
  | TouchEnd (row col : Z)
  | Timeout (id : nat)
  | MouseDown (buttons row col : Z)
  | MouseUp (button row col : Z)
  | AuxClick (button row col : Z)
  | ContextMenu (row col : Z).

Definition handleTouchStart (row col : Z) (st : State) : option State :=
  let id := S (lastTimeout st) in
  Some (mkState (game st) (mouseDownButtons st) (chordingActive st)
          (Some id) (<[id := (row, col)]> (timeouts st)) id).

(** The callback that [handleTouchStart] hands to [setTimeout]. *)
Definition touchTimeout (id : nat) (st : State) : option State :=
  match timeouts st !! id with
  | Some (row, col) =>
      g ← handleFlag row col (game st);
      Some (mkState g (mouseDownButtons st) (chordingActive st)
              None (delete id (timeouts st)) (lastTimeout st))
  | None => Some st
  end.

Definition handleTouchEnd (row col : Z) (st : State) : option State :=
  match touchTimer st with
  | Some id =>
      g ← handleReveal row col (game st);
      Some (mkState g (mouseDownButtons st) (chordingActive st)
              None (delete id (timeouts st)) (lastTimeout st))
  | None => Some st
  end.

Definition handleMouseDown (buttons row col : Z) (st : State) : option State :=
  if gameOver (game st) then Some st
  else if buttons =? 3
  then g ← handleChord row col (game st);
       Some (mkState g buttons true (touchTimer st) (timeouts st) (lastTimeout st))
  else Some (mkState (game st) buttons false (touchTimer st) (timeouts st)
               (lastTimeout st)).

Definition handleAuxClick (button row col : Z) (st : State) : option State :=
  if gameOver (game st) then Some st
  else if button =? 1
  then g ← handleChord row col (game st);
       Some (mkState g (mouseDownButtons st) (chordingActive st) (touchTimer st)
               (timeouts st) (lastTimeout st))
  else Some st.

Definition handleMouseUp (button row col : Z) (st : State) : option State :=
  if gameOver (game st) then Some st
  else if chordingActive st
  then Some (mkState (game st) (mouseDownButtons st) false (touchTimer st)
               (timeouts st) (lastTimeout st))
  else if negb (button =? 0) then Some st
  else g ← handleReveal row col (game st);
       Some (mkState g (mouseDownButtons st) (chordingActive st) (touchTimer st)
               (timeouts st) (lastTimeout st)).

Definition handleRightClick (row col : Z) (st : State) : option State :=
  if gameOver (game st) || chordingActive st then Some st
  else g ← handleFlag row col (game st);
       Some (mkState g (mouseDownButtons st) (chordingActive st) (touchTimer st)
               (timeouts st) (lastTimeout st)).

Definition handle (e : Event) (st : State) : option State :=
  match e with
  | TouchStart row col => handleTouchStart row col st
  | TouchEnd row col => handleTouchEnd row col st
  | Timeout id => touchTimeout id st
  | MouseDown buttons row col => handleMouseDown buttons row col st
  | MouseUp button row col => handleMouseUp button row col st
  | AuxClick button row col => handleAuxClick button row col st
  | ContextMenu row col => handleRightClick row col st
  end.

(** Events one after the other. *)
Definition run (events : list Event) (st : State) : option State :=
  forEach handle events st.

End Ui.

(** The easy board after the first click, with no touch and no button
    down. *)
Definition firstClickUi : Ui.State := Ui.mkState firstClick 0 false None ∅ 0.

(** A time-attack game on the easy board with a limit of one second, after
    the first click on (0,0). *)
Definition lastSecond : Game :=
  Eval vm_compute in
    let s0 := mkGame [] 9 9 10 0 0 false false 0 false 3 false 1 FaceNew easyDraws in
    default s0 (play [Reveal 0 0] (startGame true easy s0)).

(** * Properties *)

(** ** Reading and writing cells *)

Lemma getCell_nonneg g r c x : getCell g r c = Some x → 0 ≤ r ∧ 0 ≤ c.
Proof.
  unfold getCell. destruct (0 <=? r) eqn:Hr, (0 <=? c) eqn:Hc; simpl; try discriminate.
  intros _. apply Z.leb_le in Hr, Hc. done.
Qed.

Lemma getCell_lookup g r c :
  0 ≤ r → 0 ≤ c →
  getCell g r c = g !! Z.to_nat r ≫= (.!! Z.to_nat c).
Proof.
  intros Hr Hc. unfold getCell.
  apply Z.leb_le in Hr, Hc. rewrite Hr, Hc. simpl.
  by destruct (g !! Z.to_nat r).
Qed.

Lemma getCell_wf s r c :
  wfGame s → is_Some (getCell (grid s) r c) ↔ inBounds s r c = true.
Proof.
  intros [Hlen Hall]. unfold inBounds. split.
  - intros [x Hx]. destruct (getCell_nonneg _ _ _ _ Hx) as [Hr Hc].
    rewrite getCell_lookup in Hx by done.
    destruct (grid s !! Z.to_nat r) as [line|] eqn:Hline; [|done]. simpl in Hx.
    pose proof (lookup_lt_Some _ _ _ Hline) as H1.
    pose proof (lookup_lt_Some _ _ _ Hx) as H2.
    rewrite Forall_forall in Hall.
    rewrite (Hall line) in H2 by (eapply list_elem_of_lookup_2; eauto).
    rewrite !andb_true_iff, !Z.leb_le, !Z.ltb_lt. lia.
  - rewrite !andb_true_iff, !Z.leb_le, !Z.ltb_lt. intros [[[Hr Hr'] Hc] Hc'].
    rewrite getCell_lookup by done.
    destruct (lookup_lt_is_Some_2 (grid s) (Z.to_nat r)) as [line Hline]; [lia|].
    rewrite Hline. simpl. apply lookup_lt_is_Some_2.
    rewrite Forall_forall in Hall.
    rewrite (Hall line) by (eapply list_elem_of_lookup_2; eauto). lia.
Qed.

Lemma getCell_updCell f r c g r' c' :
  0 ≤ r → 0 ≤ c →
  getCell (updCell f r c g) r' c' =
  if decide (r' = r ∧ c' = c) then f <$> getCell g r c else getCell g r' c'.
Proof.
  intros Hr Hc. unfold updCell.
  destruct (decide (0 ≤ r' ∧ 0 ≤ c')) as [[Hr' Hc']|Hneg].
  - rewrite !getCell_lookup by done. rewrite list_lookup_alter.
    destruct (decide (Z.to_nat r = Z.to_nat r')) as [Er|Er].
    + assert (r' = r) as -> by lia.
      destruct (g !! Z.to_nat r) as [line|]; simpl; [|by case_decide].
      rewrite list_lookup_alter.
      destruct (decide (Z.to_nat c = Z.to_nat c')) as [Ec|Ec].
      * assert (c' = c) as -> by lia. by rewrite decide_True.
      * rewrite decide_False by lia. done.
    + rewrite decide_False by lia. done.
  - rewrite decide_False by lia.
    unfold getCell.
    destruct (0 <=? r') eqn:E1, (0 <=? c') eqn:E2; simpl; try done.
    apply Z.leb_le in E1, E2. lia.
Qed.

Lemma getCell_updCell_eq f r c g x :
  getCell g r c = Some x → getCell (updCell f r c g) r c = Some (f x).
Proof.
  intros Hx. destruct (getCell_nonneg _ _ _ _ Hx).
  rewrite getCell_updCell, decide_True, Hx by done. done.
Qed.

Lemma getCell_updCell_ne f r c g r' c' :
  0 ≤ r → 0 ≤ c → (r', c') ≠ (r, c) →
  getCell (updCell f r c g) r' c' = getCell g r' c'.
Proof.
  intros ?? Hne. rewrite getCell_updCell, decide_False; [done| |done|done].
  intros [-> ->]. done.
Qed.

Lemma wfGame_set_grid_updCell f r c s :
  wfGame s → wfGame (set_grid (updCell f r c (grid s)) s).
Proof.
  intros [Hlen Hall]. unfold wfGame, updCell. simpl. split.
  - by rewrite length_alter.
  - rewrite Forall_forall in Hall. apply Forall_forall. intros line Hin.
    apply list_elem_of_lookup in Hin as [i Hi].
    rewrite list_lookup_alter in Hi. case_decide.
    + destruct (grid s !! Z.to_nat r) as [line0|] eqn:E; simplify_eq/=.
      rewrite length_alter. apply Hall. eapply list_elem_of_lookup_2; eauto.
    + apply Hall. eapply list_elem_of_lookup_2; eauto.
Qed.

Lemma inBounds_spec s r c :
  inBounds s r c = true ↔ 0 ≤ r < rows s ∧ 0 ≤ c < cols s.
Proof.
  unfold inBounds. rewrite !andb_true_iff, !Z.leb_le, !Z.ltb_lt. lia.
Qed.

Lemma outside_inBounds s r c :
  (r <? 0) || (rows s <=? r) || (c <? 0) || (cols s <=? c) = negb (inBounds s r c).
Proof.
  unfold inBounds.
  destruct (r <? 0) eqn:E1, (rows s <=? r) eqn:E2, (c <? 0) eqn:E3,
    (cols s <=? c) eqn:E4, (0 <=? r) eqn:E5, (r <? rows s) eqn:E6,
    (0 <=? c) eqn:E7, (c <? cols s) eqn:E8; simpl; try reflexivity;
    rewrite ?Z.ltb_lt, ?Z.leb_le, ?Z.ltb_ge, ?Z.leb_gt in *; lia.
Qed.

(** ** Loops *)

Lemma forEach_app {A S} (body : A → S → option S) l1 l2 s :
  forEach body (l1 ++ l2) s = forEach body l1 s ≫= forEach body l2.
Proof.
  revert s. induction l1 as [|a l1 IH]; intros s; simpl; [done|].
  destruct (body a s); simpl; [apply IH|done].
Qed.

(** A property that every turn of the loop keeps holds at its end. *)
Lemma forEach_invariant {A S} (I : S → Prop) (body : A → S → option S) l s s' :
  I s →
  (∀ a t t', a ∈ l → I t → body a t = Some t' → I t') →
  forEach body l s = Some s' → I s'.
Proof.
  revert s. induction l as [|a l IH]; intros s Hs Hbody Hrun; simpl in Hrun.
  - by simplify_eq.
  - destruct (body a s) as [t|] eqn:Ha; [|done].
    apply (IH t); [|intros b u u' ???; apply (Hbody b u u'); [by apply list_elem_of_further|done..]|done].
    apply (Hbody a s t); [apply list_elem_of_here|done..].
Qed.

(** Every element of the list has its turn, between two states that a
    preorder kept by the turns relates to the first and to the last. *)
Lemma forEach_turn {A S} (R : S → S → Prop) `{!Reflexive R, !Transitive R}
    (body : A → S → option S) l s s' a :
  (∀ b t t', b ∈ l → body b t = Some t' → R t t') →
  forEach body l s = Some s' → a ∈ l →
  ∃ t t', R s t ∧ body a t = Some t' ∧ R t' s'.
Proof.
  revert s. induction l as [|b l IH]; intros s Hbody Hrun Hin; [by inv Hin|].
  simpl in Hrun. destruct (body b s) as [t|] eqn:Hb; [|done].
  assert (R s t) by (apply (Hbody b); [apply list_elem_of_here|done]).
  assert (R t s').
  { eapply (forEach_invariant (R t)); [done| |exact Hrun].
    intros c u u' ? ? Hc. etrans; [done|].
    apply (Hbody c); [by apply list_elem_of_further|done]. }
  apply elem_of_cons in Hin as [->|Hin].
  - exists s, t. done.
  - destruct (IH t) as (u & u' & ? & ? & ?); [|done|done|].
    + intros c v v' ??; apply (Hbody c); [by apply list_elem_of_further|done].
    + exists u, u'. split_and!; [by etrans|done|done].
Qed.

(** A loop whose turns all return under an invariant returns. *)
Lemma forEach_returns {A S} (I : S → Prop) (body : A → S → option S) l s :
  I s →
  (∀ a t, a ∈ l → I t → ∃ t', body a t = Some t' ∧ I t') →
  ∃ s', forEach body l s = Some s' ∧ I s'.
Proof.
  revert s. induction l as [|a l IH]; intros s Hs Hbody; simpl; [eauto|].
  destruct (Hbody a s) as (t & -> & Ht); [apply list_elem_of_here|done|].
  apply IH; [done|]. intros b u ??; apply Hbody; [by apply list_elem_of_further|done].
Qed.

Lemma forEach_bind {A B S} (body : B → S → option S) (k : A → list B) l s :
  forEach body (l ≫= k) s = forEach (λ a, forEach body (k a)) l s.
Proof.
  revert s. induction l as [|a l IH]; intros s; [done|].
  rewrite bind_cons, forEach_app. simpl.
  destruct (forEach body (k a) s); simpl; [apply IH|done].
Qed.

(** ** The coordinates of the grid *)

Lemma elem_of_allCoords nr nc r c :
  (r, c) ∈ allCoords nr nc ↔ 0 ≤ r < nr ∧ 0 ≤ c < nc.
Proof.
  unfold allCoords. rewrite list_elem_of_bind. split.
  - intros (r' & Hin & Hr). apply list_elem_of_bind in Hin as (c' & Hin & Hc).
    apply list_elem_of_singleton in Hin. simplify_eq.
    apply elem_of_seqZ in Hr, Hc. lia.
  - intros [Hr Hc]. exists r. split; [|apply elem_of_seqZ; lia].
    apply list_elem_of_bind. exists c. split; [apply list_elem_of_singleton; done|].
    apply elem_of_seqZ; lia.
Qed.

Lemma NoDup_allCoords nr nc : NoDup (allCoords nr nc).
Proof.
  unfold allCoords. apply NoDup_bind; [| |apply NoDup_seqZ].
  - intros r1 r2 p _ _ H1 H2.
    apply list_elem_of_bind in H1 as (c1 & H1 & _), H2 as (c2 & H2 & _).
    apply list_elem_of_singleton in H1, H2. congruence.
  - intros r _. apply NoDup_bind; [| |apply NoDup_seqZ].
    + intros c1 c2 p _ _ H1 H2. apply list_elem_of_singleton in H1, H2. congruence.
    + intros c _. apply NoDup_singleton.
Qed.

Lemma length_allCoords nr nc :
  length (allCoords nr nc) = (Z.to_nat nr * Z.to_nat nc)%nat.
Proof.
  assert (∀ (r : Z) (l : list Z), length (l ≫= λ c, [(r, c)]) = length l) as Hline.
  { intros r l. induction l as [|c l IH]; [done|].
    rewrite bind_cons. simpl. by rewrite IH. }
  unfold allCoords. rewrite <- (length_seqZ 0 nr).
  induction (seqZ 0 nr) as [|r l IH]; [done|].
  rewrite bind_cons, length_app, IH, Hline, length_seqZ. done.
Qed.

Lemma forCells_allCoords {S} nr nc (body : Z → Z → S → option S) s :
  forCells nr nc body s = forEach (λ p, body p.1 p.2) (allCoords nr nc) s.
Proof.
  unfold forCells, allCoords. rewrite forEach_bind.
  revert s. induction (seqZ 0 nr) as [|r l IH]; intros s; [done|]. simpl.
  rewrite forEach_bind.
  assert (∀ l' t, forEach (λ c, forEach (λ p : Z * Z, body p.1 p.2) [(r, c)]) l' t
                  = forEach (λ c, body r c) l' t) as ->.
  { induction l' as [|c l' IH']; intros t; [done|]. simpl.
    destruct (body r c t); [apply IH'|done]. }
  destruct (forEach (λ c, body r c) (seqZ 0 nc) s); [apply IH|done].
Qed.

(** ** Counting cells *)

Section filter_length.
Context {A : Type}.
Implicit Types P Q : A → bool.

Lemma length_filter_ext P Q (l : list A) :
  (∀ x, x ∈ l → P x = Q x) →
  length (filter (λ x, P x) l) = length (filter (λ x, Q x) l).
Proof.
  induction l as [|a l IH]; intros Heq; [done|].
  rewrite !filter_cons. rewrite <- (Heq a) by apply list_elem_of_here.
  specialize (IH (λ x Hx, Heq x (list_elem_of_further _ _ _ Hx))).
  destruct (decide (P a)); simpl; by rewrite IH.
Qed.

Lemma length_filter_mono P Q (l : list A) :
  (∀ x, x ∈ l → P x = true → Q x = true) →
  (length (filter (λ x, P x) l) ≤ length (filter (λ x, Q x) l))%nat.
Proof.
  induction l as [|a l IH]; intros Himp; [done|].
  rewrite !filter_cons.
  assert (length (filter (λ x, P x) l) ≤ length (filter (λ x, Q x) l))%nat
    by (apply IH; intros; apply Himp; [by apply list_elem_of_further|done]).
  destruct (decide (P a)) as [Ha|Ha], (decide (Q a)) as [Hb|Hb]; simpl; try lia.
  apply Is_true_true in Ha. apply Himp in Ha; [|apply list_elem_of_here].
  rewrite Ha in Hb. done.
Qed.

(** Changing the predicate at one point of a duplicate-free list. *)
Lemma length_filter_point P Q (l : list A) (p : A) :
  NoDup l → p ∈ l → (∀ x, x ∈ l → x ≠ p → P x = Q x) →
  Z.of_nat (length (filter (λ x, Q x) l)) =
  Z.of_nat (length (filter (λ x, P x) l)) - Z.b2z (P p) + Z.b2z (Q p).
Proof.
  induction 1 as [|a l Hnotin Hnd IH]; intros Hin Heq; [by inv Hin|].
  rewrite !filter_cons.
  apply elem_of_cons in Hin as [->|Hin].
  - assert (length (filter (λ x, Q x) l) = length (filter (λ x, P x) l)) as Hl.
    { apply (length_filter_ext Q P l). intros x Hx. symmetry.
      apply Heq; [by apply list_elem_of_further|]. intros ->. done. }
    destruct (decide (P a)) as [Ha|Ha], (decide (Q a)) as [Hb|Hb];
      destruct (P a), (Q a); simpl in *; try done; lia.
  - assert (a ≠ p) as Hne by (intros ->; done).
    rewrite <- (Heq a) by (done || apply list_elem_of_here).
    assert (Z.of_nat (length (filter (λ x, Q x) l)) =
            Z.of_nat (length (filter (λ x, P x) l)) - Z.b2z (P p) + Z.b2z (Q p)) as Hl.
    { apply IH; [done|]. intros x ??. apply Heq; [by apply list_elem_of_further|done]. }
    destruct (decide (P a)); simpl length; lia.
Qed.

Lemma length_filter_split P Q (l : list A) :
  length (filter (λ x, P x) l) =
  (length (filter (λ x, P x && Q x) l) + length (filter (λ x, P x && negb (Q x)) l))%nat.
Proof.
  induction l as [|a l IH]; [done|].
  rewrite !filter_cons.
  destruct (P a), (Q a); simpl; lia.
Qed.

(** If as many elements satisfy [P] and [Q] as satisfy [P], all that
    satisfy [P] satisfy [Q]. *)
Lemma length_filter_full P Q (l : list A) x :
  length (filter (λ x, P x && Q x) l) = length (filter (λ x, P x) l) →
  x ∈ l → P x = true → Q x = true.
Proof.
  intros Hlen Hin HP.
  destruct (Q x) eqn:HQ; [done|].
  pose proof (length_filter_split P Q l) as Hsplit.
  assert (x ∈ filter (λ x, P x && negb (Q x)) l) as Hx.
  { apply list_elem_of_filter. by rewrite HP, HQ. }
  destruct (filter (λ x, P x && negb (Q x)) l); [by inv Hx|].
  simpl in Hsplit. lia.
Qed.
End filter_length.

Lemma countCells_nonneg P s : 0 ≤ countCells P s.
Proof. unfold countCells. lia. Qed.

Lemma countCells_le_cellCount P s : countCells P s ≤ Z.of_nat (cellCount s).
Proof.
  unfold countCells, cellCount. rewrite <- (length_allCoords (rows s) (cols s)).
  apply inj_le, length_filter.
Qed.

Lemma countCells_ext P Q s s' :
  rows s' = rows s → cols s' = cols s →
  (∀ r c, inBounds s r c = true → cellIs P (grid s) (r, c) = cellIs Q (grid s') (r, c)) →
  countCells P s = countCells Q s'.
Proof.
  intros Hr Hc Heq. unfold countCells. rewrite Hr, Hc. f_equal.
  apply (length_filter_ext (cellIs P (grid s)) (cellIs Q (grid s'))).
  intros [r c] Hin. apply Heq. apply inBounds_spec. by apply elem_of_allCoords.
Qed.

Lemma countCells_mono P Q s s' :
  rows s' = rows s → cols s' = cols s →
  (∀ r c, cellIs P (grid s) (r, c) = true → cellIs Q (grid s') (r, c) = true) →
  countCells P s ≤ countCells Q s'.
Proof.
  intros Hr Hc Himp. unfold countCells. rewrite Hr, Hc. apply inj_le.
  apply (length_filter_mono (cellIs P (grid s)) (cellIs Q (grid s'))).
  intros [r c] _. apply Himp.
Qed.

(** Writing one cell moves a count by what the cell was and what it becomes. *)
Lemma countCells_updCell P f r c s x :
  wfGame s → getCell (grid s) r c = Some x →
  countCells P (set_grid (updCell f r c (grid s)) s) =
  countCells P s - Z.b2z (P x) + Z.b2z (P (f x)).
Proof.
  intros Hwf Hx. unfold countCells. simpl.
  destruct (getCell_nonneg _ _ _ _ Hx) as [Hr Hc].
  rewrite (length_filter_point (cellIs P (grid s))
             (cellIs P (updCell f r c (grid s))) _ (r, c)).
  - assert (cellIs P (grid s) (r, c) = P x) as -> by (unfold cellIs; simpl; by rewrite Hx).
    assert (cellIs P (updCell f r c (grid s)) (r, c) = P (f x)) as ->; [|done].
    unfold cellIs; simpl. by rewrite (getCell_updCell_eq _ _ _ _ x).
  - apply NoDup_allCoords.
  - apply elem_of_allCoords, inBounds_spec, getCell_wf; [done|by eexists].
  - intros [r' c'] _ Hne. unfold cellIs. simpl.
    by rewrite getCell_updCell_ne.
Qed.

Lemma countCells_split P Q s :
  countCells P s =
  countCells (λ x, P x && Q x) s + countCells (λ x, P x && negb (Q x)) s.
Proof.
  unfold countCells. rewrite <- Nat2Z.inj_add. f_equal.
  rewrite (length_filter_split (cellIs P (grid s)) (cellIs Q (grid s))).
  f_equal; apply (length_filter_ext
    (λ p, cellIs P (grid s) p && _) (cellIs (λ x, P x && _) (grid s)));
    intros [r c] _; unfold cellIs; simpl; by destruct (getCell (grid s) r c).
Qed.

Lemma countCells_all s : wfGame s → countCells (λ _, true) s = Z.of_nat (cellCount s).
Proof.
  intros Hwf. unfold countCells, cellCount.
  rewrite <- (length_allCoords (rows s) (cols s)). f_equal.
  rewrite (length_filter_ext (cellIs (λ _, true) (grid s)) (λ _, true)).
  - induction (allCoords (rows s) (cols s)) as [|p l IH]; [done|].
    rewrite filter_cons. simpl. by f_equal.
  - intros [r c] Hin. unfold cellIs. simpl.
    apply elem_of_allCoords, inBounds_spec, getCell_wf in Hin as [x ->]; done.
Qed.

(** If as many cells satisfy [P] and [Q] as satisfy [P], every cell that
    satisfies [P] satisfies [Q]. *)
Lemma countCells_full P Q s r c x :
  wfGame s →
  countCells (λ x, P x && Q x) s = countCells P s →
  getCell (grid s) r c = Some x → P x = true → Q x = true.
Proof.
  intros Hwf Hcnt Hx HP. unfold countCells in Hcnt. apply Nat2Z.inj in Hcnt.
  assert (cellIs Q (grid s) (r, c) = true) as HQ.
  { apply (length_filter_full (cellIs P (grid s)) (cellIs Q (grid s))
             (allCoords (rows s) (cols s)) (r, c)).
    - rewrite <- Hcnt.
      apply (length_filter_ext (λ p, cellIs P (grid s) p && cellIs Q (grid s) p)
               (cellIs (λ x, P x && Q x) (grid s))).
      intros [r' c'] _. unfold cellIs. simpl. by destruct (getCell (grid s) r' c').
    - apply elem_of_allCoords, inBounds_spec, getCell_wf; by eauto.
    - unfold cellIs. simpl. by rewrite Hx. }
  unfold cellIs in HQ. simpl in HQ. by rewrite Hx in HQ.
Qed.

(** ** The flood fill of [revealCell] *)

Lemma revealCell_unfold d row col s :
  revealCell d row col s =
  if negb (inBounds s row col) then Some s
  else match getCell (grid s) row col with
       | None => None
       | Some x =>
           if negb (isOpen x) then Some s
           else match d with
                | O => None
                | S d' =>
                    if neighborMines x =? 0
                    then forEach (λ '(dr, dc) s', revealCell d' (row + dr) (col + dc) s')
                           offsets (markRevealed row col s)
                    else Some (markRevealed row col s)
                end
       end.
Proof.
  rewrite <- outside_inBounds. unfold isOpen.
  destruct d; simpl; destruct (_ || _ || _ || _); try done;
    destruct (getCell (grid s) row col) as [x|]; try done;
    by destruct (isRevealed x), (isFlagged x).
Qed.

Lemma cellStep_refl x : cellStep x x.
Proof. by left. Qed.

Lemma cellStep_trans x y z : cellStep x y → cellStep y z → cellStep x z.
Proof.
  intros [->|[Hx ->]] [->|[Hy ->]]; [by left|by right|by right|].
  unfold isOpen in Hy. simpl in Hy. done.
Qed.

Lemma cellStep_fields x x' :
  cellStep x x' →
  isMine x' = isMine x ∧ isFlagged x' = isFlagged x ∧
  neighborMines x' = neighborMines x ∧
  (isRevealed x = true → isRevealed x' = true) ∧
  (isRevealed x' = true → isRevealed x = true ∨ isFlagged x = false).
Proof.
  intros [->|[Hopen ->]]; simpl.
  - split_and!; auto.
  - unfold isOpen in Hopen. apply andb_true_iff in Hopen as [_ Hf].
    apply negb_true_iff in Hf. split_and!; auto.
Qed.

Global Instance floods_reflexive : Reflexive floods.
Proof.
  intros s. split; try done.
  - by destruct s.
  - intros r c. destruct (getCell (grid s) r c); constructor. apply cellStep_refl.
  - intros. lia.
  - intros. lia.
Qed.

Global Instance floods_transitive : Transitive floods.
Proof.
  intros s t u [Hf1 Hw1 Hc1 Ho1 Hr1] [Hf2 Hw2 Hc2 Ho2 Hr2]. split.
  - rewrite Hf2. rewrite Hf1. done.
  - auto.
  - intros r c. specialize (Hc1 r c). specialize (Hc2 r c).
    destruct Hc1; inv Hc2; constructor. by eapply cellStep_trans.
  - intros Hw. specialize (Ho1 Hw). specialize (Ho2 (Hw1 Hw)). lia.
  - intros Hw. specialize (Hr1 Hw). specialize (Hr2 (Hw1 Hw)). lia.
Qed.

Lemma floods_rows s s' : floods s s' → rows s' = rows s.
Proof. intros [-> _ _ _ _]. done. Qed.
Lemma floods_cols s s' : floods s s' → cols s' = cols s.
Proof. intros [-> _ _ _ _]. done. Qed.

Lemma floods_markRevealed s r c x :
  getCell (grid s) r c = Some x → isOpen x = true →
  floods s (markRevealed r c s).
Proof.
  intros Hx Hopen. destruct (getCell_nonneg _ _ _ _ Hx) as [Hr Hc].
  assert (isRevealed x = false ∧ isFlagged x = false) as [Hrev Hfl].
  { unfold isOpen in Hopen. destruct (isRevealed x), (isFlagged x); done. }
  split.
  - done.
  - intros Hwf. by apply (wfGame_set_grid_updCell (withRevealed true) r c s).
  - intros r' c'. simpl. rewrite getCell_updCell by done.
    case_decide as Heq.
    + destruct Heq as [-> ->]. rewrite Hx. constructor. by right.
    + destruct (getCell (grid s) r' c'); constructor. apply cellStep_refl.
  - intros Hwf.
    change (countCells isOpen (markRevealed r c s))
      with (countCells isOpen (set_grid (updCell (withRevealed true) r c (grid s)) s)).
    rewrite (countCells_updCell _ _ _ _ _ x) by done.
    rewrite Hopen. unfold isOpen. simpl. lia.
  - intros Hwf.
    change (countCells isRevealed (markRevealed r c s))
      with (countCells isRevealed (set_grid (updCell (withRevealed true) r c (grid s)) s)).
    rewrite (countCells_updCell _ _ _ _ _ x) by done.
    rewrite Hrev. simpl. lia.
Qed.

(** A relation that holds along every single reveal holds along the fill. *)
Lemma revealCell_rel (R : Game → Game → Prop) `{!Reflexive R, !Transitive R} :
  (∀ s r c x, inBounds s r c = true → getCell (grid s) r c = Some x →
              isOpen x = true → R s (markRevealed r c s)) →
  ∀ d r c s s', revealCell d r c s = Some s' → R s s'.
Proof.
  intros Hmark. induction d as [|d IH]; intros r c s s' Hrun;
    rewrite revealCell_unfold in Hrun;
    destruct (inBounds s r c) eqn:Hin; cbn [negb] in Hrun; simplify_eq; try done;
    destruct (getCell (grid s) r c) as [x|] eqn:Hx; try done;
    destruct (isOpen x) eqn:Hopen; cbn [negb] in Hrun; simplify_eq; try done.
  assert (R s (markRevealed r c s)) as Hfirst by eauto.
  destruct (neighborMines x =? 0); simplify_eq; [|done].
  eapply (forEach_invariant (R s)); [exact Hfirst| |exact Hrun].
  intros [dr dc] t t' _ Ht Hstep. etrans; [exact Ht|]. by eapply IH.
Qed.

Lemma revealCell_floods d r c s s' : revealCell d r c s = Some s' → floods s s'.
Proof.
  apply (revealCell_rel floods). intros. by eapply floods_markRevealed.
Qed.

Lemma floods_open_le s s' :
  wfGame s → floods s s' → countCells isOpen s' ≤ countCells isOpen s.
Proof.
  intros Hwf Hfl. apply countCells_mono.
  - symmetry. by apply floods_rows.
  - symmetry. by apply floods_cols.
  - intros r c. unfold cellIs. simpl.
    pose proof (floods_cells _ _ Hfl r c) as Hc.
    destruct Hc as [x x' Hstep|]; [|done].
    destruct Hstep as [->|[Hopen ->]]; [done|]. unfold isOpen. simpl. done.
Qed.

(** [revealCell] returns as soon as it may nest as many calls as there are
    cells that are neither revealed nor flagged. *)
Lemma revealCell_returns d r c s :
  wfGame s → countCells isOpen s ≤ Z.of_nat d →
  ∃ s', revealCell d r c s = Some s'.
Proof.
  revert r c s. induction d as [|d IH]; intros r c s Hwf Hcount;
    rewrite revealCell_unfold;
    destruct (inBounds s r c) eqn:Hin; cbn [negb]; eauto;
    destruct (proj2 (getCell_wf s r c Hwf) Hin) as [x Hx]; rewrite Hx;
    destruct (isOpen x) eqn:Hopen; cbn [negb]; eauto;
    pose proof (floods_markRevealed s r c x Hx Hopen) as Hfl;
    pose proof (floods_open _ _ Hfl Hwf) as Hone;
    pose proof (countCells_nonneg isOpen (markRevealed r c s));
    simpl in Hone; [lia|].
  destruct (neighborMines x =? 0); [|eauto].
  destruct (forEach_returns
    (λ t, wfGame t ∧ countCells isOpen t ≤ Z.of_nat d)
    (λ '(dr, dc) s', revealCell d (r + dr) (c + dc) s')
    offsets (markRevealed r c s)) as (s' & Hs' & _); [| |eauto].
  - split; [by apply (floods_wf _ _ Hfl)|lia].
  - intros [dr dc] t _ [Hwt Hct].
    destruct (IH (r + dr) (c + dc) t Hwt Hct) as [t' Ht'].
    exists t'. split; [done|].
    pose proof (revealCell_floods _ _ _ _ _ Ht') as Hfl'.
    split; [by apply (floods_wf _ _ Hfl')|].
    pose proof (floods_open_le _ _ Hwt Hfl'). lia.
Qed.

Lemma floods_getCell s t r c x :
  floods s t → getCell (grid s) r c = Some x →
  ∃ y, getCell (grid t) r c = Some y ∧ cellStep x y.
Proof.
  intros Hfl Hx. pose proof (floods_cells _ _ Hfl r c) as Hc.
  rewrite Hx in Hc. inv Hc. eauto.
Qed.

Lemma floods_getCell_inv s t r c y :
  floods s t → getCell (grid t) r c = Some y →
  ∃ x, getCell (grid s) r c = Some x ∧ cellStep x y.
Proof.
  intros Hfl Hy. pose proof (floods_cells _ _ Hfl r c) as Hc.
  rewrite Hy in Hc. inv Hc. eauto.
Qed.

Lemma floods_openAt s t p : floods s t → openAt t p → openAt s p.
Proof.
  intros Hfl. unfold openAt, cellIs.
  destruct (getCell (grid t) p.1 p.2) as [y|] eqn:Hy; [|done].
  destruct (floods_getCell_inv _ _ _ _ _ Hfl Hy) as (x & -> & [->|[Hopen ->]]); done.
Qed.

Lemma floods_zeroAt s t p : floods s t → zeroAt t p → zeroAt s p.
Proof.
  intros Hfl. unfold zeroAt, cellIs.
  destruct (getCell (grid t) p.1 p.2) as [y|] eqn:Hy; [|done].
  destruct (floods_getCell_inv _ _ _ _ _ Hfl Hy) as (x & -> & [->|[Hopen ->]]); done.
Qed.

Lemma floods_revealedAt s t p : floods s t → revealedAt s p → revealedAt t p.
Proof.
  intros Hfl. unfold revealedAt, cellIs.
  destruct (getCell (grid s) p.1 p.2) as [x|] eqn:Hx; [|done].
  destruct (floods_getCell _ _ _ _ _ Hfl Hx) as (y & -> & [->|[Hopen ->]]); done.
Qed.

Lemma floodReach_floods s t p q : floods s t → floodReach t p q → floodReach s p q.
Proof.
  intros Hfl. induction 1 as [p Hp|p q x Hp Hz Hadj _ IH].
  - apply floodReach_here. by eapply floods_openAt.
  - eapply floodReach_step; eauto using floods_openAt, floods_zeroAt.
Qed.

Lemma floodReach_source s p q : floodReach s p q → openAt s p.
Proof. by destruct 1. Qed.

Lemma floodReach_target s p q : floodReach s p q → openAt s q.
Proof. by induction 1. Qed.

Lemma adjacent_offset r c dr dc : (dr, dc) ∈ offsets → adjacent (r, c) (r + dr, c + dc).
Proof. intros Hin. by exists (dr, dc). Qed.

(** The fill reveals nothing but what it can reach from its start. *)
Lemma revealCell_sound d r c s s' :
  revealCell d r c s = Some s' →
  ∀ p, revealedAt s' p → revealedAt s p ∨ floodReach s (r, c) p.
Proof.
  revert r c s s'. induction d as [|d IH]; intros r c s s' Hrun;
    rewrite revealCell_unfold in Hrun;
    destruct (inBounds s r c) eqn:Hin; cbn [negb] in Hrun; simplify_eq; auto;
    destruct (getCell (grid s) r c) as [x|] eqn:Hx; try done;
    destruct (isOpen x) eqn:Hopen; cbn [negb] in Hrun; simplify_eq; auto.
  assert (openAt s (r, c)) as Hstart by (unfold openAt, cellIs; simpl; by rewrite Hx).
  destruct (getCell_nonneg _ _ _ _ Hx) as [Hr Hc].
  assert (∀ p, revealedAt (markRevealed r c s) p →
               revealedAt s p ∨ floodReach s (r, c) p) as Hbase.
  { intros [r' c']. unfold revealedAt, cellIs. simpl.
    rewrite getCell_updCell by done. case_decide as Heq; [|auto].
    destruct Heq as [-> ->]. intros _. right. by apply floodReach_here. }
  destruct (neighborMines x =? 0) eqn:Hzero; simplify_eq; [|done].
  assert (zeroAt s (r, c)) as Hz by (unfold zeroAt, cellIs; simpl; by rewrite Hx).
  pose proof (floods_markRevealed s r c x Hx Hopen) as Hfl.
  refine (proj2 (forEach_invariant
    (λ t, floods s t ∧ ∀ p, revealedAt t p → revealedAt s p ∨ floodReach s (r, c) p)
    _ _ _ _ _ _ Hrun)); [done|].
  intros [dr dc] t t' Hd [Hst Ht] Hstep.
  pose proof (revealCell_floods _ _ _ _ _ Hstep) as Hfl'.
  split; [by etrans|]. intros p Hp.
  destruct (IH _ _ _ _ Hstep p Hp) as [Hold|Hnew]; [by apply Ht|].
  right. eapply floodReach_step; [done|done|by apply adjacent_offset|].
  by eapply floodReach_floods.
Qed.

Lemma closedOver_refl s : closedOver s s.
Proof. intros p x x' Hx Hrev Hx' Hrev'. congruence. Qed.

Lemma closedOver_trans s t u :
  floods s t → floods t u → closedOver s t → closedOver t u → closedOver s u.
Proof.
  intros Hst Htu Hc1 Hc2 p x x'' Hx Hrev Hx'' Hrev'' Hzero q y Hadj Hy.
  destruct (floods_getCell _ _ _ _ _ Hst Hx) as (x' & Hx' & Hstep).
  destruct (isRevealed x') eqn:Hrev'.
  - destruct (floods_getCell_inv _ _ _ _ _ Htu Hy) as (y' & Hy' & Hstepy).
    destruct (floods_getCell _ _ _ _ _ Htu Hx') as (x2 & Hx2 & Hstepx).
    assert (x2 = x'') as -> by congruence.
    apply cellStep_fields in Hstepx as (_ & _ & Hnm & _).
    apply cellStep_fields in Hstepy as (_ & Hfl & _ & Hup & _).
    destruct (Hc1 p x x' Hx Hrev Hx' Hrev' ltac:(congruence) q y' Hadj Hy') as [?|?];
      [left; auto|right; congruence].
  - by eapply (Hc2 p x' x'').
Qed.

(** After the fill, the cells it revealed that have no mine around have no
    hidden unflagged cell around, and the cell it started at is revealed
    unless it carries a flag. *)
Lemma revealCell_closed d r c s s' :
  wfGame s → revealCell d r c s = Some s' →
  closedOver s s' ∧
  (∀ x', inBounds s r c = true → getCell (grid s') r c = Some x' →
         isRevealed x' = true ∨ isFlagged x' = true).
Proof.
  revert r c s s'. induction d as [|d IH]; intros r c s s' Hwf Hrun;
    rewrite revealCell_unfold in Hrun.
  all: destruct (inBounds s r c) eqn:Hin; cbn [negb] in Hrun;
    [|injection Hrun as <-; split; [apply closedOver_refl|done]].
  all: destruct (getCell (grid s) r c) as [x|] eqn:Hx; [|done].
  all: destruct (isOpen x) eqn:Hopen; cbn [negb] in Hrun;
    [|injection Hrun as <-; split; [apply closedOver_refl|];
      intros x' _ Hx'; assert (x' = x) as -> by congruence;
      unfold isOpen in Hopen;
      destruct (isRevealed x), (isFlagged x); simpl in *; auto; done].
  { done. }
  destruct (getCell_nonneg _ _ _ _ Hx) as [Hr Hc].
  pose proof (floods_markRevealed s r c x Hx Hopen) as Hfl.
  assert (isRevealed x = false) as Hhidden
    by (unfold isOpen in Hopen; by destruct (isRevealed x)).
  assert (getCell (grid (markRevealed r c s)) r c = Some (withRevealed true x)) as Hx1
    by (simpl; by apply getCell_updCell_eq).
  destruct (neighborMines x =? 0) eqn:Hzero; simplify_eq.
  2:{ split; [|intros x' _ Hx'; left; by simplify_eq].
      intros [r' c'] y y' Hy Hrev Hy' Hrev' Hnm. simpl in *.
      rewrite getCell_updCell in Hy' by done. case_decide as Heq.
      - destruct Heq as [-> ->]. rewrite Hx in Hy'. simplify_eq/=.
        apply Z.eqb_neq in Hzero. done.
      - congruence. }
  assert (floods (markRevealed r c s) s' ∧ closedOver (markRevealed r c s) s')
    as [Hfl1 Hclosed].
  { eapply (forEach_invariant
      (λ t, floods (markRevealed r c s) t ∧ closedOver (markRevealed r c s) t));
      [split; [reflexivity|apply closedOver_refl]| |exact Hrun].
    intros [dr dc] t t' _ [Hft Hct] Hstep.
    pose proof (revealCell_floods _ _ _ _ _ Hstep) as Hfl'.
    split; [by etrans|].
    eapply closedOver_trans; [done|done|done|].
    apply (IH _ _ _ _ (floods_wf _ _ Hft (floods_wf _ _ Hfl Hwf)) Hstep). }
  split.
  - intros [r' c'] y y' Hy Hrev Hy' Hrev' Hnm q z Hadj Hz. simpl in *.
    destruct (decide (r' = r ∧ c' = c)) as [[-> ->]|Hne].
    + destruct Hadj as ([dr dc] & Hd & ->). simpl in *.
      destruct (forEach_turn floods
        (λ '(dr, dc) s', revealCell d (r + dr) (c + dc) s') offsets
        (markRevealed r c s) s' (dr, dc)) as (t & t' & Hft & Hstep & Hft');
        [|done|done|].
      { intros [??] ???. by eapply revealCell_floods. }
      destruct (floods_getCell_inv _ _ _ _ _ Hft' Hz) as (z' & Hz' & Hstepz).
      pose proof (floods_wf _ _ Hft (floods_wf _ _ Hfl Hwf)) as Hwt.
      pose proof (revealCell_floods _ _ _ _ _ Hstep) as Hftt.
      assert (inBounds t (r + dr) (c + dc) = true) as Hint.
      { unfold inBounds.
        rewrite <- (floods_rows _ _ Hftt), <- (floods_cols _ _ Hftt).
        apply (getCell_wf t'); [by apply (floods_wf _ _ Hftt)|by eexists]. }
      destruct (proj2 (IH _ _ _ _ Hwt Hstep) z' Hint Hz') as [Hrz|Hfz];
        apply cellStep_fields in Hstepz as (_ & Hf & _ & Hup & _);
        [left; auto|right; congruence].
    + apply (Hclosed (r', c') y y') with (q := q); try done.
      simpl. rewrite getCell_updCell, decide_False; done.
  - intros x' _ Hx'. left.
    destruct (floods_getCell _ _ _ _ _ Hfl1 Hx1) as (x2 & Hx2 & Hstep).
    assert (x2 = x') as -> by congruence.
    by apply cellStep_fields in Hstep as (_ & _ & _ & Hup & _); apply Hup.
Qed.

(** The fill reveals all that it can reach from its start. *)
Lemma revealCell_complete d r c s s' :
  wfGame s → revealCell d r c s = Some s' →
  ∀ p, floodReach s (r, c) p → revealedAt s' p.
Proof.
  intros Hwf Hrun. pose proof (revealCell_floods _ _ _ _ _ Hrun) as Hfl.
  destruct (revealCell_closed _ _ _ _ _ Hwf Hrun) as [Hclosed Hstart].
  assert (∀ p q, floodReach s p q → revealedAt s' p → revealedAt s' q) as Hpath.
  { induction 1 as [|p q x Hp Hz Hadj Hreach IH]; [done|]. intros Hrev.
    apply IH.
    pose proof (floodReach_source _ _ _ Hreach) as Hq.
    unfold openAt, zeroAt, revealedAt, cellIs in *.
    destruct (getCell (grid s) p.1 p.2) as [xp|] eqn:Hxp; [|done].
    destruct (getCell (grid s) q.1 q.2) as [xq|] eqn:Hxq; [|done].
    destruct (floods_getCell _ _ _ _ _ Hfl Hxp) as (xp' & Hxp' & Hstepp).
    destruct (floods_getCell _ _ _ _ _ Hfl Hxq) as (xq' & Hxq' & Hstepq).
    rewrite Hxp' in Hrev. rewrite Hxq'.
    apply cellStep_fields in Hstepp as (_ & _ & Hnm & _).
    apply cellStep_fields in Hstepq as (_ & Hf & _).
    unfold isOpen in Hp, Hq.
    destruct (Hclosed p xp xp' Hxp ltac:(by destruct (isRevealed xp)) Hxp' Hrev
                ltac:(rewrite Hnm; by apply Z.eqb_eq) q xq' Hadj Hxq') as [?|Hfq];
      [done|].
    rewrite Hf in Hfq. rewrite Hfq in Hq. by destruct (isRevealed xq). }
  intros p Hreach. apply (Hpath _ _ Hreach).
  pose proof (floodReach_source _ _ _ Hreach) as Hopen.
  unfold openAt, revealedAt, cellIs in *. simpl in *.
  destruct (getCell (grid s) r c) as [x|] eqn:Hx; [|done].
  destruct (floods_getCell _ _ _ _ _ Hfl Hx) as (x' & Hx' & Hstep).
  rewrite Hx'.
  apply cellStep_fields in Hstep as (_ & Hf & _).
  destruct (Hstart x') as [?|Hfx]; [|done|done|].
  - apply getCell_wf; [done|by eexists].
  - rewrite Hf in Hfx. unfold isOpen in Hopen. rewrite Hfx in Hopen.
    by destruct (isRevealed x).
Qed.

Lemma forEach_impl {A S} (body body' : A → S → option S) l s s' :
  (∀ a t t', body a t = Some t' → body' a t = Some t') →
  forEach body l s = Some s' → forEach body' l s = Some s'.
Proof.
  intros Himp. revert s. induction l as [|a l IH]; intros s Hrun; [done|].
  simpl in *. destruct (body a s) as [t|] eqn:Ha; [|done].
  rewrite (Himp _ _ _ Ha). by apply IH.
Qed.

(** A larger bound on the nesting does not change what is returned. *)
Lemma revealCell_deeper d d' r c s s' :
  (d ≤ d')%nat → revealCell d r c s = Some s' → revealCell d' r c s = Some s'.
Proof.
  revert d' r c s s'. induction d as [|d IH]; intros d' r c s s' Hle Hrun;
    rewrite revealCell_unfold in Hrun; rewrite revealCell_unfold;
    destruct (inBounds s r c); cbn [negb] in *; try done;
    destruct (getCell (grid s) r c) as [x|]; try done;
    destruct (isOpen x); cbn [negb] in *; try done.
  destruct d' as [|d']; [lia|].
  destruct (neighborMines x =? 0); [|done].
  eapply forEach_impl; [|exact Hrun].
  intros [dr dc] t t'. apply IH. lia.
Qed.

Lemma countCells_isOpen_le s : countCells isOpen s ≤ Z.of_nat (cellCount s).
Proof. apply countCells_le_cellCount. Qed.

Lemma floodReach_zeroRegion s p q :
  (∀ x, zeroRegion s p x → openAt s x) →
  zeroRegion s p q → floodReach s p q.
Proof.
  intros Hopen Hreg. induction Hreg as [p Hp|p q x Hp Hz Hadj Hreg IH].
  - apply floodReach_here, Hopen. by apply zeroRegion_here.
  - eapply floodReach_step; [|done|done|].
    + apply Hopen. by apply zeroRegion_here.
    + apply IH. intros y Hy. apply Hopen. by eapply zeroRegion_step.
Qed.

(** C7: the recursive flood fill always returns: on a grid of [rows] lines
    of [cols] cells and from any start, [revealCell] returns once it may nest
    as many revealing calls as the grid has cells, and returns the same for
    every larger bound; it raises [revealedCount] by the number of cells that
    it turned from hidden to revealed, so no cell is revealed twice, and by at
    most the number of cells. *)
Theorem revealCell_total (s : Game) (row col : Z) :
  wfGame s →
  ∃ s', (∀ depth, (cellCount s ≤ depth)%nat → revealCell depth row col s = Some s') ∧
        revealedCount s' - revealedCount s =
          countCells isRevealed s' - countCells isRevealed s ∧
        0 ≤ revealedCount s' - revealedCount s ≤ Z.of_nat (cellCount s).
Proof.
  intros Hwf.
  destruct (revealCell_returns (cellCount s) row col s Hwf) as [s' Hrun];
    [apply countCells_isOpen_le|].
  exists s'. split; [|split].
  - intros depth Hle. by eapply revealCell_deeper.
  - by apply (floods_revealed _ _ (revealCell_floods _ _ _ _ _ Hrun)).
  - pose proof (revealCell_floods _ _ _ _ _ Hrun) as Hfl.
    rewrite (floods_open _ _ Hfl Hwf).
    pose proof (floods_open_le _ _ Hwf Hfl).
    pose proof (countCells_nonneg isOpen s').
    pose proof (countCells_isOpen_le s). lia.
Qed.

(** C1 (amended): revealing a cell that is neither revealed nor flagged
    reveals exactly the cells the fill can reach from it: the hidden,
    unflagged cells joined to it through hidden, unflagged cells whose
    [neighborMines] is 0, with the hidden, unflagged cells that border
    them.  Flagged cells and cells revealed before are skipped and not passed
    through.  [revealedCount] goes up by the number of cells turned from
    hidden to revealed, each cell being revealed once.  Where no cell of the
    region of zero-count cells and their border is flagged or revealed, the
    whole region is revealed. *)
Theorem revealCell_flood (s : Game) (row col : Z) :
  wfGame s → openAt s (row, col) →
  ∃ s', revealCell (cellCount s) row col s = Some s' ∧
        (∀ p, revealedAt s' p ↔ revealedAt s p ∨ floodReach s (row, col) p) ∧
        revealedCount s' - revealedCount s =
          countCells isRevealed s' - countCells isRevealed s ∧
        ((∀ q, zeroRegion s (row, col) q → openAt s q) →
         ∀ q, zeroRegion s (row, col) q → revealedAt s' q).
Proof.
  intros Hwf Hopen.
  destruct (revealCell_returns (cellCount s) row col s Hwf) as [s' Hrun];
    [apply countCells_isOpen_le|].
  pose proof (revealCell_floods _ _ _ _ _ Hrun) as Hfl.
  exists s'. split_and!; [done| | |].
  - intros p. split.
    + by apply (revealCell_sound _ _ _ _ _ Hrun).
    + intros [Hold|Hnew].
      * by eapply floods_revealedAt.
      * by eapply revealCell_complete.
  - by apply (floods_revealed _ _ Hfl).
  - intros Hall q Hq. eapply revealCell_complete; [done|done|].
    by apply floodReach_zeroRegion.
Qed.

(** ** Loops over the grid *)

Section regrid.
Context (step : Z → Z → Cell → Cell → Prop).
Context (step_refl : ∀ r c x, step r c x x).
Context (step_trans : ∀ r c x y z, step r c x y → step r c y z → step r c x z).

Lemma regrid_refl s : regrid step s s.
Proof.
  split; [by destruct s|done|].
  intros r c. destruct (getCell (grid s) r c); constructor. apply step_refl.
Qed.

Lemma regrid_trans s t u : regrid step s t → regrid step t u → regrid step s u.
Proof.
  intros [Hf1 Hw1 Hc1] [Hf2 Hw2 Hc2]. split.
  - rewrite Hf2. rewrite Hf1. done.
  - auto.
  - intros r c. specialize (Hc1 r c). specialize (Hc2 r c).
    destruct Hc1; inv Hc2; constructor. by eapply step_trans.
Qed.

Lemma regrid_updCell f r c s x :
  getCell (grid s) r c = Some x → step r c x (f x) →
  regrid step s (set_grid (updCell f r c (grid s)) s).
Proof.
  intros Hx Hstep. destruct (getCell_nonneg _ _ _ _ Hx) as [Hr Hc]. split.
  - done.
  - apply wfGame_set_grid_updCell.
  - intros r' c'. simpl. rewrite getCell_updCell by done.
    case_decide as Heq.
    + destruct Heq as [-> ->]. rewrite Hx. by constructor.
    + destruct (getCell (grid s) r' c'); constructor. apply step_refl.
Qed.

Lemma regrid_set_entropy rnd s : regrid step s (set_entropy rnd s).
Proof.
  split; [done|done|].
  intros r c. simpl. destruct (getCell (grid s) r c); constructor. apply step_refl.
Qed.
End regrid.

Lemma regrid_rows step s s' : regrid step s s' → rows s' = rows s.
Proof. intros [-> _ _]. done. Qed.
Lemma regrid_cols step s s' : regrid step s s' → cols s' = cols s.
Proof. intros [-> _ _]. done. Qed.

Lemma regrid_getCell step s t r c x :
  regrid step s t → getCell (grid s) r c = Some x →
  ∃ y, getCell (grid t) r c = Some y ∧ step r c x y.
Proof.
  intros Hre Hx. pose proof (regrid_cells _ _ _ Hre r c) as Hc.
  rewrite Hx in Hc. inv Hc. eauto.
Qed.

Lemma regrid_getCell_inv step s t r c y :
  regrid step s t → getCell (grid t) r c = Some y →
  ∃ x, getCell (grid s) r c = Some x ∧ step r c x y.
Proof.
  intros Hre Hy. pose proof (regrid_cells _ _ _ Hre r c) as Hc.
  rewrite Hy in Hc. inv Hc. eauto.
Qed.

(** A count does not move when no cell changes its answer. *)
Lemma regrid_countCells step P s s' :
  regrid step s s' →
  (∀ r c x y, step r c x y → P y = P x) →
  countCells P s' = countCells P s.
Proof.
  intros Hre Hsame. symmetry.
  apply countCells_ext; [by eapply regrid_rows|by eapply regrid_cols|].
  intros r c _. unfold cellIs. simpl.
  destruct (regrid_cells _ _ _ Hre r c) as [x y Hstep|]; [|done].
  symmetry. by eapply Hsame.
Qed.

Lemma mineStep_refl fr fc r c x : mineStep fr fc r c x x.
Proof. by left. Qed.
Lemma mineStep_trans fr fc r c x y z :
  mineStep fr fc r c x y → mineStep fr fc r c y z → mineStep fr fc r c x z.
Proof. intros [->|(? & ? & ->)] [->|(? & ? & ->)]; [by left|by right|by right|done]. Qed.

Lemma numberStep_refl r c x : numberStep r c x x.
Proof. exists (neighborMines x). by destruct x. Qed.
Lemma numberStep_trans r c x y z : numberStep r c x y → numberStep r c y z → numberStep r c x z.
Proof. intros [n ->] [m ->]. by exists m. Qed.

Lemma uncoverStep_refl r c x : uncoverStep r c x x.
Proof. by left. Qed.
Lemma uncoverStep_trans r c x y z :
  uncoverStep r c x y → uncoverStep r c y z → uncoverStep r c x z.
Proof.
  intros [->|[? ->]] [->|[? ->]]; [by left|by right|by right|].
  right. split; [done|]. by destruct x.
Qed.

Lemma list_pair_ind {A} (P : list A → Prop) :
  P [] → (∀ x, P [x]) → (∀ x y l, P l → P (x :: y :: l)) → ∀ l, P l.
Proof.
  intros Hnil Hone Hcons. fix IH 1. intros [|x [|y l]]; [done|done|].
  apply Hcons, IH.
Qed.

(** ** Placing the mines *)

Lemma placeMinesLoop_spec rnd firstRow firstCol n s s' :
  wfGame s →
  placeMinesLoop rnd firstRow firstCol n s = Some s' →
  regrid (mineStep firstRow firstCol) s s' ∧
  countCells isMine s' = countCells isMine s + (Z.max n (mineCount s) - n).
Proof.
  revert n s. induction rnd as [|x|x y rnd IH] using list_pair_ind;
    intros n s Hwf Hrun; cbn [placeMinesLoop] in Hrun;
    destruct (n <? mineCount s) eqn:Hlt; try done.
  1,2,4: injection Hrun as <-; apply Z.ltb_ge in Hlt;
    (split; [apply regrid_set_entropy, mineStep_refl|]);
    unfold countCells; simpl; lia.
  apply Z.ltb_lt in Hlt.
  set (r := randomBelow x (rows s)) in *. set (c := randomBelow y (cols s)) in *.
  destruct (getCell (grid s) r c) as [z|] eqn:Hz; [|done].
  destruct (negb (isMine z) && negb _) eqn:Hfree.
  - apply andb_true_iff in Hfree as [Hm Hfar].
    apply negb_true_iff in Hm. apply negb_true_iff in Hfar.
    assert (¬ nearFirstClick firstRow firstCol r c) as Hnot.
    { unfold nearFirstClick. intros [H1 H2].
      apply Z.leb_le in H1, H2. rewrite H1, H2 in Hfar. done. }
    assert (regrid (mineStep firstRow firstCol) s
              (set_grid (updCell (withMine true) r c (grid s)) s)) as Hre.
    { apply regrid_updCell with (x := z); [apply mineStep_refl|done|by right]. }
    apply IH in Hrun as [Hre' Hcount]; [|by apply (regrid_wf _ _ _ Hre)].
    split; [eapply regrid_trans; eauto using mineStep_trans|].
    rewrite Hcount, (countCells_updCell _ _ _ _ _ z), Hm by done. simpl. lia.
  - by apply IH in Hrun.
Qed.

(** ** Counting the mines around a cell *)

Lemma offsets_eq :
  offsets = [(-1, -1); (-1, 0); (-1, 1); (0, -1); (0, 1); (1, -1); (1, 0); (1, 1)].
Proof. reflexivity. Qed.

(** The offsets of the two loops are the eight vectors of Chebyshev length 1. *)
Lemma offsets_spec dr dc : (dr, dc) ∈ offsets ↔ Z.max (Z.abs dr) (Z.abs dc) = 1.
Proof.
  rewrite offsets_eq, !elem_of_cons, elem_of_nil. split.
  - intros H. decompose [or] H; simplify_eq; done.
  - intros H.
    assert ((dr = -1 ∨ dr = 0 ∨ dr = 1) ∧ (dc = -1 ∨ dc = 0 ∨ dc = 1) ∧
            ¬ (dr = 0 ∧ dc = 0)) as (Hr & Hc & Hne) by lia.
    destruct Hr as [-> | [-> | ->]], Hc as [-> | [-> | ->]]; try (exfalso; apply Hne; done);
      repeat ((left; reflexivity) || right).
Qed.

Lemma NoDup_offsets : NoDup offsets.
Proof. rewrite offsets_eq. by apply (bool_decide_unpack _). Qed.

Lemma adjacent_chebyshev p q : adjacent p q ↔ chebyshev p q = 1.
Proof.
  destruct p as [r c], q as [r' c']. unfold adjacent, chebyshev. simpl. split.
  - intros ([dr dc] & Hd & Heq). apply offsets_spec in Hd. simpl in *.
    simplify_eq. by replace (r + dr - r) with dr by lia;
      replace (c + dc - c) with dc by lia.
  - intros Hmax. exists (r' - r, c' - c). split; [by apply offsets_spec|].
    simpl. f_equal; lia.
Qed.

(** The loop of [countAdjacentMines] counts the offsets that lead to a mine. *)
Lemma countAdjacentMines_offsets s row col n :
  wfGame s → countAdjacentMines s row col = Some n →
  n = Z.of_nat (length (filter (λ d : Z * Z, cellIs isMine (grid s) (row + d.1, col + d.2))
                          offsets)).
Proof.
  intros Hwf. unfold countAdjacentMines.
  assert (∀ l n0 n,
    forEach (λ '(dr, dc) count,
               let nr := row + dr in
               let nc := col + dc in
               if inBounds s nr nc
               then match getCell (grid s) nr nc with
                    | Some x => Some (if isMine x then count + 1 else count)
                    | None => None
                    end
               else Some count) l n0 = Some n →
    n = n0 + Z.of_nat (length (filter
          (λ d : Z * Z, cellIs isMine (grid s) (row + d.1, col + d.2)) l))) as Hloop.
  { induction l as [|[dr dc] l IH]; intros n0 n' Hrun; simpl in Hrun.
    - simplify_eq. simpl. lia.
    - rewrite filter_cons. simpl.
      destruct (inBounds s (row + dr) (col + dc)) eqn:Hin.
      + destruct (getCell (grid s) (row + dr) (col + dc)) as [x|] eqn:Hx; [|done].
        assert (cellIs isMine (grid s) (row + dr, col + dc) = isMine x) as ->
          by (unfold cellIs; simpl; by rewrite Hx).
        apply IH in Hrun. destruct (isMine x); simpl in *; lia.
      + assert (cellIs isMine (grid s) (row + dr, col + dc) = false) as ->.
        { unfold cellIs. simpl.
          destruct (getCell (grid s) (row + dr) (col + dc)) eqn:Hx; [|done].
          assert (inBounds s (row + dr) (col + dc) = true)
            by (apply getCell_wf; [done|by eexists]). congruence. }
        apply IH in Hrun. simpl. lia. }
  intros Hrun. apply Hloop in Hrun. lia.
Qed.

Lemma length_filter_fmap {A B} (f : A → B) (P : B → bool) (l : list A) :
  length (filter (λ x, P (f x)) l) = length (filter (λ y, P y) (f <$> l)).
Proof.
  induction l as [|a l IH]; [done|].
  rewrite fmap_cons, !filter_cons. destruct (decide (P (f a))); simpl; by rewrite IH.
Qed.

(** Counting along the offsets is counting the cells of the grid at
    Chebyshev distance 1. *)
Lemma offsets_countAround P s row col :
  wfGame s →
  Z.of_nat (length (filter (λ d : Z * Z, cellIs P (grid s) (row + d.1, col + d.2))
                      offsets)) = countAround P s row col.
Proof.
  intros Hwf. unfold countAround. f_equal.
  trans (length (filter (λ q, cellIs P (grid s) q)
                   ((λ d : Z * Z, (row + d.1, col + d.2)) <$> offsets))).
  { apply (length_filter_fmap (λ d : Z * Z, (row + d.1, col + d.2))
             (cellIs P (grid s))). }
  apply Permutation_length, NoDup_Permutation.
  - apply NoDup_filter, NoDup_fmap_2; [|apply NoDup_offsets].
    intros [a b] [a' b'] Heq. simpl in Heq. f_equal; simplify_eq; lia.
  - apply NoDup_filter, NoDup_allCoords.
  - intros [r c]. rewrite !list_elem_of_filter, list_elem_of_fmap. split.
    + intros [HP ([dr dc] & Heq & Hd)]. simpl in Heq. simplify_eq.
      split_and!; [|done|].
      * apply adjacent_chebyshev. by apply adjacent_offset.
      * apply elem_of_allCoords, inBounds_spec, getCell_wf; [done|].
        unfold cellIs in HP. simpl in HP.
        by destruct (getCell (grid s) (row + dr) (col + dc)).
    + intros [[Hcheb HP] _]. split; [done|].
      apply adjacent_chebyshev in Hcheb as ([dr dc] & Hd & Heq). by exists (dr, dc).
Qed.

(** What [countAdjacentMines] returns is the number of mines among the cells
    of the grid at Chebyshev distance 1. *)
Lemma countAdjacentMines_spec s row col n :
  wfGame s → countAdjacentMines s row col = Some n → n = adjacentMines s row col.
Proof.
  intros Hwf Hrun. rewrite (countAdjacentMines_offsets _ _ _ _ Hwf Hrun).
  by apply offsets_countAround.
Qed.

(** The count depends on where the mines are and on nothing else. *)
Lemma adjacentMines_ext s s' r c :
  rows s' = rows s → cols s' = cols s →
  (∀ r c, cellIs isMine (grid s') (r, c) = cellIs isMine (grid s) (r, c)) →
  adjacentMines s' r c = adjacentMines s r c.
Proof.
  intros Hr Hc Hsame. unfold adjacentMines, countAround. rewrite Hr, Hc. f_equal. f_equal.
  apply list_filter_iff. intros [r' c']. by rewrite Hsame.
Qed.

Lemma regrid_adjacentMines step s s' r c :
  regrid step s s' → (∀ r c x y, step r c x y → isMine y = isMine x) →
  adjacentMines s' r c = adjacentMines s r c.
Proof.
  intros Hre Hsame.
  apply adjacentMines_ext; [by eapply regrid_rows|by eapply regrid_cols|].
  intros r' c'. unfold cellIs. simpl.
  destruct (regrid_cells _ _ _ Hre r' c') as [x y Hstep|]; [|done].
  by eapply Hsame.
Qed.

Lemma numberStep_fields r c x y :
  numberStep r c x y →
  isMine y = isMine x ∧ isRevealed y = isRevealed x ∧ isFlagged y = isFlagged x.
Proof. intros [n ->]. done. Qed.

(** [calculateNumbers] writes nothing but [neighborMines], and leaves every
    cell without a mine with the number of mines around it. *)
Lemma calculateNumbers_spec s s' :
  wfGame s → calculateNumbers s = Some s' →
  regrid numberStep s s' ∧ numbersRight s'.
Proof.
  intros Hwf. unfold calculateNumbers. rewrite forCells_allCoords.
  set (body := λ (p : Z * Z) (t : Game), _).
  assert (∀ l t t', regrid numberStep s t → forEach body l t = Some t' →
            regrid numberStep s t' ∧
            ∀ r c x', getCell (grid t') r c = Some x' → isMine x' = false →
              neighborMines x' = adjacentMines s r c ∨
              (((r, c) ∉ l) ∧ getCell (grid t) r c = Some x')) as Hloop.
  { induction l as [|[r0 c0] l IH]; intros t t' Hst Hrun; simpl in Hrun.
    - simplify_eq. split; [done|]. intros r c x' Hx' _. right. split; [apply not_elem_of_nil|done].
    - unfold body at 1 in Hrun. simpl in Hrun.
      destruct (getCell (grid t) r0 c0) as [x0|] eqn:Hx0; [|done].
      destruct (getCell_nonneg _ _ _ _ Hx0) as [Hr0 Hc0].
      pose proof (regrid_wf _ _ _ Hst Hwf) as Hwt.
      destruct (isMine x0) eqn:Hm0; simpl in Hrun.
      + destruct (IH _ _ Hst Hrun) as [Hst' Hcells]. split; [done|].
        intros r c x' Hx' Hm. destruct (Hcells r c x' Hx' Hm) as [?|[Hnotin Ht]]; [by left|].
        right. split; [|done]. apply not_elem_of_cons. split; [|done].
        intros [= -> ->]. congruence.
      + destruct (countAdjacentMines t r0 c0) as [n|] eqn:Hn; [|done].
        apply countAdjacentMines_spec in Hn; [|done].
        rewrite (regrid_adjacentMines numberStep s t) in Hn;
          [|done|by intros ???? [? _]%numberStep_fields].
        assert (regrid numberStep t
                  (set_grid (updCell (withNeighborMines n) r0 c0 (grid t)) t)) as Hre.
        { apply regrid_updCell with (x := x0); [apply numberStep_refl|done|by exists n]. }
        destruct (IH _ _ (regrid_trans _ numberStep_trans _ _ _ Hst Hre) Hrun)
          as [Hst' Hcells].
        split; [done|].
        intros r c x' Hx' Hm. destruct (Hcells r c x' Hx' Hm) as [?|[Hnotin Ht]]; [by left|].
        simpl in Ht. rewrite getCell_updCell in Ht by done. case_decide as Heq.
        * destruct Heq as [-> ->]. rewrite Hx0 in Ht. simplify_eq/=. by left.
        * right. split; [|done]. apply not_elem_of_cons. split; [|done].
          intros [= -> ->]. by apply Heq. }
  intros Hrun.
  destruct (Hloop _ _ _ (regrid_refl _ numberStep_refl s) Hrun) as [Hre Hcells].
  split; [done|].
  intros r c x' Hx' Hm.
  rewrite (regrid_adjacentMines numberStep s s');
    [|done|by intros ???? [? _]%numberStep_fields].
  destruct (Hcells r c x' Hx' Hm) as [?|[Hnotin _]]; [done|].
  exfalso. apply Hnotin.
  rewrite <- (regrid_rows _ _ _ Hre), <- (regrid_cols _ _ _ Hre).
  apply elem_of_allCoords, inBounds_spec, getCell_wf; [|by eexists].
  by apply (regrid_wf _ _ _ Hre).
Qed.

Lemma placeMines_spec firstRow firstCol s s' :
  wfGame s → placeMines firstRow firstCol s = Some s' →
  ∃ t, regrid (mineStep firstRow firstCol) s t ∧ regrid numberStep t s' ∧
       numbersRight s' ∧
       countCells isMine s' = countCells isMine s + Z.max 0 (mineCount s).
Proof.
  intros Hwf. unfold placeMines.
  destruct (placeMinesLoop _ _ _ _ _) as [t|] eqn:Hloop; [|done]. simpl.
  intros Hcalc.
  destruct (placeMinesLoop_spec _ _ _ _ _ _ Hwf Hloop) as [Hre Hcount].
  destruct (calculateNumbers_spec _ _ (regrid_wf _ _ _ Hre Hwf) Hcalc) as [Hre' Hnum].
  exists t. split_and!; [done..|].
  rewrite (regrid_countCells numberStep isMine t s' Hre'), Hcount; [lia|].
  by intros ???? [? _]%numberStep_fields.
Qed.

Lemma countCells_none P s :
  (∀ r c x, getCell (grid s) r c = Some x → P x = false) → countCells P s = 0.
Proof.
  intros Hnone. unfold countCells.
  rewrite (length_filter_ext (cellIs P (grid s)) (λ _, false)).
  - induction (allCoords (rows s) (cols s)) as [|p l IH]; [done|].
    by rewrite filter_cons.
  - intros [r c] _. unfold cellIs. simpl.
    destruct (getCell (grid s) r c) eqn:Hx; [by eapply Hnone|done].
Qed.

Lemma countCells_pos P s r c x :
  wfGame s → getCell (grid s) r c = Some x → P x = true → 1 ≤ countCells P s.
Proof.
  intros Hwf Hx HP. unfold countCells.
  assert ((r, c) ∈ filter (λ p, cellIs P (grid s) p) (allCoords (rows s) (cols s))) as Hin.
  { apply list_elem_of_filter. split.
    - unfold cellIs. simpl. by rewrite Hx, HP.
    - apply elem_of_allCoords, inBounds_spec, getCell_wf; [done|by eexists]. }
  destruct (filter _ _); [by inv Hin|]. simpl. lia.
Qed.

Lemma mineStep_fields fr fc r c x y :
  mineStep fr fc r c x y →
  isRevealed y = isRevealed x ∧ isFlagged y = isFlagged x ∧
  (isMine y = true → isMine x = true ∨ ¬ nearFirstClick fr fc r c).
Proof. intros [->|(? & ? & ->)]; simpl; auto. Qed.


(** C3: when [placeMines] (which ends with [calculateNumbers]) has returned,
    the [neighborMines] of every cell without a mine is the number of mines
    among the cells of the grid at Chebyshev distance 1 of it: its up to
    eight neighbours, fewer on edges and in corners. *)
Theorem placeMines_numbers (s : Game) (firstRow firstCol : Z) (s' : Game) :
  wfGame s →
  placeMines firstRow firstCol s = Some s' →
  ∀ r c x, getCell (grid s') r c = Some x → isMine x = false →
           neighborMines x = adjacentMines s' r c.
Proof.
  intros Hwf Hrun.
  by destruct (placeMines_spec _ _ _ _ Hwf Hrun) as (t & _ & _ & Hnum & _).
Qed.

(** ** The invariant of the game *)

Lemma createGrid_wf s : wfGame (createGrid s).
Proof.
  unfold wfGame, createGrid. simpl. split.
  - by rewrite length_fmap, length_seqZ.
  - apply Forall_fmap, Forall_forall. intros r _. simpl.
    by rewrite length_fmap, length_seqZ.
Qed.

Lemma createGrid_getCell s r c x :
  getCell (grid (createGrid s)) r c = Some x → x = newCell.
Proof.
  intros Hx. destruct (getCell_nonneg _ _ _ _ Hx) as [Hr Hc].
  rewrite getCell_lookup in Hx by done. unfold createGrid in Hx. simpl in Hx.
  rewrite list_lookup_fmap in Hx.
  destruct (seqZ 0 (rows s) !! Z.to_nat r); [|done]. simpl in Hx.
  rewrite list_lookup_fmap in Hx.
  destruct (seqZ 0 (cols s) !! Z.to_nat c); simpl in Hx; congruence.
Qed.

(** The invariant reads the grid, its sizes, [mineCount], [revealedCount],
    [gameOver], [gameStarted], the face and the interval, and nothing else. *)
Lemma Inv_ext s s' :
  grid s' = grid s → rows s' = rows s → cols s' = cols s →
  mineCount s' = mineCount s → revealedCount s' = revealedCount s →
  gameOver s' = gameOver s → gameStarted s' = gameStarted s →
  face s' = face s → timerInterval s' = timerInterval s →
  Inv s → Inv s'.
Proof.
  destruct s, s'. simpl. intros -> -> -> -> -> -> -> -> -> [].
  split; unfold wfGame, countCells, numbersRight, adjacentMines, countAround in *; simpl in *;
    done.
Qed.

Lemma startGame_Inv ta cfg s0 : Inv (startGame ta cfg s0).
Proof.
  unfold startGame, initGame.
  set (s := mkGame [] _ _ _ _ _ _ _ _ _ _ _ _ _ _).
  assert (∀ r c x, getCell (grid (createGrid s)) r c = Some x →
                   isMine x = false ∧ isRevealed x = false) as Hnew.
  { intros r c x ->%createGrid_getCell. done. }
  split; try done.
  - apply createGrid_wf.
  - rewrite countCells_none; [done|]. intros r c x [_ Hx]%Hnew.
    unfold isSafeRevealed. by rewrite Hx.
  - intros _ r c x [_ Hx]%Hnew. congruence.
  - intros r c x [_ Hx]%Hnew. congruence.
Qed.

Lemma flagStep_refl r c x : flagStep r c x x.
Proof. done. Qed.

(** Flags are no part of the invariant. *)
Lemma Inv_flagStep s t :
  Inv s → regrid flagStep s t → Inv t.
Proof.
  intros [Hwf Hfresh Hmines Hcount Hlive Hflag Hnowin Hface Hnew Hlose Htimer] Hre.
  pose proof (regrid_frame _ _ _ Hre) as Hframe.
  assert (∀ P, (∀ x y, isMine y = isMine x → isRevealed y = isRevealed x → P y = P x) →
               countCells P t = countCells P s) as Hsame.
  { intros P HP. apply (regrid_countCells flagStep); [done|].
    intros r c x y (? & ? & _). by apply HP. }
  split.
  - by apply (regrid_wf _ _ _ Hre).
  - rewrite Hframe. simpl. intros Hns. destruct (Hfresh Hns) as (? & ? & Hcells).
    split_and!; [done..|]. intros r c y Hy.
    destruct (regrid_getCell_inv _ _ _ _ _ _ Hre Hy) as (x & Hx & Hm & Hr & _).
    rewrite Hm, Hr. by eapply Hcells.
  - rewrite Hframe at 1. simpl. intros Hst. destruct (Hmines Hst) as [Hcnt Hnum].
    split.
    + rewrite Hsame by (intros; done). rewrite Hframe. done.
    + intros r c y Hy Hmy.
      destruct (regrid_getCell_inv _ _ _ _ _ _ Hre Hy) as (x & Hx & Hm & _ & Hn & _).
      rewrite Hn, (regrid_adjacentMines flagStep s t); [|done|by intros ???? (? & _)].
      apply Hnum; congruence.
  - rewrite Hsame by (intros x y Hm Hr; unfold isSafeRevealed; by rewrite Hm, Hr).
    rewrite Hframe. done.
  - rewrite Hframe at 1. simpl. intros Hlv r c y Hy Hry.
    destruct (regrid_getCell_inv _ _ _ _ _ _ Hre Hy) as (x & Hx & _ & Hr & _ & Heq).
    rewrite Hr in Hry. rewrite (Heq Hry). by eapply Hlive.
  - intros r c y Hy Hry.
    destruct (regrid_getCell_inv _ _ _ _ _ _ Hre Hy) as (x & Hx & _ & Hr & _ & Heq).
    rewrite Hr in Hry. rewrite (Heq Hry). by eapply Hflag.
  - rewrite Hframe. simpl. done.
  - rewrite Hframe. simpl. done.
  - rewrite Hframe. simpl. done.
  - rewrite Hframe. simpl. done.
  - rewrite Hframe. simpl. done.
Qed.

Lemma handleFlag_Inv r c s s' : Inv s → handleFlag r c s = Some s' → Inv s'.
Proof.
  intros HI. unfold handleFlag.
  destruct (gameOver s); [by intros [= <-]|].
  destruct (getCell (grid s) r c) as [x|] eqn:Hx; [|done]. simpl.
  destruct (isRevealed x) eqn:Hrev; [by intros [= <-]|].
  intros [= <-].
  assert (Inv (set_grid (updCell (withFlagged (negb (isFlagged x))) r c (grid s)) s)) as HI'.
  { apply (Inv_flagStep s); [done|].
    apply regrid_updCell with (x := x); [apply flagStep_refl|done|].
    split_and!; [done..|]. intros. congruence. }
  destruct (negb (isFlagged x)); by eapply Inv_ext; [..|exact HI'].
Qed.

Lemma Game_eq a b :
  grid a = grid b → rows a = rows b → cols a = cols b →
  mineCount a = mineCount b → flagCount a = flagCount b →
  revealedCount a = revealedCount b → gameOver a = gameOver b →
  gameStarted a = gameStarted b → timer a = timer b →
  timerInterval a = timerInterval b → hints a = hints b →
  isTimeAttack a = isTimeAttack b → timeAttackLimit a = timeAttackLimit b →
  face a = face b → entropy a = entropy b → a = b.
Proof. destruct a, b. simpl. by intros -> -> -> -> -> -> -> -> -> -> -> -> -> -> ->. Qed.

Lemma revealAllMines_spec s s' :
  revealAllMines s = Some s' → regrid uncoverStep s s'.
Proof.
  unfold revealAllMines. rewrite forCells_allCoords.
  apply forEach_invariant; [apply regrid_refl, uncoverStep_refl|].
  intros [r c] t t' _ Hst. simpl.
  destruct (getCell (grid t) r c) as [x|] eqn:Hx; [|done].
  destruct (isMine x) eqn:Hm; intros [= <-]; [|done].
  eapply regrid_trans; [apply uncoverStep_trans|exact Hst|].
  apply regrid_updCell with (x := x); [apply uncoverStep_refl|done|by right].
Qed.

Lemma uncoverStep_fields r c x y :
  uncoverStep r c x y →
  isMine y = isMine x ∧ isFlagged y = isFlagged x ∧
  neighborMines y = neighborMines x ∧
  (isRevealed y = true → isRevealed x = true ∨ isMine x = true).
Proof. intros [->|[Hm ->]]; simpl; auto. Qed.

(** Losing: the mines are uncovered, the game is over, the rest stands. *)
Lemma Inv_lost s t :
  Inv s → gameStarted s = true → gameOver s = false → regrid uncoverStep s t →
  Inv (set_face FaceLose (stopTimer (set_gameOver true t))).
Proof.
  intros [Hwf Hfresh Hmines Hcount Hlive Hflag Hnowin Hface Hnew Hlose Htimer] Hst Hgo Hre.
  pose proof (regrid_frame _ _ _ Hre) as Hframe.
  assert (∀ P, (∀ x y, isMine y = isMine x →
                  (isRevealed y = true → isRevealed x = true ∨ isMine x = true) →
                  (isRevealed x = true → isRevealed y = true) → P y = P x) →
               countCells P t = countCells P s) as Hsame.
  { intros P HP. apply (regrid_countCells uncoverStep); [done|].
    intros r c x y [->|[Hm ->]]; [done|]. apply HP; simpl; auto. }
  split; simpl.
  - by apply (regrid_wf _ _ _ Hre).
  - rewrite Hframe. simpl. congruence.
  - intros _. destruct (Hmines Hst) as [Hcnt Hnum]. split.
    + change (countCells isMine (set_face _ _)) with (countCells isMine t).
      rewrite Hsame by (intros; done). rewrite Hframe. done.
    + intros r c y Hy Hmy. simpl in Hy.
      destruct (regrid_getCell_inv _ _ _ _ _ _ Hre Hy) as (x & Hx & Hstep).
      apply uncoverStep_fields in Hstep as (Hm & _ & Hn & _).
      change (adjacentMines (set_face _ _) r c) with (adjacentMines t r c).
      rewrite Hn, (regrid_adjacentMines uncoverStep s t);
        [|done|by intros ???? (? & _)%uncoverStep_fields].
      apply Hnum; congruence.
  - change (countCells isSafeRevealed (set_face _ _)) with (countCells isSafeRevealed t).
    rewrite Hsame.
    + rewrite Hframe. done.
    + intros x y Hm Hr Hr'. unfold isSafeRevealed. rewrite Hm.
      destruct (isMine x); [by rewrite !andb_false_r|]. rewrite !andb_true_r.
      destruct (isRevealed x) eqn:Hx; [by rewrite Hr'|].
      destruct (isRevealed y); [|done]. by destruct Hr.
  - done.
  - intros r c y Hy Hry Hfy.
    destruct (regrid_getCell_inv _ _ _ _ _ _ Hre Hy) as (x & Hx & Hstep).
    apply uncoverStep_fields in Hstep as (Hm & Hf & _ & Hr).
    rewrite Hm. destruct (Hr Hry) as [Hrx|?]; [|done].
    eapply Hflag; eauto; congruence.
  - done.
  - done.
  - done.
  - intros _. rewrite Hframe. simpl. by apply Hnowin.
  - done.
Qed.

Lemma endGame_lose_Inv s t s' :
  Inv s → gameStarted s = true → gameOver s = false → regrid uncoverStep s t →
  endGame false t = Some s' → Inv s'.
Proof.
  intros HI Hst Hgo Hre. unfold endGame.
  intros Hre'%revealAllMines_spec.
  pose proof (regrid_frame _ _ _ Hre') as Hframe. simpl in Hframe.
  pose (u := set_entropy (entropy s') (set_grid (grid s') s)).
  assert (regrid uncoverStep s u) as Hsu.
  { split; [done| |].
    - intros Hwf. apply (regrid_wf _ _ _ Hre) in Hwf.
      assert (wfGame s') as Hwf' by (apply (regrid_wf _ _ _ Hre'); exact Hwf).
      pose proof (regrid_rows _ _ _ Hre) as Hr1. pose proof (regrid_cols _ _ _ Hre) as Hc1.
      pose proof (regrid_rows _ _ _ Hre') as Hr2. pose proof (regrid_cols _ _ _ Hre') as Hc2.
      unfold wfGame in *. simpl in *. by rewrite <- Hr1, <- Hc1, <- Hr2, <- Hc2.
    - intros r c. simpl.
      pose proof (regrid_cells _ _ _ Hre r c) as H1.
      pose proof (regrid_cells _ _ _ Hre' r c) as H2. simpl in H2.
      destruct H1; inv H2; constructor. by eapply uncoverStep_trans. }
  pose proof (Inv_lost s u HI Hst Hgo Hsu) as HI'.
  replace s' with (set_face FaceLose (stopTimer (set_gameOver true u))); [done|].
  pose proof (regrid_frame _ _ _ Hre) as Hframe'.
  apply Game_eq; simpl; try done; rewrite Hframe; simpl; try done;
    rewrite Hframe'; done.
Qed.

Lemma adjacentMines_zero s r c q :
  wfGame s → adjacentMines s r c = 0 → adjacent (r, c) q →
  cellIs isMine (grid s) q = false.
Proof.
  intros Hwf Hzero Hadj. unfold adjacentMines, countAround in Hzero.
  destruct (cellIs isMine (grid s) q) eqn:Hm; [|done]. exfalso.
  assert (q ∈ filter (λ q, chebyshev (r, c) q = 1 ∧ cellIs isMine (grid s) q)
                (allCoords (rows s) (cols s))) as Hin.
  { apply list_elem_of_filter. split_and!.
    - by apply adjacent_chebyshev.
    - by rewrite Hm.
    - destruct q as [r' c']. apply elem_of_allCoords, inBounds_spec, getCell_wf; [done|].
      unfold cellIs in Hm. simpl in Hm. by destruct (getCell (grid s) r' c'). }
  destruct (filter _ _); [by inv Hin|]. simpl in Hzero. lia.
Qed.

(** A fill that starts on a cell without a mine gets to no mine, as long
    as the numbers are right. *)
Lemma floodReach_safe s p q :
  wfGame s → numbersRight s →
  floodReach s p q →
  cellIs isMine (grid s) p = false → cellIs isMine (grid s) q = false.
Proof.
  intros Hwf Hnum. induction 1 as [|p q x Hp Hz Hadj _ IH]; [done|]. intros Hsafe.
  apply IH. destruct p as [r c].
  apply (adjacentMines_zero s r c); [done| |done].
  unfold openAt, zeroAt, cellIs in *. simpl in *.
  destruct (getCell (grid s) r c) as [y|] eqn:Hy; [|done].
  rewrite <- (Hnum r c y Hy Hsafe). by apply Z.eqb_eq.
Qed.

Lemma cellCount_rows_cols s r c :
  inBounds s r c = true → Z.of_nat (cellCount s) = rows s * cols s.
Proof. intros Hin%inBounds_spec. unfold cellCount. lia. Qed.

(** If some cell of the grid does not satisfy [P], fewer cells than the grid
    has satisfy it. *)
Lemma countCells_lt P s r c x :
  wfGame s → getCell (grid s) r c = Some x → P x = false →
  countCells P s < rows s * cols s.
Proof.
  intros Hwf Hx HP.
  rewrite <- (cellCount_rows_cols s r c) by (apply getCell_wf; [done|by eexists]).
  rewrite <- (countCells_all s Hwf), (countCells_split (λ _, true) P).
  change (countCells (λ x, true && P x) s) with (countCells P s).
  assert (1 ≤ countCells (λ x, true && negb (P x)) s) as Hpos.
  { apply (countCells_pos _ s r c x Hwf Hx). simpl. by rewrite HP. }
  lia.
Qed.

(** The first click: the mines are placed and the game starts. *)
Lemma placeMines_Inv r c s t x :
  Inv s → gameStarted s = false → getCell (grid s) r c = Some x →
  placeMines r c s = Some t →
  Inv (set_gameStarted true (startTimer t)) ∧
  ∃ y, getCell (grid t) r c = Some y ∧
       isMine y = false ∧ isRevealed y = false ∧ isFlagged y = isFlagged x.
Proof.
  intros [Hwf Hfresh Hmines Hcount Hlive Hflag Hnowin Hface Hnew Hlose Htimer] Hns Hx Hrun.
  destruct (Hfresh Hns) as (Hgo & Hrc & Hcells).
  destruct (placeMines_spec _ _ _ _ Hwf Hrun) as (u & Hre & Hre' & Hnum & Hcnt).
  pose proof (regrid_frame _ _ _ Hre) as Hf1.
  pose proof (regrid_frame _ _ _ Hre') as Hf2.
  assert (wfGame t) as Hwt by (apply (regrid_wf _ _ _ Hre'), (regrid_wf _ _ _ Hre), Hwf).
  assert (∀ r' c' y, getCell (grid t) r' c' = Some y →
            ∃ x', getCell (grid s) r' c' = Some x' ∧
                  isRevealed y = false ∧ isFlagged y = isFlagged x' ∧
                  (isMine y = true → ¬ nearFirstClick r c r' c')) as Hback.
  { intros r' c' y Hy.
    destruct (regrid_getCell_inv _ _ _ _ _ _ Hre' Hy) as (z & Hz & (Hm & Hr & Hfl)%numberStep_fields).
    destruct (regrid_getCell_inv _ _ _ _ _ _ Hre Hz) as (x' & Hx' & (Hr' & Hfl' & Hm')%mineStep_fields).
    destruct (Hcells _ _ _ Hx') as [Hmx Hrx].
    exists x'. split_and!; [done|congruence|congruence|].
    intros Hmy. rewrite Hm in Hmy. destruct (Hm' Hmy); [congruence|done]. }
  assert (∃ y, getCell (grid t) r c = Some y ∧
               isMine y = false ∧ isRevealed y = false ∧ isFlagged y = isFlagged x)
    as (y & Hy & Hmy & Hry & Hfy).
  { destruct (regrid_getCell _ _ _ _ _ _ Hre Hx) as (z & Hz & _).
    destruct (regrid_getCell _ _ _ _ _ _ Hre' Hz) as (y & Hy & _).
    destruct (Hback _ _ _ Hy) as (x' & Hx' & ? & ? & Hfar).
    assert (x' = x) as -> by congruence.
    exists y. split_and!; [done| |done|done].
    destruct (isMine y); [|done]. exfalso. apply Hfar; [done|].
    unfold nearFirstClick. lia. }
  split; [|by eauto].
  assert (mineCount t = mineCount s) as Hmc by (rewrite Hf2, Hf1; done).
  assert (revealedCount t = 0) as Hrt by (rewrite Hf2, Hf1; done).
  assert (countCells isMine s = 0) as Hzero
    by (apply countCells_none; intros ??? [? _]%Hcells; done).
  split; simpl.
  - exact Hwt.
  - done.
  - intros _. split; [|exact Hnum].
    change (countCells isMine (set_gameStarted _ _)) with (countCells isMine t).
    rewrite Hcnt, Hzero, Hmc. lia.
  - change (countCells isSafeRevealed (set_gameStarted _ _))
      with (countCells isSafeRevealed t).
    rewrite Hrt, countCells_none; [done|].
    intros r' c' y' (_ & _ & Hr & _)%Hback. unfold isSafeRevealed. by rewrite Hr.
  - intros _ r' c' y' (_ & _ & Hr & _)%Hback. congruence.
  - intros r' c' y' (_ & _ & Hr & _)%Hback. congruence.
  - intros _ _. rewrite Hrt, Hmc.
    pose proof (countCells_lt isMine t r c y Hwt Hy Hmy) as Hlt.
    rewrite Hcnt, Hzero in Hlt. lia.
  - rewrite Hf2, Hf1. simpl. intros [? _]%Hface. congruence.
  - rewrite Hf2, Hf1. simpl. done.
  - rewrite Hf2, Hf1. simpl. apply Hnew in Hgo. congruence.
  - intros _. split; [done|]. rewrite Hf2, Hf1. done.
Qed.

(** Revealing from a cell without a mine, in a running game. *)
Lemma revealCell_Inv_facts d r c s s2 x :
  Inv s → gameStarted s = true → gameOver s = false →
  getCell (grid s) r c = Some x → isMine x = false →
  revealCell d r c s = Some s2 →
  floods s s2 ∧ wfGame s2 ∧
  (countCells isMine s2 = Z.max 0 (mineCount s2) ∧ numbersRight s2) ∧
  revealedCount s2 = countCells isSafeRevealed s2 ∧
  (∀ r c y, getCell (grid s2) r c = Some y → isRevealed y = true →
            isFlagged y = false ∧ isMine y = false).
Proof.
  intros [Hwf Hfresh Hmines Hcount Hlive Hflag Hnowin Hface Hfnew Hlose Htimer] Hst Hgo Hx Hmx Hrun.
  destruct (Hmines Hst) as [Hcnt Hnum].
  pose proof (revealCell_floods _ _ _ _ _ Hrun) as Hfl.
  pose proof (floods_frame _ _ Hfl) as Hframe.
  pose proof (floods_rows _ _ Hfl) as Hrows.
  pose proof (floods_cols _ _ Hfl) as Hcols.
  assert (∀ r' c' y, getCell (grid s2) r' c' = Some y →
            ∃ x', getCell (grid s) r' c' = Some x' ∧
                  isMine y = isMine x' ∧ isFlagged y = isFlagged x' ∧
                  neighborMines y = neighborMines x' ∧
                  (isRevealed x' = true → isRevealed y = true) ∧
                  (isRevealed y = true →
                   isFlagged y = false ∧ isMine y = false)) as Hback.
  { intros r' c' y Hy.
    destruct (floods_getCell_inv _ _ _ _ _ Hfl Hy) as (x' & Hx' & Hstep).
    exists x'. split; [done|].
    pose proof (cellStep_fields _ _ Hstep) as (Hm & Hf & Hn & Hup & _).
    split_and!; [done..|]. intros Hry.
    destruct Hstep as [->|[Hopen ->]];
      [eapply Hlive; eauto; apply Hfnew in Hgo; congruence|].
    simpl. split; [unfold isOpen in Hopen; by destruct (isRevealed x'), (isFlagged x')|].
    destruct (revealCell_sound _ _ _ _ _ Hrun (r', c')) as [Hold|Hnew].
    - unfold revealedAt, cellIs. simpl. by rewrite Hy.
    - unfold revealedAt, cellIs in Hold. simpl in Hold. rewrite Hx' in Hold.
      unfold isOpen in Hopen. rewrite Hold in Hopen. done.
    - pose proof (floodReach_safe s _ _ Hwf Hnum Hnew) as Hsafe.
      unfold cellIs in Hsafe. simpl in Hsafe. rewrite Hx, Hx' in Hsafe. auto. }
  assert (∀ P, (∀ r' c' x' y, getCell (grid s) r' c' = Some x' →
                  getCell (grid s2) r' c' = Some y → P y = P x') →
               countCells P s2 = countCells P s) as Hsame.
  { intros P HP. symmetry. apply countCells_ext; [done..|].
    intros r' c' _. unfold cellIs. simpl.
    pose proof (floods_cells _ _ Hfl r' c') as Hc.
    destruct (getCell (grid s) r' c') as [x'|] eqn:Hx',
      (getCell (grid s2) r' c') as [y|] eqn:Hy; inv Hc; [|done].
    symmetry. by eapply HP. }
  split_and!.
  - done.
  - by apply (floods_wf _ _ Hfl).
  - rewrite Hsame, Hcnt; [by rewrite Hframe|].
    intros r' c' x' y Hx' Hy. destruct (Hback _ _ _ Hy) as (x2 & ? & ? & _).
    congruence.
  - intros r' c' y Hy Hmy.
    destruct (Hback _ _ _ Hy) as (x' & Hx' & Hm & _ & Hn & _).
    rewrite Hn, (adjacentMines_ext s s2); [apply Hnum; congruence|done..|].
    intros r2 c2. unfold cellIs. simpl.
    destruct (floods_cells _ _ Hfl r2 c2) as [x2 y2 Hstep|]; [|done].
    by apply cellStep_fields in Hstep as (? & _).
  - pose proof (floods_revealed _ _ Hfl Hwf) as Hrev.
    rewrite (countCells_split isRevealed isMine s2),
            (countCells_split isRevealed isMine s) in Hrev.
    change (countCells (λ x, isRevealed x && negb (isMine x))) with
      (countCells isSafeRevealed) in Hrev.
    rewrite (Hsame (λ x, isRevealed x && isMine x)) in Hrev; [lia|].
    intros r' c' x' y Hx' Hy.
    destruct (Hback _ _ _ Hy) as (x2 & ? & Hm & _ & _ & Hup & Hnew).
    assert (x2 = x') as -> by congruence.
    destruct (isRevealed y) eqn:Hry.
    + destruct (Hnew eq_refl) as [_ Hmy]. rewrite <- Hm, Hmy. by rewrite !andb_false_r.
    + destruct (isRevealed x'); [|done]. by specialize (Hup eq_refl).
  - intros r' c' y Hy Hry. destruct (Hback _ _ _ Hy) as (_ & _ & _ & _ & _ & _ & Hnew).
    by apply Hnew.
Qed.

Lemma reveal_safe_Inv d r c s s2 x :
  Inv s → gameStarted s = true → gameOver s = false →
  getCell (grid s) r c = Some x → isMine x = false →
  revealCell d r c s = Some s2 →
  Inv (if checkWin s2 then set_face FaceWin (stopTimer (set_gameOver true s2)) else s2).
Proof.
  intros HI Hst Hgo Hx Hmx Hrun.
  destruct (revealCell_Inv_facts _ _ _ _ _ _ HI Hst Hgo Hx Hmx Hrun)
    as (Hfl & Hwf2 & Hmines2 & Hcount2 & Hlive2).
  destruct HI as [Hwf Hfresh Hmines Hcount Hlive Hflag Hnowin Hface Hnew Hlose Htimer].
  pose proof (floods_frame _ _ Hfl) as Hframe.
  assert (gameStarted s2 = true) as Hst2 by (rewrite Hframe; done).
  assert (gameOver s2 = false) as Hgo2 by (rewrite Hframe; done).
  unfold checkWin. simpl.
  destruct (revealedCount s2 =? rows s2 * cols s2 - mineCount s2) eqn:Hwin.
  - apply Z.eqb_eq in Hwin. split; simpl.
    + done.
    + congruence.
    + done.
    + done.
    + intros _. exact Hlive2.
    + intros r' c' y Hy Hry Hfy. destruct (Hlive2 _ _ _ Hy Hry). congruence.
    + done.
    + done.
    + done.
    + done.
    + done.
  - apply Z.eqb_neq in Hwin.
    assert (face s2 = FaceNew) as Hf2 by (rewrite Hframe; simpl; by apply Hnew).
    split.
    + done.
    + congruence.
    + done.
    + done.
    + intros _. exact Hlive2.
    + intros r' c' y Hy Hry Hfy. destruct (Hlive2 _ _ _ Hy Hry). congruence.
    + done.
    + congruence.
    + done.
    + congruence.
    + rewrite Hframe. simpl. done.
Qed.

Lemma handleReveal_Inv r c s s' : Inv s → handleReveal r c s = Some s' → Inv s'.
Proof.
  intros HI. unfold handleReveal.
  destruct (gameOver s) eqn:Hgo; [by intros [= <-]|].
  destruct (getCell (grid s) r c) as [x|] eqn:Hx; [|done]. simpl.
  destruct (isFlagged x || isRevealed x) eqn:Hskip; [by intros [= <-]|].
  apply orb_false_iff in Hskip as [Hfx Hrx].
  assert (∀ s1 x1, Inv s1 → gameStarted s1 = true → gameOver s1 = false →
            getCell (grid s1) r c = Some x1 → isRevealed x1 = false →
            (if isMine x1 then endGame false (revealMine r c s1)
             else s2 ← revealCell (cellCount s1) r c s1;
                  if checkWin s2 then endGame true s2 else Some s2) = Some s' →
            Inv s') as Hgoes.
  { intros s1 x1 HI1 Hst1 Hgo1 Hx1 Hrx1.
    destruct (isMine x1) eqn:Hm1.
    - apply (endGame_lose_Inv s1); [done..|].
      apply regrid_updCell with (x := x1); [apply uncoverStep_refl|done|by right].
    - destruct (revealCell (cellCount s1) r c s1) as [s2|] eqn:Hrun; [|done]. simpl.
      pose proof (reveal_safe_Inv _ _ _ _ _ _ HI1 Hst1 Hgo1 Hx1 Hm1 Hrun) as HI2.
      destruct (checkWin s2); by intros [= <-]. }
  destruct (gameStarted s) eqn:Hst; simpl.
  - rewrite Hx. simpl. by apply (Hgoes s x).
  - destruct (placeMines r c s) as [t|] eqn:Hplace; [|done]. simpl.
    destruct (placeMines_Inv _ _ _ _ _ HI Hst Hx Hplace)
      as (HI1 & y & Hy & Hmy & Hry & Hfy).
    rewrite Hy. simpl. apply (Hgoes _ y); try done.
    destruct (placeMines_spec _ _ _ _ (inv_wf _ HI) Hplace) as (u & Hre & Hre' & _).
    rewrite (regrid_frame _ _ _ Hre'), (regrid_frame _ _ _ Hre). done.
Qed.

Lemma handleChord_Inv r c s s' : Inv s → handleChord r c s = Some s' → Inv s'.
Proof.
  intros HI. unfold handleChord.
  destruct (getCell (grid s) r c) as [x|]; [|done]. simpl.
  destruct (negb (isRevealed x) || (neighborMines x =? 0)); [by intros [= <-]|].
  destruct (forEach _ (getNeighbors s r c) 0) as [n|]; [|done]. simpl.
  destruct (n =? neighborMines x); [|by intros [= <-]].
  apply forEach_invariant; [done|].
  intros [nr nc] t t' _ Ht.
  destruct (getCell (grid t) nr nc) as [y|]; [|done]. simpl.
  destruct (negb (isFlagged y) && negb (isRevealed y)); [|by intros [= <-]].
  by apply handleReveal_Inv.
Qed.

Lemma useHint_Inv s s' p : Inv s → useHint s = Some (s', p) → Inv s'.
Proof.
  intros HI. unfold useHint.
  destruct (_ || _ || _); [by intros [= <- _]|].
  destruct (forCells _ _ _ _) as [safeCells|]; [|done]. simpl.
  destruct (0 <? _); [|by intros [= <- _]].
  destruct (entropy s) as [|x rnd]; [done|].
  destruct (safeCells !! _); [|done]. simpl. intros [= <- _].
  by eapply Inv_ext; [..|exact HI].
Qed.

Lemma tick_Inv s s' : Inv s → timerInterval s = true → tick s = Some s' → Inv s'.
Proof.
  intros HI Hon. destruct (inv_timer _ HI Hon) as [Hst Hgo]. unfold tick.
  destruct (isTimeAttack s).
  - assert (Inv (set_timer (timer s - 1) s)) as HI'
      by (by eapply Inv_ext; [..|exact HI]).
    destruct (timer (set_timer (timer s - 1) s) <=? 0); [|by intros [= <-]].
    apply (endGame_lose_Inv (set_timer (timer s - 1) s)); [done..|].
    apply regrid_refl, uncoverStep_refl.
  - intros [= <-]. by eapply Inv_ext; [..|exact HI].
Qed.

Lemma Inv_stopTimer s : Inv s → Inv (stopTimer s).
Proof.
  intros [Hwf Hfresh Hmines Hcount Hlive Hflag Hnowin Hface Hnew Hlose Htimer].
  split; try done.
Qed.

Lemma perform_Inv a s s' : Inv s → perform a s = Some s' → Inv s'.
Proof.
  intros HI. destruct a as [ta cfg|n|r c|r c|r c| | |]; simpl.
  - intros [= <-]. apply startGame_Inv.
  - intros [= <-]. by eapply Inv_ext; [..|exact HI].
  - by apply handleReveal_Inv.
  - by apply handleFlag_Inv.
  - destruct (gameOver s); [by intros [= <-]|]. by apply handleChord_Inv.
  - destruct (useHint s) as [[t p]|] eqn:Hhint; [|done]. simpl. intros [= <-].
    by eapply useHint_Inv.
  - destruct (timerInterval s) eqn:Hon; [|by intros [= <-]]. by apply tick_Inv.
  - intros [= <-]. by apply Inv_stopTimer.
Qed.

(** The invariant holds whenever a handler starts. *)
Lemma reachable_Inv s : reachable s → Inv s.
Proof.
  induction 1 as [ta cfg s0|a s s' _ IH Hstep]; [apply startGame_Inv|].
  by eapply perform_Inv.
Qed.

(** ** What a reveal that takes effect does *)

Lemma endGame_false_frame t s' :
  endGame false t = Some s' →
  regrid uncoverStep (set_face FaceLose (stopTimer (set_gameOver true t))) s'.
Proof. unfold endGame. apply revealAllMines_spec. Qed.

(** A reveal that passes the guards of [handleReveal]: the game is running
    once the mines are placed, and either the cell carries a mine and the game
    is lost, or the fill runs from it and the game is won if [checkWin]. *)
Lemma handleReveal_effective r c s s' x :
  Inv s → gameOver s = false → getCell (grid s) r c = Some x →
  isFlagged x = false → isRevealed x = false →
  handleReveal r c s = Some s' →
  ∃ s1 x1,
    Inv s1 ∧ gameStarted s1 = true ∧ gameOver s1 = false ∧
    rows s1 = rows s ∧ cols s1 = cols s ∧ mineCount s1 = mineCount s ∧
    (gameStarted s = true → s1 = s) ∧
    getCell (grid s1) r c = Some x1 ∧ isRevealed x1 = false ∧ isFlagged x1 = false ∧
    ((isMine x1 = true ∧ endGame false (revealMine r c s1) = Some s') ∨
     (isMine x1 = false ∧
      ∃ s2, revealCell (cellCount s1) r c s1 = Some s2 ∧
            s' = if checkWin s2
                 then set_face FaceWin (stopTimer (set_gameOver true s2))
                 else s2)).
Proof.
  intros HI Hgo Hx Hfx Hrx. unfold handleReveal. rewrite Hgo, Hx. simpl.
  rewrite Hfx, Hrx. simpl.
  assert (∀ s1 x1, getCell (grid s1) r c = Some x1 →
            (if isMine x1 then endGame false (revealMine r c s1)
             else s2 ← revealCell (cellCount s1) r c s1;
                  if checkWin s2 then endGame true s2 else Some s2) = Some s' →
            (isMine x1 = true ∧ endGame false (revealMine r c s1) = Some s') ∨
            (isMine x1 = false ∧
             ∃ s2, revealCell (cellCount s1) r c s1 = Some s2 ∧
                   s' = if checkWin s2
                        then set_face FaceWin (stopTimer (set_gameOver true s2))
                        else s2)) as Hgoes.
  { intros s1 x1 Hx1. destruct (isMine x1); [by left|]. right. split; [done|].
    destruct (revealCell (cellCount s1) r c s1) as [s2|]; [|done]. simpl in *.
    exists s2. split; [done|]. unfold endGame in *.
    destruct (checkWin s2); congruence. }
  destruct (gameStarted s) eqn:Hst; simpl.
  - rewrite Hx. simpl. intros Hrun. exists s, x. split_and!; try done.
    by apply Hgoes.
  - destruct (placeMines r c s) as [t|] eqn:Hplace; [|done]. simpl.
    destruct (placeMines_Inv _ _ _ _ _ HI Hst Hx Hplace)
      as (HI1 & y & Hy & Hmy & Hry & Hfy).
    destruct (placeMines_spec _ _ _ _ (inv_wf _ HI) Hplace) as (u & Hre & Hre' & _).
    pose proof (regrid_frame _ _ _ Hre) as Hf1.
    pose proof (regrid_frame _ _ _ Hre') as Hf2.
    rewrite Hy. simpl. intros Hrun.
    exists (set_gameStarted true (startTimer t)), y.
    split_and!; try done; try (rewrite Hf2, Hf1; done); [congruence|].
    by apply Hgoes.
Qed.

(** C4: for every reachable state and every reveal that takes effect there
    (the game is not over and the cell is neither flagged nor revealed), the
    game was not won before, and it is won after the reveal ([endGame(true)]
    has set the winning face) if and only if [revealedCount] then equals
    [rows * cols - mineCount]. *)
Theorem win_iff_safe_cells_revealed (s : Game) (row col : Z) (x : Cell) (s' : Game) :
  reachable s →
  gameOver s = false →
  getCell (grid s) row col = Some x → isFlagged x = false → isRevealed x = false →
  handleReveal row col s = Some s' →
  face s = FaceNew ∧
  (face s' = FaceWin ∧ gameOver s' = true ↔
   revealedCount s' = rows s' * cols s' - mineCount s').
Proof.
  intros Hreach Hgo Hx Hfx Hrx Hrun.
  pose proof (reachable_Inv _ Hreach) as HI.
  split; [by apply (inv_new _ HI)|].
  destruct (handleReveal_effective _ _ _ _ _ HI Hgo Hx Hfx Hrx Hrun)
    as (s1 & x1 & HI1 & Hst1 & Hgo1 & _ & _ & _ & _ & Hx1 & _ & _ & Hcase).
  pose proof (inv_nowin _ HI1 Hst1 Hgo1) as Hnowin.
  destruct Hcase as [[Hm Hend]|(Hm & s2 & Hflood & ->)].
  - apply endGame_false_frame in Hend.
    rewrite (regrid_frame _ _ _ Hend). simpl. split; [by intros [? _]|done].
  - pose proof (floods_frame _ _ (revealCell_floods _ _ _ _ _ Hflood)) as Hframe.
    unfold checkWin. simpl.
    destruct (revealedCount s2 =? rows s2 * cols s2 - mineCount s2) eqn:Hwin.
    + apply Z.eqb_eq in Hwin. simpl. done.
    + apply Z.eqb_neq in Hwin. split; [|done]. intros [Hface _].
      rewrite Hframe in Hface. simpl in Hface.
      apply (inv_face _ HI1) in Hface as [? _]. congruence.
Qed.

(** C10: in every reachable state [revealedCount] is the number of revealed
    cells without a mine: the mine that loses the game and the mines uncovered
    after it are not counted, and as long as the game is not lost no revealed
    cell carries a mine, so the flood fill reveals none. *)
Theorem revealedCount_counts_safe_cells (s : Game) :
  reachable s →
  revealedCount s = countCells isSafeRevealed s ∧
  (face s ≠ FaceLose →
   ∀ r c x, getCell (grid s) r c = Some x → isRevealed x = true → isMine x = false).
Proof.
  intros HI%reachable_Inv. split; [by apply inv_count|].
  intros Hface r c x Hx Hr. by destruct (inv_live _ HI Hface r c x Hx Hr).
Qed.

(** C6 (amended): in every reachable state, a cell that is both revealed and
    flagged is a mine of a lost game: [revealAllMines] reveals the flagged
    mines and leaves their flags.  While the game is running, and when it is
    won, no cell is both revealed and flagged. *)
Theorem revealed_and_flagged_only_lost_mines (s : Game) (r c : Z) (x : Cell) :
  reachable s →
  getCell (grid s) r c = Some x → isRevealed x = true → isFlagged x = true →
  isMine x = true ∧ face s = FaceLose ∧ gameOver s = true.
Proof.
  intros HI%reachable_Inv Hx Hr Hf.
  assert (face s = FaceLose) as Hlost.
  { destruct (face s) eqn:Hface; [| |done].
    - destruct (inv_live _ HI ltac:(congruence) r c x Hx Hr). congruence.
    - destruct (inv_live _ HI ltac:(congruence) r c x Hx Hr). congruence. }
  split_and!; [by eapply inv_flag|done|].
  destruct (gameOver s) eqn:Hgo; [done|]. apply (inv_new _ HI) in Hgo. congruence.
Qed.

(** C8: when a hint fires, [useHint] having chosen a cell whose reveal it
    schedules, that cell carries no mine, is not revealed and is not flagged;
    hints were left, the game was started and not over, and the grid is as
    it was. *)
Theorem useHint_selects_safe_hidden_cell (s s' : Game) (r c : Z) :
  useHint s = Some (s', Some (r, c)) →
  (∃ x, getCell (grid s) r c = Some x ∧
        isMine x = false ∧ isRevealed x = false ∧ isFlagged x = false) ∧
  0 < hints s ∧ gameStarted s = true ∧ gameOver s = false ∧
  grid s' = grid s ∧ hints s' = hints s - 1.
Proof.
  unfold useHint.
  destruct (hints s <=? 0) eqn:Hh; [by intros [= _ ?]|].
  destruct (gameOver s) eqn:Hgo; [by intros [= _ ?]|].
  destruct (gameStarted s) eqn:Hst; [|by intros [= _ ?]]. simpl.
  destruct (forCells _ _ _ _) as [safeCells|] eqn:Hscan; [|done]. simpl.
  destruct (0 <? _); [|by intros [= _ ?]].
  destruct (entropy s) as [|n rnd]; [done|].
  destruct (safeCells !! _) as [p|] eqn:Hp; [|done]. simpl. intros [= <- ->].
  apply Z.leb_gt in Hh. split_and!; try done.
  rewrite forCells_allCoords in Hscan.
  assert (∀ q, q ∈ safeCells →
            ∃ x, getCell (grid s) q.1 q.2 = Some x ∧
                 isMine x = false ∧ isRevealed x = false ∧ isFlagged x = false)
    as Hall.
  { refine (forEach_invariant
      (λ acc, ∀ q, q ∈ acc → ∃ x, getCell (grid s) q.1 q.2 = Some x ∧
                 isMine x = false ∧ isRevealed x = false ∧ isFlagged x = false)
      _ _ _ _ _ _ Hscan).
    - intros q Hq. by inv Hq.
    - intros [r' c'] acc acc' _ Hacc. simpl.
      destruct (getCell (grid s) r' c') as [x|] eqn:Hx; [|done]. simpl.
      destruct (negb (isMine x) && negb (isRevealed x) && negb (isFlagged x)) eqn:Hsafe;
        intros [= <-]; [|done].
      intros q [Hq|Hq]%elem_of_app; [by apply Hacc|].
      apply list_elem_of_singleton in Hq as ->. simpl. exists x.
      destruct (isMine x), (isRevealed x), (isFlagged x); done. }
  apply (Hall (r, c)). by eapply list_elem_of_lookup_2.
Qed.

(** ** The high-score lists *)






Lemma insertZ_sorted a l :
  StronglySorted Z.le l → StronglySorted Z.le (insertZ a l).
Proof.
  induction 1 as [|x l Hl IH Hx]; simpl.
  - repeat constructor.
  - destruct (a <=? x) eqn:E.
    + apply Z.leb_le in E. constructor; [by constructor|].
      constructor; [done|]. eapply Forall_impl; [exact Hx|]. simpl. lia.
    + apply Z.leb_gt in E. constructor; [done|].
      assert (∀ l', Forall (Z.le x) l' → Forall (Z.le x) (insertZ a l')) as Hins.
      { induction 1 as [|y l' Hy Hl' IH']; simpl; [constructor; [lia|constructor]|].
        destruct (a <=? y); repeat constructor; try done; lia. }
      by apply Hins.
Qed.

Lemma sortZ_sorted l : StronglySorted Z.le (sortZ l).
Proof.
  induction l as [|a l IH]; simpl; [constructor|]. by apply insertZ_sorted.
Qed.






Lemma emptyBuckets_lookup difficulty :
  match emptyBuckets !! difficulty with Some l => l | None => [] end = [].
Proof.
  unfold emptyBuckets. rewrite !lookup_insert, lookup_empty.
  repeat case_decide; done.
Qed.

Lemma scoresOf_None mode difficulty : scoresOf None mode difficulty = [].
Proof.
  unfold scoresOf, getScores, defaultScores.
  rewrite !lookup_insert, lookup_empty.
  repeat case_decide; try done; apply emptyBuckets_lookup.
Qed.

(** A call of [addScore] rewrites the list it names and no other. *)
Lemma scoresOf_addScore m d e stored mode difficulty :
  scoresOf (addScore m d e stored) mode difficulty =
  if decide (mode = m ∧ difficulty = d)
  then take 10 (sortByTime (scoresOf stored m d ++ [e]))
  else scoresOf stored mode difficulty.
Proof.
  unfold scoresOf, addScore. cbn [getScores].
  rewrite lookup_insert.
  destruct (decide (m = mode)) as [<-|Hm].
  - rewrite lookup_insert.
    destruct (decide (d = difficulty)) as [<-|Hd].
    + rewrite decide_True by done.
      destruct (getScores stored !! m); [done|]. by rewrite emptyBuckets_lookup.
    + rewrite decide_False by (intros [_ ?]; congruence).
      destruct (getScores stored !! m); [done|]. apply emptyBuckets_lookup.
  - rewrite decide_False by (intros [? _]; congruence). done.
Qed.






(** ** Chording *)

Global Instance plays_reflexive : Reflexive plays.
Proof. intros s r c. destruct (getCell (grid s) r c); constructor. done. Qed.

Global Instance plays_transitive : Transitive plays.
Proof.
  intros s t u H1 H2 r c. specialize (H1 r c). specialize (H2 r c).
  destruct H1 as [x y (? & ? & ?)|]; inv H2; constructor.
  match goal with H : playStep _ _ |- _ => destruct H as (? & ? & ?) end.
  split_and!; [congruence|congruence|auto].
Qed.






Lemma revealAllMines_returns s : wfGame s → ∃ s', revealAllMines s = Some s'.
Proof.
  intros Hwf. unfold revealAllMines. rewrite forCells_allCoords.
  destruct (forEach_returns
    (λ t, wfGame t ∧ rows t = rows s ∧ cols t = cols s)
    (λ (p : Z * Z) (t : Game),
       match getCell (grid t) p.1 p.2 with
       | Some x => if isMine x
                   then Some (set_grid (updCell (withRevealed true) p.1 p.2 (grid t)) t)
                   else Some t
       | None => None
       end)
    (allCoords (rows s) (cols s)) s) as (s' & Hs' & _); [done| |by eauto].
  intros [r c] t Hin (Hwt & Hr & Hc). simpl.
  apply elem_of_allCoords in Hin.
  destruct (proj2 (getCell_wf t r c Hwt)) as [x ->].
  { apply inBounds_spec. by rewrite Hr, Hc. }
  destruct (isMine x); eexists; (split; [done|]); [|done].
  split; [by apply wfGame_set_grid_updCell|done].
Qed.

(** When all the cells without a mine are revealed, every cell without a
    mine is. *)
Lemma won_all_revealed s r c x :
  Inv s → gameStarted s = true → face s = FaceWin →
  getCell (grid s) r c = Some x → isMine x = false → isRevealed x = true.
Proof.
  intros HI Hst Hwin Hx Hm.
  pose proof (inv_wf _ HI) as Hwf.
  destruct (inv_face _ HI Hwin) as [_ Hall].
  destruct (inv_mines _ HI Hst) as [Hmines _].
  pose proof (inv_count _ HI) as Hcount.
  pose proof (countCells_all s Hwf) as Htotal.
  rewrite (cellCount_rows_cols s r c) in Htotal
    by (apply getCell_wf; [done|by eexists]).
  rewrite (countCells_split (λ _, true) isMine) in Htotal.
  change (countCells (λ x, true && isMine x) s) with (countCells isMine s) in Htotal.
  change (countCells (λ x, true && negb (isMine x)) s)
    with (countCells (λ x, negb (isMine x)) s) in Htotal.
  assert (countCells (λ x, negb (isMine x) && isRevealed x) s =
          countCells isSafeRevealed s) as Hsame.
  { apply countCells_ext; [done..|]. intros r' c' _. unfold cellIs, isSafeRevealed.
    destruct (getCell (grid s) (r', c').1 (r', c').2); [apply andb_comm|done]. }
  assert (countCells (λ x, negb (isMine x) && isRevealed x) s ≤
          countCells (λ x, negb (isMine x)) s) as Hle.
  { apply countCells_mono; [done..|]. intros r' c'. unfold cellIs.
    destruct (getCell (grid s) (r', c').1 (r', c').2); [|done].
    by intros [? _]%andb_true_iff. }
  apply (countCells_full (λ x, negb (isMine x)) isRevealed s r c x); [done| |done|].
  - lia.
  - by rewrite Hm.
Qed.

Lemma handleReveal_skip r c s x :
  getCell (grid s) r c = Some x →
  gameOver s || isFlagged x || isRevealed x = true →
  handleReveal r c s = Some s.
Proof.
  intros Hx. unfold handleReveal. destruct (gameOver s); [done|].
  rewrite Hx. simpl. by intros ->.
Qed.


Lemma elem_of_getNeighbors s row col q :
  q ∈ getNeighbors s row col ↔ adjacent (row, col) q ∧ inBounds s q.1 q.2 = true.
Proof.
  unfold getNeighbors, adjacent. rewrite list_elem_of_bind. simpl. split.
  - intros ([dr dc] & Hq & Hd).
    destruct (inBounds s (row + dr) (col + dc)) eqn:Hin; [|by inv Hq].
    apply list_elem_of_singleton in Hq as ->. split; [by exists (dr, dc)|done].
  - intros [([dr dc] & Hd & ->) Hin]. simpl in *. exists (dr, dc).
    rewrite Hin. split; [by apply list_elem_of_singleton|done].
Qed.




(** ** The games on the easy board *)

Lemma reachable_play actions s s' :
  reachable s → play actions s = Some s' → reachable s'.
Proof.
  unfold play. revert s. induction actions as [|a actions IH]; intros s Hs Hrun.
  - simpl in Hrun. by simplify_eq.
  - simpl in Hrun. destruct (perform a s) as [t|] eqn:Ha; [|done].
    apply (IH t); [|done]. by eapply reachable_step.
Qed.

Lemma easyGame_reachable : reachable easyGame.
Proof. apply reachable_start. Qed.

Lemma easyGame_wf : wfGame easyGame.
Proof. split; [reflexivity|repeat constructor]. Qed.

Lemma minedEasy_placed : placeMines 0 0 easyGame = Some minedEasy.
Proof. vm_compute. reflexivity. Qed.

Lemma firstClick_reachable : reachable firstClick.
Proof.
  apply (reachable_play [Reveal 0 0] easyGame); [apply easyGame_reachable|].
  vm_compute. reflexivity.
Qed.

Lemma blockedCorner_reachable : reachable blockedCorner.
Proof.
  apply (reachable_play [Flag 0 1; Flag 1 0; Flag 1 1; Reveal 0 0; Flag 0 1] easyGame);
    [apply easyGame_reachable|].
  vm_compute. reflexivity.
Qed.

Lemma blockedCorner_wf : wfGame blockedCorner.
Proof. split; [reflexivity|repeat constructor]. Qed.

Lemma wrongFlag_reachable : reachable wrongFlag.
Proof.
  apply (reachable_play [Reveal 0 0; Flag 0 4] easyGame); [apply easyGame_reachable|].
  vm_compute. reflexivity.
Qed.

Lemma flaggedMineLost_reachable : reachable flaggedMineLost.
Proof.
  apply (reachable_play [Reveal 0 0; Flag 0 6; Reveal 0 3] easyGame);
    [apply easyGame_reachable|].
  vm_compute. reflexivity.
Qed.

Lemma almostWon_reachable : reachable almostWon.
Proof.
  apply (reachable_play [Reveal 0 0; Reveal 0 4; Reveal 0 5] easyGame);
    [apply easyGame_reachable|].
  vm_compute. reflexivity.
Qed.

(** C1, as it is stated, fails on [blockedCorner]: (0,1) is hidden, not
    flagged, carries no mine and has no mine around; (1,1) touches it and has
    no mine around either, but carries a flag, and revealing (0,1) leaves it
    hidden. *)
Lemma flood_stops_at_flags :
  reachable blockedCorner ∧
  openAt blockedCorner (0, 1) ∧ zeroAt blockedCorner (0, 1) ∧
  cellIs isMine (grid blockedCorner) (0, 1) = false ∧
  ¬ revealsZeroRegion blockedCorner 0 1.
Proof.
  split_and!; [apply blockedCorner_reachable|reflexivity..|].
  intros Hclaim.
  assert (∃ s', revealCell (cellCount blockedCorner) 0 1 blockedCorner = Some s' ∧
                cellIs isRevealed (grid s') (1, 1) = false) as (s' & Hrun & Hhidden).
  { eexists. split; vm_compute; reflexivity. }
  assert (zeroRegion blockedCorner (0, 1) (1, 1)) as Hregion.
  { apply zeroRegion_step with (q := (1, 1)).
    - by eexists.
    - reflexivity.
    - exists (1, 0). split; [|reflexivity]. rewrite offsets_eq. set_solver.
    - apply zeroRegion_here. by eexists. }
  specialize (Hclaim s' Hrun (1, 1) Hregion).
  unfold revealedAt in Hclaim. congruence.
Qed.

Lemma revealCell_flood_witness :
  ∃ s', revealCell (cellCount blockedCorner) 0 1 blockedCorner = Some s' ∧
        (∀ p, revealedAt s' p ↔
              revealedAt blockedCorner p ∨ floodReach blockedCorner (0, 1) p) ∧
        revealedCount s' - revealedCount blockedCorner =
          countCells isRevealed s' - countCells isRevealed blockedCorner ∧
        ((∀ q, zeroRegion blockedCorner (0, 1) q → openAt blockedCorner q) →
         ∀ q, zeroRegion blockedCorner (0, 1) q → revealedAt s' q).
Proof.
  apply (revealCell_flood blockedCorner 0 1).
  - split; [reflexivity|repeat constructor].
  - reflexivity.
Defined.


Lemma placeMines_numbers_witness :
  neighborMines (mkCell false false false 1) = adjacentMines minedEasy 1 2.
Proof.
  apply (placeMines_numbers easyGame 0 0 minedEasy).
  - split; [reflexivity|repeat constructor].
  - vm_compute. reflexivity.
  - vm_compute. reflexivity.
  - reflexivity.
Defined.

Lemma win_iff_safe_cells_revealed_witness :
  face almostWon = FaceNew ∧
  (face wonGame = FaceWin ∧ gameOver wonGame = true ↔
   revealedCount wonGame = rows wonGame * cols wonGame - mineCount wonGame).
Proof.
  apply (win_iff_safe_cells_revealed almostWon 8 8 (mkCell false false false 1) wonGame).
  - apply (reachable_step (Reveal 0 5)
             (default easyGame (play [Reveal 0 0; Reveal 0 4] easyGame)));
      [|vm_compute; reflexivity].
    apply (reachable_step (Reveal 0 4) firstClick); [|vm_compute; reflexivity].
    apply (reachable_step (Reveal 0 0) easyGame); [|vm_compute; reflexivity].
    apply reachable_start.
  - reflexivity.
  - vm_compute. reflexivity.
  - reflexivity.
  - reflexivity.
  - vm_compute. reflexivity.
Defined.



(** C6, as it is stated, fails on [flaggedMineLost]: the mine on (0,6) was
    flagged before the click on the mine (0,3), and [revealAllMines] has
    revealed it with its flag on. *)
Lemma flagged_mine_revealed_on_loss :
  reachable flaggedMineLost ∧
  getCell (grid flaggedMineLost) 0 6 = Some (mkCell true true true 0) ∧
  ¬ neverRevealedAndFlagged flaggedMineLost.
Proof.
  split_and!; [apply flaggedMineLost_reachable|reflexivity|].
  intros Hclaim. apply (Hclaim 0 6 (mkCell true true true 0)); [reflexivity|done].
Qed.

Lemma revealed_and_flagged_only_lost_mines_witness :
  isMine (mkCell true true true 0) = true ∧
  face flaggedMineLost = FaceLose ∧ gameOver flaggedMineLost = true.
Proof.
  apply (revealed_and_flagged_only_lost_mines flaggedMineLost 0 6).
  - apply (reachable_step (Reveal 0 3)
             (default easyGame (play [Reveal 0 0; Flag 0 6] easyGame)));
      [|vm_compute; reflexivity].
    apply (reachable_step (Flag 0 6) firstClick); [|vm_compute; reflexivity].
    apply (reachable_step (Reveal 0 0) easyGame); [|vm_compute; reflexivity].
    apply reachable_start.
  - reflexivity.
  - reflexivity.
  - reflexivity.
Defined.

Lemma revealCell_total_witness :
  ∃ s', (∀ depth, (cellCount blockedCorner ≤ depth)%nat →
                  revealCell depth 0 1 blockedCorner = Some s') ∧
        revealedCount s' - revealedCount blockedCorner =
          countCells isRevealed s' - countCells isRevealed blockedCorner ∧
        0 ≤ revealedCount s' - revealedCount blockedCorner
          ≤ Z.of_nat (cellCount blockedCorner).
Proof.
  apply (revealCell_total blockedCorner 0 1).
  split; [reflexivity|repeat constructor].
Defined.

Lemma useHint_selects_safe_hidden_cell_witness :
  (∃ x, getCell (grid firstClick) 0 5 = Some x ∧
        isMine x = false ∧ isRevealed x = false ∧ isFlagged x = false) ∧
  0 < hints firstClick ∧ gameStarted firstClick = true ∧ gameOver firstClick = false ∧
  grid hintGiven = grid firstClick ∧ hints hintGiven = hints firstClick - 1.
Proof.
  apply (useHint_selects_safe_hidden_cell firstClick hintGiven 0 5).
  vm_compute. reflexivity.
Defined.

Lemma revealedCount_counts_safe_cells_witness :
  revealedCount flaggedMineLost = countCells isSafeRevealed flaggedMineLost ∧
  (face flaggedMineLost ≠ FaceLose →
   ∀ r c x, getCell (grid flaggedMineLost) r c = Some x → isRevealed x = true →
            isMine x = false).
Proof.
  apply (revealedCount_counts_safe_cells flaggedMineLost).
  apply (reachable_step (Reveal 0 3)
           (default easyGame (play [Reveal 0 0; Flag 0 6] easyGame)));
    [|vm_compute; reflexivity].
  apply (reachable_step (Flag 0 6) firstClick); [|vm_compute; reflexivity].
  apply (reachable_step (Reveal 0 0) easyGame); [|vm_compute; reflexivity].
  apply reachable_start.
Defined.


(** * Further properties *)

(** ** What the handlers leave as it is *)

Lemma turnStep_refl b x : turnStep b x x.
Proof. done. Qed.

Lemma turnStep_trans b b' x y z :
  (b = true → b' = true) → turnStep b x y → turnStep b' y z → turnStep b x z.
Proof.
  intros Hb (Hf & Hr & Hm) (Hf' & Hr' & Hm'). split_and!.
  - congruence.
  - auto.
  - intros Hst. destruct (Hm Hst), (Hm' (Hb Hst)). split; congruence.
Qed.

Global Instance turns_reflexive : Reflexive turns.
Proof.
  intros s. split; try done.
  intros r c. destruct (getCell (grid s) r c); constructor. apply turnStep_refl.
Qed.

Global Instance turns_transitive : Transitive turns.
Proof.
  intros s t u [] []. split; try congruence; [auto|].
  intros r c. specialize (turns_cells0 r c). specialize (turns_cells1 r c).
  destruct turns_cells0 as [x y Hxy|]; inv turns_cells1; constructor.
  by eapply turnStep_trans.
Qed.

(** Fields that [turns] does not look at may change. *)
Lemma turns_ext s t t' :
  turns s t →
  grid t' = grid t → rows t' = rows t → cols t' = cols t →
  mineCount t' = mineCount t → flagCount t' = flagCount t → hints t' = hints t →
  timer t' = timer t → isTimeAttack t' = isTimeAttack t →
  timeAttackLimit t' = timeAttackLimit t →
  (gameStarted t = true → gameStarted t' = true) →
  turns s t'.
Proof.
  intros [] Hg ?????????. split; try congruence; [auto|]. by rewrite Hg.
Qed.

Lemma regrid_turns step s s' :
  regrid step s s' →
  (∀ r c x y, step r c x y → turnStep (gameStarted s) x y) →
  turns s s'.
Proof.
  intros Hre Hstep. pose proof (regrid_frame _ _ _ Hre) as Hframe.
  split; try (by rewrite Hframe).
  intros r c. destruct (regrid_cells _ _ _ Hre r c); constructor. by eapply Hstep.
Qed.

Lemma floods_turns s s' : floods s s' → turns s s'.
Proof.
  intros Hfl. pose proof (floods_frame _ _ Hfl) as Hframe.
  split; try (by rewrite Hframe).
  intros r c. destruct (floods_cells _ _ Hfl r c) as [x y Hxy|]; constructor.
  apply cellStep_fields in Hxy as (? & ? & ? & ? & _). done.
Qed.

Lemma turns_getCell s t r c x :
  turns s t → getCell (grid s) r c = Some x →
  ∃ y, getCell (grid t) r c = Some y ∧ turnStep (gameStarted s) x y.
Proof.
  intros Ht Hx. pose proof (turns_cells _ _ Ht r c) as H. rewrite Hx in H. inv H. eauto.
Qed.

Lemma turns_getCell_inv s t r c y :
  turns s t → getCell (grid t) r c = Some y →
  ∃ x, getCell (grid s) r c = Some x ∧ turnStep (gameStarted s) x y.
Proof.
  intros Ht Hy. pose proof (turns_cells _ _ Ht r c) as H. rewrite Hy in H. inv H. eauto.
Qed.

Lemma turns_countCells P s s' :
  turns s s' → (∀ x y, turnStep (gameStarted s) x y → P y = P x) →
  countCells P s' = countCells P s.
Proof.
  intros Ht HP. symmetry.
  apply countCells_ext; [apply Ht..|]. intros r c _. unfold cellIs. simpl.
  destruct (turns_cells _ _ Ht r c) as [x y Hxy|]; [|done]. symmetry. by apply HP.
Qed.

Lemma endGame_turns won t s' : endGame won t = Some s' → turns t s'.
Proof.
  unfold endGame. destruct won.
  - intros [= <-]. by eapply turns_ext.
  - intros Hre%revealAllMines_spec.
    transitivity (set_face FaceLose (stopTimer (set_gameOver true t))).
    + by eapply turns_ext.
    + eapply regrid_turns; [done|].
      intros r c x y [->|[_ ->]]; done.
Qed.

Lemma placeMines_turns r c s t :
  wfGame s → gameStarted s = false → placeMines r c s = Some t → turns s t.
Proof.
  intros Hwf Hst Hplace.
  destruct (placeMines_spec _ _ _ _ Hwf Hplace) as (u & Hre & Hre' & _).
  transitivity u.
  - eapply regrid_turns; [done|]. rewrite Hst.
    intros r' c' x y (? & ? & _)%mineStep_fields. split_and!; [done|congruence|done].
  - eapply regrid_turns; [done|].
    rewrite (regrid_frame _ _ _ Hre). simpl. rewrite Hst.
    intros r' c' x y (? & ? & ?)%numberStep_fields. split_and!; [done|congruence|done].
Qed.

Lemma revealMine_turns r c s x :
  getCell (grid s) r c = Some x → turns s (revealMine r c s).
Proof.
  intros Hx. unfold revealMine.
  eapply (regrid_turns (λ _ _ x y, x = y ∨ y = withRevealed true x)).
  - apply regrid_updCell with (x := x); [by left|done|by right].
  - intros r' c' y z [-> | ->]; done.
Qed.

Lemma handleReveal_turns r c s s' :
  wfGame s → handleReveal r c s = Some s' → turns s s'.
Proof.
  intros Hwf. unfold handleReveal.
  destruct (gameOver s); [by intros [= <-]|].
  destruct (getCell (grid s) r c) as [x|] eqn:Hx; [|done]. simpl.
  destruct (isFlagged x || isRevealed x); [by intros [= <-]|].
  assert (∀ s1,
    (x1 ← getCell (grid s1) r c;
     if isMine x1 then endGame false (revealMine r c s1)
     else s2 ← revealCell (cellCount s1) r c s1;
          if checkWin s2 then endGame true s2 else Some s2) = Some s' →
    turns s1 s') as Hgoes.
  { intros s1. destruct (getCell (grid s1) r c) as [x1|] eqn:Hx1; [|done]. simpl.
    destruct (isMine x1).
    - intros Hend. apply (endGame_turns false) in Hend.
      etrans; [|exact Hend]. by eapply revealMine_turns.
    - destruct (revealCell (cellCount s1) r c s1) as [s2|] eqn:Hrun; [|done]. simpl.
      apply revealCell_floods, floods_turns in Hrun.
      destruct (checkWin s2); [|by intros [= <-]].
      intros Hend. apply (endGame_turns true) in Hend. by etrans. }
  destruct (gameStarted s) eqn:Hst; simpl.
  - apply Hgoes.
  - destruct (placeMines r c s) as [t|] eqn:Hplace; [|done]. simpl.
    intros Hrest. apply (Hgoes (set_gameStarted true (startTimer t))) in Hrest.
    etrans; [|exact Hrest].
    eapply turns_ext; [by eapply placeMines_turns|done..].
Qed.

Lemma handleChord_turns r c s s' :
  Inv s → handleChord r c s = Some s' → turns s s'.
Proof.
  intros HI. unfold handleChord.
  destruct (getCell (grid s) r c) as [x|]; [|done]. simpl.
  destruct (negb (isRevealed x) || (neighborMines x =? 0)); [by intros [= <-]|].
  destruct (forEach _ (getNeighbors s r c) 0) as [n|]; [|done]. simpl.
  destruct (n =? neighborMines x); [|by intros [= <-]].
  intros Hrun.
  assert (Inv s' ∧ turns s s') as [_ ?]; [|done].
  eapply (forEach_invariant (λ t, Inv t ∧ turns s t)); [done| |exact Hrun].
  intros [nr nc] t t' _ [HIt Ht].
  destruct (getCell (grid t) nr nc) as [y|]; [|done]. simpl.
  destruct (negb (isFlagged y) && negb (isRevealed y)); [|by intros [= <-]].
  intros Hrev. split; [by eapply handleReveal_Inv|].
  etrans; [exact Ht|]. eapply handleReveal_turns; [apply HIt|done].
Qed.

Lemma tick_turns s s' :
  tick s = Some s' →
  turns (set_timer (if isTimeAttack s then timer s - 1 else timer s + 1) s) s'.
Proof.
  unfold tick. destruct (isTimeAttack s).
  - destruct (timer _ <=? 0); [apply (endGame_turns false)|by intros [= <-]].
  - by intros [= <-].
Qed.

Lemma useHint_frame s s' p :
  useHint s = Some (s', p) →
  s' = set_hints (hints s') (set_entropy (entropy s') s) ∧
  (hints s' = hints s ∨ (0 < hints s ∧ hints s' = hints s - 1)).
Proof.
  unfold useHint.
  destruct (hints s <=? 0) eqn:Hh; simpl.
  { intros [= <- _]. split; [by destruct s|by left]. }
  destruct (gameOver s || negb (gameStarted s)).
  { intros [= <- _]. split; [by destruct s|by left]. }
  destruct (forCells _ _ _ _) as [safeCells|]; [|done]. simpl.
  destruct (0 <? _); [|intros [= <- _]; split; [by destruct s|by left]].
  destruct (entropy s) as [|x rnd]; [done|].
  destruct (safeCells !! _); [|done]. simpl. intros [= <- _].
  split; [done|]. right. simpl. apply Z.leb_gt in Hh. done.
Qed.

(** A flag changes the flag of one cell and counts it. *)
Lemma handleFlag_spec r c s s' :
  handleFlag r c s = Some s' →
  s' = s ∨
  ∃ x, gameOver s = false ∧ getCell (grid s) r c = Some x ∧ isRevealed x = false ∧
       s' = set_flagCount (flagCount s + (if isFlagged x then -1 else 1))
              (set_grid (updCell (withFlagged (negb (isFlagged x))) r c (grid s)) s).
Proof.
  unfold handleFlag. destruct (gameOver s) eqn:Hgo; [intros [= <-]; by left|].
  destruct (getCell (grid s) r c) as [x|] eqn:Hx; [|done]. simpl.
  destruct (isRevealed x) eqn:Hr; [intros [= <-]; by left|].
  intros [= <-]. right. exists x. split_and!; [done..|].
  destruct (isFlagged x); done.
Qed.

(** ** The counters *)

Lemma turns_counts_flags u t :
  flagCount u = countCells isFlagged u → turns u t →
  flagCount t = countCells isFlagged t.
Proof.
  intros Hfc Ht. rewrite (turns_flagCount _ _ Ht), Hfc. symmetry.
  apply turns_countCells; [done|]. by intros x y [? _].
Qed.

Lemma perform_flagCount a s s' :
  Inv s → flagCount s = countCells isFlagged s → perform a s = Some s' →
  flagCount s' = countCells isFlagged s'.
Proof.
  intros HI Hfc. pose proof (inv_wf _ HI) as Hwf.
  destruct a as [ta cfg|n|r c|r c|r c| | |]; simpl.
  - intros [= <-]. symmetry. apply countCells_none.
    intros r c x ->%createGrid_getCell. done.
  - intros [= <-]. done.
  - intros Hrun. apply (turns_counts_flags s); [done|]. by eapply handleReveal_turns.
  - intros [->|(x & Hgo & Hx & Hr & ->)]%handleFlag_spec; [done|].
    pose proof (countCells_updCell isFlagged (withFlagged (negb (isFlagged x)))
                  r c s x Hwf Hx) as Hcnt.
    unfold countCells in *. simpl in *. rewrite Hcnt, <- Hfc.
    destruct (isFlagged x); simpl; lia.
  - destruct (gameOver s); [by intros [= <-]|].
    intros Hrun. apply (turns_counts_flags s); [done|]. by eapply handleChord_turns.
  - destruct (useHint s) as [[t p]|] eqn:Hhint; [|done]. simpl. intros [= <-].
    apply useHint_frame in Hhint as [-> _]. done.
  - destruct (timerInterval s); [|by intros [= <-]].
    intros Hrun%tick_turns. by eapply turns_counts_flags; [|exact Hrun].
  - intros [= <-]. done.
Qed.

(** X1: [flagCount] is the number of flagged cells. *)
Theorem flagCount_counts_flags (s : Game) :
  reachable s → flagCount s = countCells isFlagged s.
Proof.
  induction 1 as [ta cfg s0|a s s' Hs IH Hstep].
  - symmetry. apply countCells_none. intros r c x ->%createGrid_getCell. done.
  - eapply perform_flagCount; [by apply reachable_Inv|done..].
Qed.

Lemma perform_hints a s s' :
  Inv s → perform a s = Some s' →
  hints s' = 3 ∨ hints s' = hints s ∨ (0 < hints s ∧ hints s' = hints s - 1).
Proof.
  intros HI. destruct a as [ta cfg|n|r c|r c|r c| | |]; simpl.
  - intros [= <-]. by left.
  - intros [= <-]. right. by left.
  - intros Hrun%handleReveal_turns; [|apply HI]. right. left. apply Hrun.
  - intros [->|(x & _ & _ & _ & ->)]%handleFlag_spec; right; by left.
  - destruct (gameOver s); [intros [= <-]; right; by left|].
    intros Hrun%handleChord_turns; [|done]. right. left. apply Hrun.
  - destruct (useHint s) as [[t p]|] eqn:Hhint; [|done]. simpl. intros [= <-].
    apply useHint_frame in Hhint as [_ Hh]. by right.
  - destruct (timerInterval s); [|intros [= <-]; right; by left].
    intros Hrun%tick_turns. right. left. apply (turns_hints _ _ Hrun).
  - intros [= <-]. right. by left.
Qed.

(** X15: a game has three hints, and no more are taken than there are. *)
Theorem hints_between_0_and_3 (s : Game) : reachable s → 0 ≤ hints s ≤ 3.
Proof.
  induction 1 as [ta cfg s0|a s s' Hs IH Hstep]; [done|].
  apply reachable_Inv in Hs.
  destruct (perform_hints _ _ _ Hs Hstep) as [->|[->|[? ->]]]; lia.
Qed.

Lemma perform_clock a s s' :
  Inv s → (isTimeAttack s = false → 0 ≤ timer s) → perform a s = Some s' →
  isTimeAttack s' = false → 0 ≤ timer s'.
Proof.
  intros HI Hclock.
  assert (∀ u t, isTimeAttack u = isTimeAttack s → timer s ≤ timer u → turns u t →
                 isTimeAttack t = false → 0 ≤ timer t) as Hturn.
  { intros u t Hmode Hle Ht. rewrite (turns_isTimeAttack _ _ Ht), (turns_timer _ _ Ht).
    rewrite Hmode. intros ?%Hclock. lia. }
  destruct a as [ta cfg|n|r c|r c|r c| | |]; simpl.
  - intros [= <-]. simpl. by intros ->.
  - intros [= <-]. done.
  - intros Hrun%handleReveal_turns; [|apply HI]. by apply (Hturn s).
  - intros [->|(x & _ & _ & _ & ->)]%handleFlag_spec; done.
  - destruct (gameOver s); [by intros [= <-]|].
    intros Hrun%handleChord_turns; [|done]. by apply (Hturn s).
  - destruct (useHint s) as [[t p]|] eqn:Hhint; [|done]. simpl. intros [= <-].
    apply useHint_frame in Hhint as [-> _]. done.
  - destruct (timerInterval s); [|by intros [= <-]].
    intros Hrun%tick_turns Hmode.
    rewrite (turns_isTimeAttack _ _ Hrun) in Hmode. simpl in Hmode.
    rewrite (turns_timer _ _ Hrun). simpl. rewrite Hmode. apply Hclock in Hmode. lia.
  - intros [= <-]. done.
Qed.

(** X16: the clock is installed only between the first click and the end of
    the game, and in the classic mode it never shows a negative time. *)
Theorem clock_runs_during_play (s : Game) :
  reachable s →
  (timerInterval s = true → gameStarted s = true ∧ gameOver s = false) ∧
  (isTimeAttack s = false → 0 ≤ timer s).
Proof.
  intros Hs. split; [apply inv_timer; by apply reachable_Inv|].
  induction Hs as [ta cfg s0|a s s' Hs IH Hstep].
  - simpl. by intros ->.
  - eapply perform_clock; [by apply reachable_Inv|done..].
Qed.

(** ** A finished game *)


(** ** The board between the first click and the next game *)

Lemma turns_board u t :
  gameStarted u = true → turns u t →
  rows t = rows u ∧ cols t = cols u ∧ mineCount t = mineCount u ∧
  gameStarted t = true ∧
  ∀ r c x, getCell (grid u) r c = Some x →
    ∃ y, getCell (grid t) r c = Some y ∧ isMine y = isMine x ∧
         neighborMines y = neighborMines x ∧
         (isRevealed x = true → isRevealed y = true).
Proof.
  intros Hst Ht. split_and!; [apply Ht..|by apply Ht|].
  intros r c x Hx. destruct (turns_getCell _ _ _ _ _ Ht Hx) as (y & Hy & _ & Hr & Hm).
  destruct (Hm Hst). by exists y.
Qed.

(** X4: from the first click to the next game the mines, the numbers and the
    size of the board stay as they are, and no revealed cell is hidden
    again. *)
Theorem board_fixed_after_first_click (s : Game) (a : Action) (s' : Game) :
  reachable s → gameStarted s = true → startsGame a = false →
  perform a s = Some s' →
  rows s' = rows s ∧ cols s' = cols s ∧ mineCount s' = mineCount s ∧
  gameStarted s' = true ∧
  ∀ r c x, getCell (grid s) r c = Some x →
    ∃ y, getCell (grid s') r c = Some y ∧ isMine y = isMine x ∧
         neighborMines y = neighborMines x ∧
         (isRevealed x = true → isRevealed y = true).
Proof.
  intros HI%reachable_Inv Hst Ha.
  assert (rows s = rows s ∧ cols s = cols s ∧ mineCount s = mineCount s ∧
          gameStarted s = true ∧
          ∀ r c x, getCell (grid s) r c = Some x →
            ∃ y, getCell (grid s) r c = Some y ∧ isMine y = isMine x ∧
                 neighborMines y = neighborMines x ∧
                 (isRevealed x = true → isRevealed y = true)) as Hsame.
  { split_and!; [done..|]. intros r c x Hx. by exists x. }
  destruct a as [ta cfg|n|r c|r c|r c| | |]; simpl; [done|..].
  - intros [= <-]. exact Hsame.
  - intros Hrun%handleReveal_turns; [|apply HI]. by apply turns_board.
  - intros [->|(x & _ & Hx & _ & ->)]%handleFlag_spec; [exact Hsame|].
    split_and!; [done..|]. intros r' c' y Hy. simpl.
    destruct (getCell_nonneg _ _ _ _ Hx).
    rewrite getCell_updCell by done. case_decide as Heq.
    + destruct Heq as [-> ->]. rewrite Hx. simpl. eexists. split; [done|].
      assert (y = x) as -> by congruence. done.
    + by exists y.
  - destruct (gameOver s); [intros [= <-]; exact Hsame|].
    intros Hrun%handleChord_turns; [|done]. by apply turns_board.
  - destruct (useHint s) as [[t p]|] eqn:Hhint; [|done]. simpl. intros [= <-].
    apply useHint_frame in Hhint as [-> _]. exact Hsame.
  - destruct (timerInterval s); [|intros [= <-]; exact Hsame].
    intros Hrun%tick_turns. by apply turns_board in Hrun.
  - intros [= <-]. exact Hsame.
Qed.

(** ** A lost game *)

Global Instance uncover_reflexive : Reflexive (regrid uncoverStep).
Proof. intros s. apply regrid_refl, uncoverStep_refl. Qed.

Global Instance uncover_transitive : Transitive (regrid uncoverStep).
Proof. intros s t u. apply regrid_trans, uncoverStep_trans. Qed.

Lemma revealAllMines_shown s s' :
  wfGame s → revealAllMines s = Some s' → minesShown s'.
Proof.
  intros Hwf Hrun r c x' Hx' Hm.
  pose proof (revealAllMines_spec _ _ Hrun) as Hre.
  destruct (regrid_getCell_inv _ _ _ _ _ _ Hre Hx') as (x & Hx & _).
  assert ((r, c) ∈ allCoords (rows s) (cols s)) as Hin.
  { apply elem_of_allCoords, inBounds_spec, getCell_wf; [done|by eexists]. }
  unfold revealAllMines in Hrun. rewrite forCells_allCoords in Hrun.
  assert (∀ (b : Z * Z) t t', b ∈ allCoords (rows s) (cols s) →
            match getCell (grid t) b.1 b.2 with
            | Some x =>
                if isMine x
                then Some (set_grid (updCell (withRevealed true) b.1 b.2 (grid t)) t)
                else Some t
            | None => None
            end = Some t' → regrid uncoverStep t t') as Hbodies.
  { intros [r' c'] t t' _. simpl.
    destruct (getCell (grid t) r' c') as [y|] eqn:Hy; [|done].
    destruct (isMine y) eqn:Hmine; intros [= <-]; [|reflexivity].
    apply regrid_updCell with (x := y); [apply uncoverStep_refl|done|by right]. }
  destruct (forEach_turn (regrid uncoverStep) _ _ _ _ (r, c) Hbodies Hrun Hin)
    as (t & t' & Hst & Hbody & Hts').
  simpl in Hbody.
  destruct (getCell (grid t) r c) as [y|] eqn:Hy; [|done].
  destruct (regrid_getCell_inv _ _ _ _ _ _ Hts' Hx') as (y' & Hy' & Hstep).
  apply uncoverStep_fields in Hstep as (Hmy & _ & _ & _).
  assert (isRevealed y' = true) as Hry.
  { destruct (isMine y) eqn:Hmine; simplify_eq.
    - simpl in Hy'. rewrite (getCell_updCell_eq _ _ _ _ _ Hy) in Hy'. by simplify_eq.
    - congruence. }
  destruct (regrid_getCell _ _ _ _ _ _ Hts' Hy') as (z & Hz & [->|[_ ->]]);
    by simplify_eq.
Qed.

Lemma endGame_false_shown t s' :
  wfGame t → endGame false t = Some s' → face s' = FaceLose ∧ minesShown s'.
Proof.
  intros Hwf Hend. split.
  - apply endGame_false_frame in Hend. by rewrite (regrid_frame _ _ _ Hend).
  - by eapply revealAllMines_shown; [|exact Hend].
Qed.

Lemma handleReveal_shown r c s s' :
  Inv s → (face s = FaceLose → minesShown s) → handleReveal r c s = Some s' →
  face s' = FaceLose → minesShown s'.
Proof.
  intros HI Hshown Hrun.
  destruct (gameOver s) eqn:Hgo.
  { unfold handleReveal in Hrun. rewrite Hgo in Hrun. by simplify_eq. }
  destruct (getCell (grid s) r c) as [x|] eqn:Hx.
  2:{ unfold handleReveal in Hrun. rewrite Hgo, Hx in Hrun. done. }
  destruct (isFlagged x || isRevealed x) eqn:Hskip.
  { rewrite (handleReveal_skip r c s x) in Hrun; [by simplify_eq|done|].
    rewrite Hgo. done. }
  apply orb_false_iff in Hskip as [Hfx Hrx].
  destruct (handleReveal_effective _ _ _ _ _ HI Hgo Hx Hfx Hrx Hrun)
    as (s1 & x1 & HI1 & _ & Hgo1 & _ & _ & _ & _ & Hx1 & _ & _ & Hcase).
  destruct Hcase as [[_ Hend]|(_ & s2 & Hflood & ->)].
  - intros _. eapply endGame_false_shown; [|exact Hend].
    apply (wfGame_set_grid_updCell (withRevealed true) r c s1), HI1.
  - apply revealCell_floods, floods_frame in Hflood.
    assert (face s2 = FaceNew) as Hface
      by (rewrite Hflood; simpl; by apply (inv_new _ HI1)).
    destruct (checkWin s2); [done|congruence].
Qed.

Lemma perform_shown a s s' :
  Inv s → (face s = FaceLose → minesShown s) → perform a s = Some s' →
  face s' = FaceLose → minesShown s'.
Proof.
  intros HI Hshown. destruct a as [ta cfg|n|r c|r c|r c| | |]; simpl.
  - by intros [= <-].
  - by intros [= <-].
  - by apply handleReveal_shown.
  - intros [->|(x & Hgo & _ & _ & ->)]%handleFlag_spec; [done|]. simpl.
    apply (inv_new _ HI) in Hgo. congruence.
  - destruct (gameOver s); [by intros [= <-]|]. unfold handleChord.
    destruct (getCell (grid s) r c) as [x|]; [|done]. simpl.
    destruct (negb (isRevealed x) || (neighborMines x =? 0)); [by intros [= <-]|].
    destruct (forEach _ (getNeighbors s r c) 0) as [n|]; [|done]. simpl.
    destruct (n =? neighborMines x); [|by intros [= <-]].
    intros Hrun.
    assert (Inv s' ∧ (face s' = FaceLose → minesShown s')) as [_ ?]; [|done].
    eapply (forEach_invariant (λ t, Inv t ∧ (face t = FaceLose → minesShown t)));
      [done| |exact Hrun].
    intros [nr nc] t t' _ [HIt Ht].
    destruct (getCell (grid t) nr nc) as [y|]; [|done]. simpl.
    destruct (negb (isFlagged y) && negb (isRevealed y)); [|by intros [= <-]].
    intros Hrev. split; [by eapply handleReveal_Inv|by eapply handleReveal_shown].
  - destruct (useHint s) as [[t p]|] eqn:Hhint; [|done]. simpl. intros [= <-].
    apply useHint_frame in Hhint as [-> _]. done.
  - destruct (timerInterval s) eqn:Hon; [|by intros [= <-]].
    destruct (inv_timer _ HI Hon) as [_ Hgo]. apply (inv_new _ HI) in Hgo.
    unfold tick. destruct (isTimeAttack s).
    + destruct (timer _ <=? 0).
      * intros Hend _. eapply endGame_false_shown; [|exact Hend]. apply HI.
      * intros [= <-]. simpl. congruence.
    + intros [= <-]. simpl. congruence.
  - by intros [= <-].
Qed.

(** X5: on a lost board every mine is revealed. *)
Theorem lost_game_shows_every_mine (s : Game) (r c : Z) (x : Cell) :
  reachable s → face s = FaceLose →
  getCell (grid s) r c = Some x → isMine x = true → isRevealed x = true.
Proof.
  intros Hs Hlose. revert r c x. change (minesShown s). revert Hlose.
  induction Hs as [ta cfg s0|a s s' Hs IH Hstep]; [done|].
  eapply perform_shown; [by apply reachable_Inv|done..].
Qed.

(** ** A won game *)

(** X6: on a won board the revealed cells are the cells without a mine, and
    none of them carries a flag. *)
Theorem won_game_shows_every_safe_cell (s : Game) (r c : Z) (x : Cell) :
  reachable s → face s = FaceWin →
  getCell (grid s) r c = Some x →
  isRevealed x = negb (isMine x) ∧ (isRevealed x = true → isFlagged x = false).
Proof.
  intros HI%reachable_Inv Hwin Hx.
  destruct (inv_face _ HI Hwin) as [Hgo _].
  assert (gameStarted s = true) as Hst.
  { destruct (gameStarted s) eqn:Hst; [done|].
    destruct (inv_fresh _ HI Hst). congruence. }
  assert (face s ≠ FaceLose) as Hnl by congruence.
  split.
  - destruct (isMine x) eqn:Hm; simpl.
    + destruct (isRevealed x) eqn:Hr; [|done].
      destruct (inv_live _ HI Hnl _ _ _ Hx Hr). congruence.
    + by eapply won_all_revealed.
  - intros Hr. by destruct (inv_live _ HI Hnl _ _ _ Hx Hr).
Qed.

(** ** Hints *)

(** The scan of [useHint] collects the cells it may choose, row by row. *)
Lemma useHint_scan s :
  wfGame s →
  forCells (rows s) (cols s)
    (λ r c acc,
       x ← getCell (grid s) r c;
       Some (if negb (isMine x) && negb (isRevealed x) && negb (isFlagged x)
             then acc ++ [(r, c)] else acc)) [] =
  Some (filter (λ p, cellIs isHintable (grid s) p) (allCoords (rows s) (cols s))).
Proof.
  intros Hwf. rewrite forCells_allCoords.
  assert (∀ (l : list (Z * Z)) acc,
    (∀ p, p ∈ l → is_Some (getCell (grid s) p.1 p.2)) →
    forEach (λ (p : Z * Z) acc,
               x ← getCell (grid s) p.1 p.2;
               Some (if negb (isMine x) && negb (isRevealed x) && negb (isFlagged x)
                     then acc ++ [(p.1, p.2)] else acc)) l acc =
    Some (acc ++ filter (λ p, cellIs isHintable (grid s) p) l)) as Hgen.
  { induction l as [|[r c] l IH]; intros acc Hin; simpl.
    - by rewrite app_nil_r.
    - destruct (Hin (r, c)) as [x Hx]; [by left|]. simpl in Hx.
      rewrite Hx. simpl. rewrite IH by (intros; apply Hin; by right).
      assert (cellIs isHintable (grid s) (r, c) =
              negb (isMine x) && negb (isRevealed x) && negb (isFlagged x)) as Hc
        by (unfold cellIs; simpl; by rewrite Hx).
      rewrite filter_cons, Hc.
      destruct (negb (isMine x) && negb (isRevealed x) && negb (isFlagged x)).
      + rewrite decide_True by done. by rewrite <- app_assoc.
      + rewrite decide_False by (by intros []). done. }
  apply (Hgen _ []). intros [r c] Hin. apply getCell_wf; [done|].
  by apply inBounds_spec, elem_of_allCoords.
Qed.

Lemma elem_of_hintable s r c :
  wfGame s →
  (r, c) ∈ filter (λ p, cellIs isHintable (grid s) p) (allCoords (rows s) (cols s)) ↔
  ∃ x, getCell (grid s) r c = Some x ∧
       isMine x = false ∧ isRevealed x = false ∧ isFlagged x = false.
Proof.
  intros Hwf. rewrite list_elem_of_filter. unfold cellIs, isHintable. simpl. split.
  - intros [Hp _]. destruct (getCell (grid s) r c) as [x|]; [|done].
    exists x. destruct (isMine x), (isRevealed x), (isFlagged x); done.
  - intros (x & Hx & Hm & Hr & Hf). rewrite Hx, Hm, Hr, Hf. split; [done|].
    apply elem_of_allCoords, inBounds_spec, getCell_wf; [done|by eexists].
Qed.

(** What [useHint] does when it gets to choose. *)
Lemma useHint_unfold s :
  wfGame s → 0 < hints s → gameStarted s = true → gameOver s = false →
  useHint s =
  let safeCells :=
    filter (λ p, cellIs isHintable (grid s) p) (allCoords (rows s) (cols s)) in
  match safeCells, entropy s with
  | [], _ => Some (s, None)
  | _ :: _, x :: rnd =>
      p ← safeCells !! Z.to_nat (randomBelow x (Z.of_nat (length safeCells)));
      Some (set_hints (hints s - 1) (set_entropy rnd s), Some p)
  | _ :: _, [] => None
  end.
Proof.
  intros Hwf Hh Hst Hgo. unfold useHint.
  rewrite (proj2 (Z.leb_gt _ _) Hh), Hgo, Hst. simpl.
  rewrite (useHint_scan s Hwf). simpl.
  destruct (filter _ _) as [|p l]; done.
Qed.

Lemma randomBelow_lt x n : 0 < n → 0 ≤ randomBelow x n < n.
Proof.
  intros Hn. unfold randomBelow. rewrite (proj2 (Z.ltb_lt _ _) Hn).
  apply Z.mod_pos_bound. done.
Qed.

(** X13: a hint is given whenever a cell can be chosen and a draw is left,
    and where none can be chosen nothing changes, the count of hints
    included. *)
Theorem useHint_gives_a_hint_when_it_can (s : Game) :
  reachable s → 0 < hints s → gameStarted s = true → gameOver s = false →
  ((∀ r c x, getCell (grid s) r c = Some x →
             isMine x = false → isRevealed x = false → isFlagged x = true) →
   useHint s = Some (s, None)) ∧
  (∀ r c x n rnd, getCell (grid s) r c = Some x →
     isMine x = false → isRevealed x = false → isFlagged x = false →
     entropy s = n :: rnd →
     ∃ p, useHint s =
          Some (set_hints (hints s - 1) (set_entropy rnd s), Some p)).
Proof.
  intros HI%reachable_Inv Hh Hst Hgo. pose proof (inv_wf _ HI) as Hwf.
  rewrite (useHint_unfold s Hwf Hh Hst Hgo). simpl.
  destruct (filter _ _) as [|p l] eqn:Hcells.
  - split; [done|]. intros r c x n rnd Hx Hm Hr Hf _.
    assert ((r, c) ∈ filter (λ p, cellIs isHintable (grid s) p)
                       (allCoords (rows s) (cols s))) as Hin
      by (apply elem_of_hintable; [done|by exists x]).
    rewrite Hcells in Hin. by inv Hin.
  - split.
    + intros Hnone. destruct p as [r c].
      assert ((r, c) ∈ filter (λ p, cellIs isHintable (grid s) p)
                         (allCoords (rows s) (cols s))) as Hin
        by (rewrite Hcells; by left).
      apply elem_of_hintable in Hin as (x & Hx & Hm & Hr & Hf); [|done].
      rewrite (Hnone _ _ _ Hx Hm Hr) in Hf. done.
    + intros _ _ _ n rnd _ _ _ _ ->.
      destruct (lookup_lt_is_Some_2 (p :: l)
                  (Z.to_nat (randomBelow n (Z.of_nat (length (p :: l))))))
        as [q Hq].
      { pose proof (randomBelow_lt n (Z.of_nat (length (p :: l)))) as Hlt.
        simpl in *. lia. }
      exists q. rewrite Hq. done.
Qed.



(** ** A running game *)

Lemma perform_nonempty a s s' :
  Inv s → (gameStarted s = true → 0 < rows s ∧ 0 < cols s) →
  perform a s = Some s' → gameStarted s' = true → 0 < rows s' ∧ 0 < cols s'.
Proof.
  intros HI Hne. pose proof (inv_wf _ HI) as Hwf.
  assert (∀ r c, is_Some (getCell (grid s) r c) → 0 < rows s ∧ 0 < cols s) as Hcell.
  { intros r c Hin. apply (getCell_wf s r c Hwf), inBounds_spec in Hin. lia. }
  destruct a as [ta cfg|n|r c|r c|r c| | |]; simpl.
  - by intros [= <-].
  - by intros [= <-].
  - intros Hrun _. pose proof (handleReveal_turns _ _ _ _ Hwf Hrun) as Ht.
    rewrite (turns_rows _ _ Ht), (turns_cols _ _ Ht).
    unfold handleReveal in Hrun. destruct (gameOver s) eqn:Hgo.
    + apply Hne. destruct (gameStarted s) eqn:Hst; [done|].
      destruct (inv_fresh _ HI Hst). congruence.
    + destruct (getCell (grid s) r c) eqn:Hx; [|done]. by eapply Hcell.
  - intros [->|(x & _ & _ & _ & ->)]%handleFlag_spec; done.
  - destruct (gameOver s); [by intros [= <-]|].
    intros Hrun _. pose proof (handleChord_turns _ _ _ _ HI Hrun) as Ht.
    rewrite (turns_rows _ _ Ht), (turns_cols _ _ Ht).
    unfold handleChord in Hrun.
    destruct (getCell (grid s) r c) eqn:Hx; [|done]. by eapply Hcell.
  - destruct (useHint s) as [[t p]|] eqn:Hhint; [|done]. simpl. intros [= <-].
    apply useHint_frame in Hhint as [-> _]. done.
  - destruct (timerInterval s) eqn:Hon; [|by intros [= <-]].
    intros Hrun%tick_turns _.
    rewrite (turns_rows _ _ Hrun), (turns_cols _ _ Hrun). simpl.
    apply Hne. by apply (inv_timer _ HI).
  - by intros [= <-].
Qed.

Lemma started_nonempty s : reachable s → gameStarted s = true → 0 < rows s ∧ 0 < cols s.
Proof.
  induction 1 as [ta cfg s0|a s s' Hs IH Hstep]; [done|].
  eapply perform_nonempty; [by apply reachable_Inv|done..].
Qed.

(** X7: while a game with [mineCount] at least 0 is running, a cell without
    a mine is still hidden. *)
Theorem running_game_has_a_hidden_safe_cell (s : Game) :
  reachable s → gameStarted s = true → gameOver s = false → 0 ≤ mineCount s →
  ∃ r c x, getCell (grid s) r c = Some x ∧ isMine x = false ∧ isRevealed x = false.
Proof.
  intros Hs Hst Hgo Hmc. destruct (started_nonempty s Hs Hst) as [Hrows Hcols].
  apply reachable_Inv in Hs as HI. pose proof (inv_wf _ HI) as Hwf.
  destruct (filter (λ p, cellIs (λ x, negb (isMine x) && negb (isRevealed x)) (grid s) p)
              (allCoords (rows s) (cols s))) as [|[r c] l] eqn:Hhidden.
  - exfalso. apply (inv_nowin _ HI Hst Hgo).
    destruct (inv_mines _ HI Hst) as [Hmines _].
    pose proof (countCells_all s Hwf) as Htotal.
    rewrite (countCells_split (λ _, true) isMine) in Htotal.
    change (countCells (λ x, true && isMine x) s) with (countCells isMine s) in Htotal.
    change (countCells (λ x, true && negb (isMine x)) s)
      with (countCells (λ x, negb (isMine x)) s) in Htotal.
    rewrite (countCells_split (λ x, negb (isMine x)) isRevealed) in Htotal.
    assert (countCells (λ x, negb (isMine x) && isRevealed x) s =
            countCells isSafeRevealed s) as Hsame.
    { apply countCells_ext; [done..|]. intros r' c' _. unfold cellIs, isSafeRevealed.
      destruct (getCell (grid s) (r', c').1 (r', c').2); [apply andb_comm|done]. }
    assert (countCells (λ x, negb (isMine x) && negb (isRevealed x)) s = 0) as Hnone.
    { unfold countCells. by rewrite Hhidden. }
    rewrite (inv_count _ HI). unfold cellCount in Htotal. lia.
  - assert ((r, c) ∈ filter
              (λ p, cellIs (λ x, negb (isMine x) && negb (isRevealed x)) (grid s) p)
              (allCoords (rows s) (cols s))) as Hin by (rewrite Hhidden; by left).
    apply list_elem_of_filter in Hin as [Hp _]. unfold cellIs in Hp. simpl in Hp.
    destruct (getCell (grid s) r c) as [x|] eqn:Hx; [|done].
    exists r, c, x. destruct (isMine x), (isRevealed x); done.
Qed.

(** ** The handlers return *)

Lemma revealed_started s r c x :
  Inv s → getCell (grid s) r c = Some x → isRevealed x = true → gameStarted s = true.
Proof.
  intros HI Hx Hr. destruct (gameStarted s) eqn:Hst; [done|].
  destruct (inv_fresh _ HI Hst) as (_ & _ & Hcells).
  destruct (Hcells _ _ _ Hx). congruence.
Qed.


(** ** The first click *)

Lemma handleReveal_first r c s x :
  gameOver s = false → gameStarted s = false →
  getCell (grid s) r c = Some x → isFlagged x = false → isRevealed x = false →
  handleReveal r c s =
  t ← placeMines r c s;
  x1 ← getCell (grid t) r c;
  if isMine x1
  then endGame false (revealMine r c (set_gameStarted true (startTimer t)))
  else s2 ← revealCell (cellCount t) r c (set_gameStarted true (startTimer t));
       if checkWin s2 then endGame true s2 else Some s2.
Proof.
  intros Hgo Hst Hx Hf Hr. unfold handleReveal. rewrite Hgo, Hx. simpl.
  rewrite Hf, Hr, Hst. simpl. destruct (placeMines r c s); done.
Qed.

Lemma countAround_none P s r c :
  (∀ q, adjacent (r, c) q → cellIs P (grid s) q = false) → countAround P s r c = 0.
Proof.
  intros Hnone. unfold countAround.
  destruct (filter _ _) as [|q l] eqn:Hf; [done|].
  assert (q ∈ filter (λ q, chebyshev (r, c) q = 1 ∧ cellIs P (grid s) q)
                (allCoords (rows s) (cols s))) as Hin by (rewrite Hf; by left).
  apply list_elem_of_filter in Hin as [[Hd Hp] _].
  rewrite Hnone in Hp; [done|]. by apply adjacent_chebyshev.
Qed.

(** After [placeMines] on a fresh board no cell at the first click or next
    to it has a mine, and none is revealed. *)
Lemma placeMines_zone r c s t :
  Inv s → gameStarted s = false → placeMines r c s = Some t →
  ∀ q z, chebyshev (r, c) q ≤ 1 → getCell (grid t) q.1 q.2 = Some z →
         isMine z = false ∧ isRevealed z = false.
Proof.
  intros HI Hst Hplace [r' c'] z Hd Hz. simpl in Hz.
  destruct (inv_fresh _ HI Hst) as (_ & _ & Hfresh).
  destruct (placeMines_spec _ _ _ _ (inv_wf _ HI) Hplace) as (u & Hre & Hre' & _).
  destruct (regrid_getCell_inv _ _ _ _ _ _ Hre' Hz)
    as (z1 & Hz1 & (Hm1 & Hr1 & _)%numberStep_fields).
  destruct (regrid_getCell_inv _ _ _ _ _ _ Hre Hz1)
    as (z0 & Hz0 & (Hr0 & _ & Hm0)%mineStep_fields).
  destruct (Hfresh _ _ _ Hz0) as [Hmz0 Hrz0]. split; [|congruence].
  rewrite Hm1. destruct (isMine z1) eqn:Hmz1; [|done].
  destruct (Hm0 eq_refl) as [?|Hfar]; [congruence|]. destruct Hfar.
  unfold nearFirstClick. unfold chebyshev in Hd. simpl in Hd. lia.
Qed.

(** X9: the first click never loses: the clicked cell gets the number 0, no
    cell at or next to it has a mine, and all of them that are not flagged
    are revealed. *)
Theorem first_click_is_safe (s : Game) (r c : Z) (x : Cell) (s' : Game) :
  reachable s → gameStarted s = false →
  getCell (grid s) r c = Some x → isFlagged x = false →
  handleReveal r c s = Some s' →
  face s' ≠ FaceLose ∧ gameStarted s' = true ∧
  (∃ y, getCell (grid s') r c = Some y ∧ neighborMines y = 0) ∧
  ∀ q y, chebyshev (r, c) q ≤ 1 → getCell (grid s') q.1 q.2 = Some y →
         isMine y = false ∧ (isFlagged y = false → isRevealed y = true).
Proof.
  intros HI%reachable_Inv Hst Hx Hfx Hrun. pose proof (inv_wf _ HI) as Hwf.
  destruct (inv_fresh _ HI Hst) as (Hgo & _ & Hfresh).
  destruct (Hfresh _ _ _ Hx) as [Hmx Hrx].
  rewrite (handleReveal_first r c s x Hgo Hst Hx Hfx Hrx) in Hrun.
  destruct (placeMines r c s) as [t|] eqn:Hplace; [|done]. simpl in Hrun.
  destruct (placeMines_Inv _ _ _ _ _ HI Hst Hx Hplace)
    as (HI1 & y & Hy & Hmy & Hry & Hfy).
  pose proof (placeMines_zone _ _ _ _ HI Hst Hplace) as Hzone.
  rewrite Hy in Hrun. simpl in Hrun. rewrite Hmy in Hrun.
  set (s1 := set_gameStarted true (startTimer t)) in *.
  destruct (revealCell (cellCount t) r c s1) as [s2|] eqn:Hflood; [|done].
  simpl in Hrun.
  pose proof (inv_wf _ HI1) as Hwf1.
  pose proof (revealCell_floods _ _ _ _ _ Hflood) as Hfl.
  pose proof (floods_frame _ _ Hfl) as Hframe.
  assert (neighborMines y = 0) as Hzero.
  { destruct (inv_mines _ HI1 eq_refl) as [_ Hnum].
    rewrite (Hnum r c y Hy Hmy). apply countAround_none.
    intros q Hadj%adjacent_chebyshev. unfold cellIs.
    destruct (getCell (grid s1) q.1 q.2) as [z|] eqn:Hz; [|done].
    apply (Hzone q z); [lia|done]. }
  assert (openAt s1 (r, c)) as Hopen.
  { unfold openAt, cellIs, isOpen. simpl. rewrite Hy, Hry, Hfy, Hfx. done. }
  assert (face s2 = FaceNew) as Hnew.
  { rewrite Hframe. simpl. apply (inv_new _ HI1).
    destruct (placeMines_spec _ _ _ _ Hwf Hplace) as (u & Hre & Hre' & _).
    simpl. rewrite (regrid_frame _ _ _ Hre'), (regrid_frame _ _ _ Hre). done. }
  assert (face s' ≠ FaceLose ∧ gameStarted s' = gameStarted s2 ∧ grid s' = grid s2)
    as (Hface & Hst' & Hgrid).
  { destruct (checkWin s2); simplify_eq/=; [done|]. split; [congruence|done]. }
  split_and!.
  - done.
  - rewrite Hst', Hframe. done.
  - destruct (floods_getCell _ _ _ _ _ Hfl Hy) as (y' & Hy' & Hstep).
    exists y'. rewrite Hgrid. split; [done|].
    apply cellStep_fields in Hstep as (_ & _ & -> & _). done.
  - intros [r' c'] z' Hd Hz'. rewrite Hgrid in Hz'. simpl in Hz'.
    destruct (floods_getCell_inv _ _ _ _ _ Hfl Hz') as (z & Hz & Hstep).
    destruct (Hzone (r', c') z Hd Hz) as [Hmz Hrz].
    apply cellStep_fields in Hstep as (Hm' & Hf' & _ & _ & _).
    split; [congruence|]. intros Hfz. rewrite Hf' in Hfz.
    assert (openAt s1 (r', c')) as Hopen'.
    { unfold openAt, cellIs, isOpen. simpl. change (grid t) with (grid s1).
      rewrite Hz, Hrz, Hfz. done. }
    assert (floodReach s1 (r, c) (r', c')) as Hreach.
    { destruct (decide (chebyshev (r, c) (r', c') = 1)) as [Hone|Hne].
      - apply floodReach_step with (q := (r', c')); [done| |by apply adjacent_chebyshev|
          by apply floodReach_here].
        unfold zeroAt, cellIs. simpl. rewrite Hy. by apply Z.eqb_eq.
      - assert (r' = r ∧ c' = c) as [-> ->]
          by (unfold chebyshev in *; simpl in *; lia).
        by apply floodReach_here. }
    pose proof (revealCell_complete _ _ _ _ _ Hwf1 Hflood _ Hreach) as Hrev.
    unfold revealedAt, cellIs in Hrev. simpl in Hrev. by rewrite Hz' in Hrev.
Qed.

(** ** Flags *)

Lemma updCell_updCell f g r c (gr : Grid) :
  updCell f r c (updCell g r c gr) = updCell (f ∘ g) r c gr.
Proof.
  unfold updCell. rewrite list_alter_alter_eq.
  apply list_alter_ext; [|done]. intros line _. apply list_alter_alter_eq.
Qed.

Lemma updCell_same f r c (gr : Grid) x :
  getCell gr r c = Some x → f x = x → updCell f r c gr = gr.
Proof.
  intros Hx Hfx. destruct (getCell_nonneg _ _ _ _ Hx) as [Hr Hc].
  rewrite getCell_lookup in Hx by done. unfold updCell.
  destruct (gr !! Z.to_nat r) as [line|] eqn:Hline; [|done]. simpl in Hx.
  transitivity (alter id (Z.to_nat r) gr); [|by apply list_alter_id].
  apply list_alter_ext; [|done]. intros line' Hline'. simplify_eq.
  transitivity (alter id (Z.to_nat c) line); [|by apply list_alter_id].
  apply list_alter_ext; [|done]. intros y Hy. by simplify_eq.
Qed.

(** X2: a second flag on the same cell takes the first one back: the grid
    and [flagCount] are as before. *)
Theorem handleFlag_twice (s : Game) (r c : Z) (s1 : Game) :
  handleFlag r c s = Some s1 → handleFlag r c s1 = Some s.
Proof.
  intros Hrun.
  destruct (handleFlag_spec _ _ _ _ Hrun) as [->|(x & Hgo & Hx & Hr & ->)]; [done|].
  unfold handleFlag. simpl. rewrite Hgo.
  rewrite (getCell_updCell_eq _ _ _ _ _ Hx). simpl. rewrite Hr. f_equal.
  rewrite updCell_updCell.
  rewrite (updCell_same _ r c (grid s) x Hx) by (destruct x as [? ? []]; done).
  destruct s, (isFlagged x); unfold set_flagCount, set_grid; simpl; f_equal; lia.
Qed.

(** ** Neighbours *)

Lemma getNeighbors_filter s row col :
  getNeighbors s row col =
  filter (λ q, inBounds s q.1 q.2)
    ((λ d : Z * Z, (row + d.1, col + d.2)) <$> offsets).
Proof.
  unfold getNeighbors. induction offsets as [|[dr dc] l IH]; [done|].
  rewrite bind_cons, fmap_cons, filter_cons, IH. simpl.
  destruct (inBounds s (row + dr) (col + dc)).
  - by rewrite decide_True.
  - by rewrite decide_False by (by intros []).
Qed.

(** X12: [getNeighbors] lists each cell of the grid at distance 1 once, and
    no other; they are 8 at most. *)
Theorem getNeighbors_spec (s : Game) (row col : Z) :
  NoDup (getNeighbors s row col) ∧
  (length (getNeighbors s row col) ≤ 8)%nat ∧
  ∀ q, q ∈ getNeighbors s row col ↔
       chebyshev (row, col) q = 1 ∧ 0 ≤ q.1 < rows s ∧ 0 ≤ q.2 < cols s.
Proof.
  split_and!.
  - rewrite getNeighbors_filter. apply NoDup_filter, NoDup_fmap_2_strong.
    + intros [a b] [a' b'] _ _ [= ? ?]. f_equal; lia.
    + apply NoDup_offsets.
  - rewrite getNeighbors_filter. etrans; [apply length_filter|].
    by rewrite length_fmap.
  - intros q. rewrite elem_of_getNeighbors, adjacent_chebyshev, inBounds_spec. done.
Qed.

(** ** Room for the mines *)






(** ** Entries of the high-score lists *)

Lemma insertByTime_Permutation e l : insertByTime e l ≡ₚ e :: l.
Proof.
  induction l as [|x l IH]; [done|]. simpl.
  destruct (time e <=? time x); [done|]. rewrite IH. apply Permutation_swap.
Qed.

Lemma sortByTime_Permutation l : sortByTime l ≡ₚ l.
Proof.
  induction l as [|x l IH]; [done|]. simpl.
  by rewrite insertByTime_Permutation, IH.
Qed.

(** X18: [addScore] stores entries that were in the list or are the new one,
    each as often as it was there, and drops none while the list has fewer
    than 10. *)
Theorem addScore_keeps_entries
    (stored : option (gmap string (gmap string (list Entry))))
    (mode difficulty : string) (e : Entry) :
  scoresOf (addScore mode difficulty e stored) mode difficulty ⊆+
    scoresOf stored mode difficulty ++ [e] ∧
  ((length (scoresOf stored mode difficulty) < 10)%nat →
   scoresOf (addScore mode difficulty e stored) mode difficulty ≡ₚ
     scoresOf stored mode difficulty ++ [e]).
Proof.
  rewrite scoresOf_addScore, decide_True by done. split.
  - etrans; [apply submseteq_take|]. by rewrite sortByTime_Permutation.
  - intros Hlen. rewrite take_ge; [apply sortByTime_Permutation|].
    rewrite sortByTime_Permutation, length_app. simpl. lia.
Qed.

(** Where the new entry goes in a list that is sorted by time: behind the
    entries whose time is at most its own. *)
Lemma sortByTime_snoc_sorted l e :
  StronglySorted Z.le (time <$> l) →
  l = filter (λ a, time a ≤ time e) l ++ filter (λ a, time e < time a) l ∧
  sortByTime (l ++ [e]) =
    filter (λ a, time a ≤ time e) l ++ e :: filter (λ a, time e < time a) l.
Proof.
  unfold sortByTime. rewrite foldr_app. simpl.
  induction l as [|a l IH]; [done|]. rewrite fmap_cons. intros Hs.
  apply StronglySorted_inv in Hs as [Hs Hall].
  destruct (IH Hs) as [Hsplit Hsort]. simpl foldr. rewrite Hsort.
  rewrite !filter_cons.
  assert (∀ b, b ∈ l → time a ≤ time b) as Hle.
  { intros b Hb. rewrite Forall_forall in Hall. apply Hall.
    by apply list_elem_of_fmap_2. }
  destruct (decide (time a ≤ time e)) as [Hae|Hae].
  - rewrite decide_False by lia. split; [simpl; by f_equal|].
    destruct (filter (λ a, time a ≤ time e) l) as [|b l1] eqn:Hl1; simpl.
    + by rewrite (proj2 (Z.leb_le _ _) Hae).
    + assert (b ∈ l) as Hb.
      { assert (b ∈ filter (λ a, time a ≤ time e) l) as Hin by (rewrite Hl1; by left).
        by apply list_elem_of_filter in Hin as [_ ?]. }
      by rewrite (proj2 (Z.leb_le _ _) (Hle b Hb)).
  - rewrite decide_True by lia.
    assert (filter (λ a, time a ≤ time e) l = []) as Hnil.
    { destruct (filter (λ a, time a ≤ time e) l) as [|b l1] eqn:Hl1; [done|].
      assert (b ∈ filter (λ a, time a ≤ time e) l) as Hin by (rewrite Hl1; by left).
      apply list_elem_of_filter in Hin as [? Hb]. specialize (Hle b Hb). lia. }
    rewrite Hnil in *. simpl in *. rewrite <- Hsplit. split; [done|].
    rewrite (proj2 (Z.leb_gt _ _)) by lia. f_equal.
    destruct l as [|b l']; [done|]. simpl.
    by rewrite (proj2 (Z.leb_le _ _) (Hle b ltac:(by left))).
Qed.

Lemma sorted_last_max (ts : list Z) z :
  StronglySorted Z.le (ts ++ [z]) → ∀ t, t ∈ ts → t ≤ z.
Proof.
  induction ts as [|t' ts IH]; intros Hs t Hin; [by inv Hin|].
  simpl in Hs. apply StronglySorted_inv in Hs as [Hs Hall].
  apply elem_of_cons in Hin as [->|Hin]; [|by apply IH].
  rewrite Forall_forall in Hall. apply Hall, elem_of_app. right. by left.
Qed.

Lemma filter_all {A} (P : A → Prop) `{!∀ x, Decision (P x)} (l : list A) :
  (∀ a, a ∈ l → P a) → filter P l = l.
Proof.
  induction l as [|a l IH]; intros Hall; [done|].
  rewrite filter_cons, decide_True by (apply Hall; by left).
  f_equal. apply IH. intros b Hb. apply Hall. by right.
Qed.

(** X19: on a list that is sorted and has at most 10 entries, [isHighScore]
    returns, and says whether [addScore] would keep the entry: the entry
    goes behind the entries whose time is at most its own, and it is among
    the first 10 exactly when [isHighScore] is true. *)
Theorem isHighScore_agrees_with_addScore
    (stored : option (gmap string (gmap string (list Entry))))
    (mode difficulty : string) (e : Entry) :
  StronglySorted Z.le (time <$> scoresOf stored mode difficulty) →
  (length (scoresOf stored mode difficulty) ≤ 10)%nat →
  ∃ b l1 l2,
    isHighScore stored mode difficulty (time e) = Some b ∧
    scoresOf stored mode difficulty = l1 ++ l2 ∧
    (∀ a, a ∈ l1 → time a ≤ time e) ∧ (∀ a, a ∈ l2 → time e < time a) ∧
    scoresOf (addScore mode difficulty e stored) mode difficulty =
      take 10 (l1 ++ e :: l2) ∧
    (b = true ↔ (length l1 < 10)%nat).
Proof.
  intros Hs Hlen. rewrite scoresOf_addScore, decide_True by done.
  unfold isHighScore. set (l := scoresOf stored mode difficulty) in *.
  destruct (sortByTime_snoc_sorted l e Hs) as [Hsplit Hsort]. rewrite Hsort.
  set (l1 := filter (λ a, time a ≤ time e) l) in *.
  set (l2 := filter (λ a, time e < time a) l) in *.
  assert (∀ a, a ∈ l1 → time a ≤ time e) as H1
    by (by intros a [? _]%list_elem_of_filter).
  assert (∀ a, a ∈ l2 → time e < time a) as H2
    by (by intros a [? _]%list_elem_of_filter).
  assert (length l = (length l1 + length l2)%nat) as Hlens
    by (by rewrite Hsplit at 1; rewrite length_app).
  destruct (length l <? 10)%nat eqn:Hshort.
  - exists true, l1, l2. split_and!; try done.
    apply Nat.ltb_lt in Hshort. split; [lia|done].
  - apply Nat.ltb_ge in Hshort.
    destruct (last l) as [z|] eqn:Hlast.
    2:{ apply last_None in Hlast. rewrite Hlast in Hshort. simpl in Hshort. lia. }
    simpl. exists (time e <? time z), l1, l2. split_and!; try done.
    apply last_Some in Hlast as [l' Hl'].
    destruct (time e <? time z) eqn:Hlt.
    + apply Z.ltb_lt in Hlt.
      assert (z ∈ l2) as Hz.
      { apply list_elem_of_filter. split; [done|]. rewrite Hl'.
        apply elem_of_app. right. by left. }
      assert (0 < length l2)%nat by (destruct l2; [by inv Hz|simpl; lia]).
      split; [lia|done].
    + apply Z.ltb_ge in Hlt.
      assert (l1 = l) as Heq.
      { apply filter_all. intros a Ha. rewrite Hl' in Ha, Hs.
        rewrite fmap_app in Hs. simpl in Hs.
        apply elem_of_app in Ha as [Ha|Ha%list_elem_of_singleton]; [|subst; lia].
        pose proof (sorted_last_max _ _ Hs (time a) (list_elem_of_fmap_2 time _ _ Ha)).
        lia. }
      rewrite Heq. split; [done|lia].
Qed.

(** ** The further properties on the easy board *)

Lemma hintGiven_reachable : reachable hintGiven.
Proof.
  apply (reachable_step Hint firstClick); [apply firstClick_reachable|].
  vm_compute. reflexivity.
Qed.

Lemma wonGame_reachable : reachable wonGame.
Proof.
  apply (reachable_step (Reveal 8 8) almostWon); [apply almostWon_reachable|].
  vm_compute. reflexivity.
Qed.

Lemma flagCount_counts_flags_witness :
  flagCount wrongFlag = countCells isFlagged wrongFlag.
Proof. apply flagCount_counts_flags, wrongFlag_reachable. Defined.

Lemma hints_between_0_and_3_witness : 0 ≤ hints hintGiven ≤ 3.
Proof. apply hints_between_0_and_3, hintGiven_reachable. Defined.

Lemma clock_runs_during_play_witness :
  (timerInterval firstClick = true →
   gameStarted firstClick = true ∧ gameOver firstClick = false) ∧
  (isTimeAttack firstClick = false → 0 ≤ timer firstClick).
Proof. apply clock_runs_during_play, firstClick_reachable. Defined.


Lemma board_fixed_after_first_click_witness :
  rows wrongFlag = rows firstClick ∧ cols wrongFlag = cols firstClick ∧
  mineCount wrongFlag = mineCount firstClick ∧ gameStarted wrongFlag = true ∧
  ∀ r c x, getCell (grid firstClick) r c = Some x →
    ∃ y, getCell (grid wrongFlag) r c = Some y ∧ isMine y = isMine x ∧
         neighborMines y = neighborMines x ∧
         (isRevealed x = true → isRevealed y = true).
Proof.
  apply (board_fixed_after_first_click firstClick (Flag 0 4));
    [apply firstClick_reachable|reflexivity|reflexivity|vm_compute; reflexivity].
Defined.

Lemma lost_game_shows_every_mine_witness :
  face flaggedMineLost = FaceLose ∧
  getCell (grid flaggedMineLost) 8 0 = Some (mkCell true true false 0) ∧
  isRevealed (mkCell true true false 0) = true.
Proof.
  split_and!; [reflexivity|reflexivity|].
  apply (lost_game_shows_every_mine flaggedMineLost 8 0);
    [apply flaggedMineLost_reachable|reflexivity|reflexivity|reflexivity].
Defined.

Lemma won_game_shows_every_safe_cell_witness :
  getCell (grid wonGame) 8 8 = Some (mkCell false true false 1) ∧
  isRevealed (mkCell false true false 1) = negb (isMine (mkCell false true false 1)) ∧
  (isRevealed (mkCell false true false 1) = true →
   isFlagged (mkCell false true false 1) = false).
Proof.
  split; [reflexivity|].
  apply (won_game_shows_every_safe_cell wonGame 8 8);
    [apply wonGame_reachable|reflexivity|reflexivity].
Defined.

Lemma useHint_gives_a_hint_when_it_can_witness :
  ((∀ r c x, getCell (grid firstClick) r c = Some x →
             isMine x = false → isRevealed x = false → isFlagged x = true) →
   useHint firstClick = Some (firstClick, None)) ∧
  (∀ r c x n rnd, getCell (grid firstClick) r c = Some x →
     isMine x = false → isRevealed x = false → isFlagged x = false →
     entropy firstClick = n :: rnd →
     ∃ p, useHint firstClick =
          Some (set_hints (hints firstClick - 1) (set_entropy rnd firstClick), Some p)).
Proof.
  apply useHint_gives_a_hint_when_it_can;
    [apply firstClick_reachable|reflexivity|reflexivity|reflexivity].
Defined.


Lemma running_game_has_a_hidden_safe_cell_witness :
  ∃ r c x, getCell (grid firstClick) r c = Some x ∧
           isMine x = false ∧ isRevealed x = false.
Proof.
  apply running_game_has_a_hidden_safe_cell;
    [apply firstClick_reachable|reflexivity|reflexivity|vm_compute; discriminate].
Defined.


Lemma first_click_is_safe_witness :
  handleReveal 0 0 easyGame = Some firstClick ∧
  face firstClick ≠ FaceLose ∧ gameStarted firstClick = true ∧
  (∃ y, getCell (grid firstClick) 0 0 = Some y ∧ neighborMines y = 0) ∧
  ∀ q y, chebyshev (0, 0) q ≤ 1 → getCell (grid firstClick) q.1 q.2 = Some y →
         isMine y = false ∧ (isFlagged y = false → isRevealed y = true).
Proof.
  split; [vm_compute; reflexivity|].
  apply (first_click_is_safe easyGame 0 0 newCell);
    [apply easyGame_reachable|reflexivity|reflexivity|reflexivity|
     vm_compute; reflexivity].
Defined.

Lemma handleFlag_twice_witness :
  handleFlag 0 4 firstClick = Some wrongFlag ∧
  handleFlag 0 4 wrongFlag = Some firstClick.
Proof.
  split; [vm_compute; reflexivity|].
  apply handleFlag_twice. vm_compute. reflexivity.
Defined.


Lemma isHighScore_agrees_with_addScore_witness :
  ∃ b l1 l2,
    isHighScore (Some tenStored) "classic" "easy" (time tieEntry) = Some b ∧
    scoresOf (Some tenStored) "classic" "easy" = l1 ++ l2 ∧
    (∀ a, a ∈ l1 → time a ≤ time tieEntry) ∧
    (∀ a, a ∈ l2 → time tieEntry < time a) ∧
    scoresOf (addScore "classic" "easy" tieEntry (Some tenStored)) "classic" "easy" =
      take 10 (l1 ++ tieEntry :: l2) ∧
    (b = true ↔ (length l1 < 10)%nat).
Proof.
  apply isHighScore_agrees_with_addScore.
  - assert (time <$> scoresOf (Some tenStored) "classic" "easy" =
            sortZ [1; 2; 3; 4; 5; 6; 7; 8; 9; 10]) as -> by (vm_compute; reflexivity).
    apply sortZ_sorted.
  - vm_compute. lia.
Defined.

(** ** The page follows the game *)

Lemma getView_viewGrid g r c :
  Dom.getView (Dom.viewGrid g) r c = Dom.cellView <$> getCell g r c.
Proof.
  unfold Dom.getView, getCell, Dom.viewGrid.
  destruct ((0 <=? r) && (0 <=? c)); [|done].
  rewrite list_lookup_fmap. destruct (g !! Z.to_nat r) as [line|]; [|done]. simpl.
  by rewrite list_lookup_fmap.
Qed.

Lemma fmap_alter_at {A B} (f : A → B) (g : A → A) (h : B → B) (l : list A) i :
  (∀ x, l !! i = Some x → f (g x) = h (f x)) →
  f <$> alter g i l = alter h i (f <$> l).
Proof.
  revert i. induction l as [|a l IH]; intros [|i] Hx; simpl; [done..| |].
  - f_equal. by apply Hx.
  - f_equal. by apply IH.
Qed.

Lemma viewGrid_updCell f h r c g x :
  getCell g r c = Some x → Dom.cellView (f x) = h (Dom.cellView x) →
  Dom.updView h r c (Dom.viewGrid g) = Dom.viewGrid (updCell f r c g).
Proof.
  intros Hx Hh. destruct (getCell_nonneg _ _ _ _ Hx) as [Hr Hc].
  rewrite getCell_lookup in Hx by done.
  unfold Dom.updView, Dom.viewGrid, updCell. symmetry.
  apply fmap_alter_at. intros line Hline. rewrite Hline in Hx. simpl in Hx.
  apply fmap_alter_at. intros y Hy. by simplify_eq.
Qed.

(** [updateCell] after a change of the cell's data, on a board that showed
    the grid before the change. *)
Lemma updateCell_repaint f r c s p x :
  getCell (grid s) r c = Some x →
  Dom.drawCell (f x) (Dom.cellView x) = Dom.cellView (f x) →
  ∀ s', grid s' = updCell f r c (grid s) →
  Dom.updateCell r c (Dom.set_game s' (Dom.repaint s p)) = Some (Dom.repaint s' p).
Proof.
  intros Hx Hdraw s' Hgrid. unfold Dom.updateCell. simpl.
  rewrite getView_viewGrid, Hx, Hgrid, (getCell_updCell_eq _ _ _ _ _ Hx). simpl.
  unfold Dom.set_board, Dom.repaint. simpl. f_equal. f_equal.
  rewrite Hgrid. by apply (viewGrid_updCell f _ r c (grid s) x).
Qed.

Lemma drawCell_newView y : Dom.drawCell y Dom.newView = Dom.cellView y.
Proof. unfold Dom.drawCell, Dom.cellView. by repeat case_match. Qed.

Lemma cellView_open x : isOpen x = true → Dom.cellView x = Dom.newView.
Proof.
  unfold isOpen, Dom.cellView. destruct (isRevealed x), (isFlagged x); done.
Qed.

Lemma forEach_repaint {A} (bodyD : A → Dom.Page → option Dom.Page)
    (body : A → Game → option Game) (I : Game → Prop) p l :
  (∀ a t, a ∈ l → I t → bodyD a (Dom.repaint t p) = (λ t', Dom.repaint t' p) <$> body a t) →
  (∀ a t t', a ∈ l → I t → body a t = Some t' → I t') →
  ∀ s, I s →
  forEach bodyD l (Dom.repaint s p) = (λ t', Dom.repaint t' p) <$> forEach body l s.
Proof.
  intros Hbody Hinv. induction l as [|a l IH]; intros s Hs; [done|]. simpl.
  rewrite Hbody by (done || by left).
  destruct (body a s) as [t|] eqn:Ht; [|done]. simpl.
  apply IH.
  - intros b u Hb. apply Hbody. by right.
  - intros b u u' Hb. apply Hinv. by right.
  - by eapply Hinv; [left| |].
Qed.

Lemma revealCell_repaint d : ∀ r c s p,
  Dom.revealCell d r c (Dom.repaint s p) =
  (λ s', Dom.repaint s' p) <$> revealCell d r c s.
Proof.
  induction d as [|d IH]; intros r c s p.
  - simpl. destruct (_ || _ || _ || _); [done|].
    destruct (getCell (grid s) r c) as [x|]; [|done].
    destruct (isRevealed x || isFlagged x); done.
  - cbn [Dom.revealCell revealCell]. cbn [Dom.game Dom.repaint].
    destruct (_ || _ || _ || _); [done|].
    destruct (getCell (grid s) r c) as [x|] eqn:Hx; [|done].
    destruct (isRevealed x || isFlagged x) eqn:Hopen; [done|].
    apply orb_false_iff in Hopen as [Hrx Hfx].
    rewrite (updateCell_repaint (withRevealed true) r c s p x Hx); [|..|done].
    2:{ rewrite cellView_open by (unfold isOpen; by rewrite Hrx, Hfx).
        apply drawCell_newView. }
    cbn [mbind option_bind].
    destruct (neighborMines x =? 0); [|done].
    apply (forEach_repaint _ _ (λ _, True)); [|done..].
    intros [dr dc] t _ _. apply IH.
Qed.

Lemma drawCell_mine x :
  isMine x = true →
  Dom.drawCell (withRevealed true x) (Dom.cellView x) =
  Dom.cellView (withRevealed true x).
Proof.
  intros Hm. unfold Dom.drawCell, Dom.cellView. simpl. rewrite Hm.
  by destruct (isFlagged x), (isRevealed x).
Qed.

Lemma drawCell_flag x b :
  isRevealed x = false →
  Dom.drawCell (withFlagged b x) (Dom.cellView x) = Dom.cellView (withFlagged b x).
Proof.
  intros Hr. unfold Dom.drawCell, Dom.cellView. simpl. rewrite Hr.
  by destruct (isFlagged x), b.
Qed.

Lemma revealMine_repaint r c s p x :
  getCell (grid s) r c = Some x → isMine x = true →
  Dom.revealMine r c (Dom.repaint s p) = Some (Dom.repaint (revealMine r c s) p).
Proof.
  intros Hx Hm. unfold Dom.revealMine. cbn [Dom.game Dom.repaint].
  apply (updateCell_repaint (withRevealed true) r c s p x Hx); [|done].
  by apply drawCell_mine.
Qed.

Lemma revealAllMines_repaint s p :
  Dom.revealAllMines (Dom.repaint s p) = (λ s', Dom.repaint s' p) <$> revealAllMines s.
Proof.
  unfold Dom.revealAllMines, revealAllMines. cbn [Dom.game Dom.repaint].
  rewrite !forCells_allCoords.
  apply (forEach_repaint _ _ (λ _, True)); [|done..].
  intros [r c] t _ _. cbn [fst snd Dom.game Dom.repaint].
  destruct (getCell (grid t) r c) as [x|] eqn:Hx; [|done].
  destruct (isMine x) eqn:Hm; [|done]. simpl.
  apply (updateCell_repaint (withRevealed true) r c t p x Hx); [|done].
  by apply drawCell_mine.
Qed.

Lemma endGame_repaint won s p :
  Dom.endGame won (Dom.repaint s p) = (λ s', Dom.repaint s' p) <$> endGame won s.
Proof.
  unfold Dom.endGame, endGame. destruct won; [done|].
  apply (revealAllMines_repaint
           (set_face FaceLose (stopTimer (set_gameOver true s))) p).
Qed.

(** Two grids of the same height whose cells look the same look the
    same. *)
Lemma viewGrid_ext (g g' : Grid) :
  length g' = length g →
  (∀ r c, Dom.cellView <$> getCell g' r c = Dom.cellView <$> getCell g r c) →
  Dom.viewGrid g' = Dom.viewGrid g.
Proof.
  intros Hlen Hcells. unfold Dom.viewGrid. apply list_eq. intros i.
  rewrite !list_lookup_fmap.
  destruct (g !! i) as [line|] eqn:Hline, (g' !! i) as [line'|] eqn:Hline'; simpl.
  - f_equal. apply list_eq. intros j. rewrite !list_lookup_fmap.
    specialize (Hcells (Z.of_nat i) (Z.of_nat j)).
    rewrite !getCell_lookup, !Nat2Z.id, Hline, Hline' in Hcells by lia. done.
  - apply lookup_lt_Some in Hline. apply lookup_ge_None in Hline'. lia.
  - apply lookup_lt_Some in Hline'. apply lookup_ge_None in Hline. lia.
  - done.
Qed.

(** Placing the mines changes nothing that a hidden cell shows. *)
Lemma placeMines_viewGrid r c s t :
  Inv s → gameStarted s = false → placeMines r c s = Some t →
  Dom.viewGrid (grid t) = Dom.viewGrid (grid s).
Proof.
  intros HI Hst Hplace. pose proof (inv_wf _ HI) as Hwf.
  destruct (inv_fresh _ HI Hst) as (_ & _ & Hfresh).
  destruct (placeMines_spec _ _ _ _ Hwf Hplace) as (u & Hre & Hre' & _).
  pose proof (regrid_wf _ _ _ Hre' (regrid_wf _ _ _ Hre Hwf)) as Hwt.
  apply viewGrid_ext.
  - rewrite (proj1 Hwt), (proj1 Hwf), (regrid_rows _ _ _ Hre'), (regrid_rows _ _ _ Hre).
    done.
  - intros r' c'.
    destruct (getCell (grid t) r' c') as [z|] eqn:Hz.
    + destruct (regrid_getCell_inv _ _ _ _ _ _ Hre' Hz)
        as (z1 & Hz1 & (_ & Hr1 & Hf1)%numberStep_fields).
      destruct (regrid_getCell_inv _ _ _ _ _ _ Hre Hz1)
        as (z0 & Hz0 & (Hr0 & Hf0 & _)%mineStep_fields).
      destruct (Hfresh _ _ _ Hz0) as [_ Hrz0]. rewrite Hz0. simpl. f_equal.
      unfold Dom.cellView. rewrite Hf1, Hf0, Hr1, Hr0, Hrz0. done.
    + destruct (getCell (grid s) r' c') as [z0|] eqn:Hz0; [|done].
      destruct (regrid_getCell _ _ _ _ _ _ Hre Hz0) as (z1 & Hz1 & _).
      destruct (regrid_getCell _ _ _ _ _ _ Hre' Hz1) as (z & Hz' & _). congruence.
Qed.

Lemma handleReveal_repaint r c s p :
  Inv s →
  Dom.handleReveal r c (Dom.repaint s p) = (λ s', Dom.repaint s' p) <$> handleReveal r c s.
Proof.
  intros HI. unfold Dom.handleReveal, handleReveal. cbn [Dom.game Dom.repaint].
  destruct (gameOver s); [done|].
  destruct (getCell (grid s) r c) as [x|] eqn:Hx; [|done]. cbn [mbind option_bind].
  destruct (isFlagged x || isRevealed x); [done|].
  assert (∀ s1,
    (x1 ← getCell (grid (Dom.game (Dom.repaint s1 p))) r c;
     if isMine x1
     then p2 ← Dom.revealMine r c (Dom.repaint s1 p); Dom.endGame false p2
     else p2 ← Dom.revealCell (cellCount (Dom.game (Dom.repaint s1 p))) r c
                 (Dom.repaint s1 p);
          if checkWin (Dom.game p2) then Dom.endGame true p2 else Some p2) =
    (λ s', Dom.repaint s' p) <$>
    (x1 ← getCell (grid s1) r c;
     if isMine x1 then endGame false (revealMine r c s1)
     else s2 ← revealCell (cellCount s1) r c s1;
          if checkWin s2 then endGame true s2 else Some s2)) as Hgoes.
  { intros s1. cbn [Dom.game Dom.repaint].
    destruct (getCell (grid s1) r c) as [x1|] eqn:Hx1; [|done]. cbn [mbind option_bind].
    destruct (isMine x1) eqn:Hm1.
    - rewrite (revealMine_repaint r c s1 p x1 Hx1 Hm1). cbn [mbind option_bind].
      apply endGame_repaint.
    - rewrite revealCell_repaint.
      destruct (revealCell (cellCount s1) r c s1) as [s2|]; [|done]. simpl.
      destruct (checkWin s2); [|done]. apply (endGame_repaint true). }
  destruct (gameStarted s) eqn:Hst; cbn [negb].
  - apply Hgoes.
  - destruct (placeMines r c s) as [t|] eqn:Hplace; [|done]. cbn [mbind option_bind].
    assert (Dom.set_game (set_gameStarted true (startTimer t)) (Dom.repaint s p) =
            Dom.repaint (set_gameStarted true (startTimer t)) p) as ->.
    { unfold Dom.set_game, Dom.repaint. simpl.
      by rewrite (placeMines_viewGrid _ _ _ _ HI Hst Hplace). }
    apply Hgoes.
Qed.

Lemma handleChord_repaint r c s p :
  Inv s →
  Dom.handleChord r c (Dom.repaint s p) = (λ s', Dom.repaint s' p) <$> handleChord r c s.
Proof.
  intros HI. unfold Dom.handleChord, handleChord. cbn [Dom.game Dom.repaint].
  destruct (getCell (grid s) r c) as [x|]; [|done]. cbn [mbind option_bind].
  destruct (negb (isRevealed x) || (neighborMines x =? 0)); [done|].
  destruct (forEach _ (getNeighbors s r c) 0) as [n|]; [|done]. cbn [mbind option_bind].
  destruct (n =? neighborMines x); [|done].
  apply (forEach_repaint _ _ Inv); [| |done].
  - intros [nr nc] t _ HIt. cbn [Dom.game Dom.repaint].
    destruct (getCell (grid t) nr nc) as [y|]; [|done]. cbn [mbind option_bind].
    destruct (negb (isFlagged y) && negb (isRevealed y)); [|done].
    by apply handleReveal_repaint.
  - intros [nr nc] t t' _ HIt.
    destruct (getCell (grid t) nr nc) as [y|]; [|done]. cbn [mbind option_bind].
    destruct (negb (isFlagged y) && negb (isRevealed y)); [|by intros [= <-]].
    by apply handleReveal_Inv.
Qed.

(** A page that shows the game [s] still shows it after a step that leaves
    the counters' variables as they are. *)
Lemma repaint_render s s' :
  mineCount s' = mineCount s → flagCount s' = flagCount s →
  timer s' = timer s → hints s' = hints s →
  Dom.repaint s' (Dom.render s) = Dom.render s'.
Proof. intros Hm Hf Ht Hh. unfold Dom.repaint, Dom.render. simpl. by rewrite Hm, Hf, Ht, Hh. Qed.

Lemma turns_render s s' : turns s s' → Dom.repaint s' (Dom.render s) = Dom.render s'.
Proof. intros Ht. apply repaint_render; apply Ht. Qed.

Lemma handleFlag_render r c s :
  Dom.handleFlag r c (Dom.render s) = Dom.render <$> handleFlag r c s.
Proof.
  unfold Dom.handleFlag, handleFlag. cbn [Dom.game Dom.render].
  destruct (gameOver s); [done|].
  destruct (getCell (grid s) r c) as [x|] eqn:Hx; [|done]. cbn [mbind option_bind].
  destruct (isRevealed x) eqn:Hr; [done|].
  change (Dom.render s) with (Dom.repaint s (Dom.render s)).
  rewrite (updateCell_repaint (withFlagged (negb (isFlagged x))) r c s (Dom.render s) x Hx);
    [|by apply drawCell_flag|by destruct (negb (isFlagged x))].
  simpl. by destruct (negb (isFlagged x)).
Qed.

Lemma tick_render s : Dom.tick (Dom.render s) = Dom.render <$> tick s.
Proof.
  unfold Dom.tick, tick. cbn [Dom.game Dom.render].
  destruct (isTimeAttack s); [|done].
  cbn zeta. cbn [Dom.game Dom.set_game].
  destruct (timer (set_timer (timer s - 1) s) <=? 0); [|done].
  change (Dom.set_game (set_timer (timer s - 1) s) (Dom.render s))
    with (Dom.repaint (set_timer (timer s - 1) s) (Dom.render s)).
  rewrite endGame_repaint.
  destruct (endGame false (set_timer (timer s - 1) s)) as [s'|] eqn:Hend; [|done].
  simpl. apply endGame_turns in Hend. f_equal.
  unfold Dom.updateCounters, Dom.render. simpl.
  by rewrite (turns_hints _ _ Hend).
Qed.

Lemma useHint_render s :
  wfGame s →
  Dom.useHint (Dom.render s) = (λ so, (Dom.render so.1, so.2)) <$> useHint s.
Proof.
  intros Hwf. unfold Dom.useHint, useHint. cbn [Dom.game Dom.render].
  destruct (hints s <=? 0) eqn:Hh; [done|]. cbn [orb].
  destruct (gameOver s); cbn [orb]; [done|].
  destruct (gameStarted s); cbn [negb]; [|done].
  rewrite (useHint_scan s Hwf). cbn [mbind option_bind].
  destruct (0 <? _); [|done].
  destruct (entropy s) as [|n rnd]; [done|].
  destruct (filter _ _ !! _) as [[r c]|] eqn:Hq; [|done]. cbn [mbind option_bind].
  apply list_elem_of_lookup_2, elem_of_hintable in Hq as (x & Hx & _); [|done].
  apply Z.leb_gt in Hh.
  destruct (hints (set_hints (hints s - 1) (set_entropy rnd s)) =? 0) eqn:Hzero;
    simpl in *; rewrite getView_viewGrid, Hx; simpl; unfold Dom.render; simpl;
    rewrite Hzero; [done|].
  by rewrite (proj2 (Z.eqb_neq (hints s) 0)) by lia.
Qed.

Lemma viewGrid_createGrid s :
  Dom.viewGrid (grid (createGrid s)) =
  (λ _, (λ _, Dom.newView) <$> seqZ 0 (cols s)) <$> seqZ 0 (rows s).
Proof.
  unfold Dom.viewGrid, createGrid. simpl. rewrite <- list_fmap_compose.
  apply list_fmap_ext. intros i r _. simpl. by rewrite <- list_fmap_compose.
Qed.

Lemma startGame_render ta cfg p :
  Dom.startGame ta cfg p = Dom.render (startGame ta cfg (Dom.game p)).
Proof.
  unfold Dom.startGame, Dom.initGame, startGame, initGame, Dom.render.
  rewrite viewGrid_createGrid. done.
Qed.

Lemma perform_render a s :
  Inv s → Dom.perform a (Dom.render s) = Dom.render <$> perform a s.
Proof.
  intros HI. pose proof (inv_wf _ HI) as Hwf.
  destruct a as [ta cfg|n|r c|r c|r c| | |]; cbn [Dom.perform perform Dom.game Dom.render].
  - by rewrite startGame_render.
  - done.
  - change (Dom.render s) with (Dom.repaint s (Dom.render s)).
    rewrite handleReveal_repaint by done.
    destruct (handleReveal r c s) as [s'|] eqn:Hrun; [|done]. simpl. f_equal.
    by apply turns_render, (handleReveal_turns r c).
  - apply handleFlag_render.
  - destruct (gameOver s); [done|].
    change (Dom.render s) with (Dom.repaint s (Dom.render s)).
    rewrite handleChord_repaint by done.
    destruct (handleChord r c s) as [s'|] eqn:Hrun; [|done]. simpl. f_equal.
    by apply turns_render, (handleChord_turns r c).
  - rewrite useHint_render by done. by destruct (useHint s) as [[??]|].
  - destruct (timerInterval s); [|done]. apply tick_render.
  - done.
Qed.

Lemma reachable_rendered p :
  Dom.reachable p → ∃ s, reachable s ∧ p = Dom.render s.
Proof.
  induction 1 as [ta cfg p0|a p p' _ (s & Hs & ->) Hstep].
  - rewrite startGame_render. eexists. split; [apply reachable_start|done].
  - rewrite perform_render in Hstep by by apply reachable_Inv.
    destruct (perform a s) as [s'|] eqn:Hrun; [|done].
    simpl in Hstep. simplify_eq. exists s'. split; [|done]. by eapply reachable_step.
Qed.

(** X20: the page shows the game: after every handler the board, the
    counters, the count of hints and the hint button are what [render] makes
    of the game's variables, and the game is one that the handlers without
    the page reach. *)
Theorem page_shows_the_game (p : Dom.Page) :
  Dom.reachable p → reachable (Dom.game p) ∧ p = Dom.render (Dom.game p).
Proof.
  induction 1 as [ta cfg p0|a p p' _ [Hs Hp] Hstep].
  - rewrite startGame_render. split; [apply reachable_start|done].
  - rewrite Hp in Hstep. rewrite perform_render in Hstep by by apply reachable_Inv.
    destruct (perform a (Dom.game p)) as [s'|] eqn:Hrun; [|done].
    simpl in Hstep. simplify_eq. split; [|done]. by eapply reachable_step.
Qed.

(** X21: on a reachable page a handler with its writes to the page returns
    where the handler of the game returns, with the game that it returns,
    painted. *)
Theorem page_handlers_follow_the_game (a : Action) (p : Dom.Page) :
  Dom.reachable p →
  Dom.perform a p = Dom.render <$> perform a (Dom.game p).
Proof.
  intros (s & Hs & ->)%reachable_rendered.
  apply perform_render. by apply reachable_Inv.
Qed.

(** ** What the page shows *)

(** X22: what a cell of a reachable page shows: the flag class where the cell
    is flagged, the revealed class where it is revealed and not flagged, the
    mine class only on a mine of a lost game, and as text the number of
    mines around the cell, on the revealed cells without a mine that have
    mines around them and on no other cell. *)
Theorem page_cells_are_right (p : Dom.Page) (r c : Z) (v : Dom.CellView) :
  Dom.reachable p → Dom.getView (Dom.board p) r c = Some v →
  ∃ x, getCell (grid (Dom.game p)) r c = Some x ∧
    Dom.flagged v = isFlagged x ∧
    Dom.revealed v = isRevealed x && negb (isFlagged x) ∧
    (Dom.mine v = true →
     isMine x = true ∧ isRevealed x = true ∧ face (Dom.game p) = FaceLose) ∧
    (∀ n, Dom.textContent v = Some n ↔
          isRevealed x = true ∧ isFlagged x = false ∧ isMine x = false ∧
          0 < n ∧ n = adjacentMines (Dom.game p) r c).
Proof.
  intros (s & Hs & ->)%reachable_rendered. cbn [Dom.game Dom.board Dom.render].
  rewrite getView_viewGrid. apply reachable_Inv in Hs as HI.
  destruct (getCell (grid s) r c) as [x|] eqn:Hx; [|done]. intros [= <-].
  exists x. split; [done|].
  assert (isRevealed x = true → isMine x = false →
          neighborMines x = adjacentMines s r c) as Hnum.
  { intros Hr Hm.
    destruct (inv_mines _ HI (revealed_started s r c x HI Hx Hr)) as [_ Hnum].
    by apply Hnum. }
  assert (isRevealed x = true → isMine x = true → face s = FaceLose) as Hlose.
  { intros Hr Hm. destruct (face s) eqn:Hface; [|  |done].
    - assert (face s ≠ FaceLose) as Hne by congruence.
      destruct (inv_live _ HI Hne _ _ _ Hx Hr). congruence.
    - assert (face s ≠ FaceLose) as Hne by congruence.
      destruct (inv_live _ HI Hne _ _ _ Hx Hr). congruence. }
  unfold Dom.cellView.
  destruct (isFlagged x) eqn:Hf; simpl.
  { split_and!; [done|by rewrite andb_false_r|done|]. intros n. split; [done|].
    by intros (_ & ? & _). }
  destruct (isRevealed x) eqn:Hr; simpl.
  2:{ split_and!; [done..|]. intros n. split; [done|]. by intros (? & _). }
  destruct (isMine x) eqn:Hm; simpl.
  { split_and!; [done|done|auto|]. intros n. split; [done|]. by intros (_ & _ & ? & _). }
  rewrite <- (Hnum eq_refl eq_refl).
  destruct (0 <? neighborMines x) eqn:Hpos; simpl.
  - apply Z.ltb_lt in Hpos. split_and!; [done..|]. intros n. split.
    + intros [= <-]. done.
    + intros (_ & _ & _ & _ & ->). done.
  - apply Z.ltb_ge in Hpos. split_and!; [done..|]. intros n. split; [done|].
    intros (_ & _ & _ & ? & ->). lia.
Qed.

Lemma padStart_three_digits n :
  0 ≤ n ≤ 999 → String.length (padStart 3 "0" (pretty n)) = 3%nat.
Proof.
  intros Hn.
  assert (Forall (λ n : Z, String.length (padStart 3 "0" (pretty n)) = 3%nat)
            (seqZ 0 1000)) as Hall
    by (apply (bool_decide_unpack _); vm_compute; reflexivity).
  rewrite Forall_forall in Hall. apply Hall, elem_of_seqZ. lia.
Qed.

Lemma padStart_minus_digit n :
  -9 ≤ n ≤ -1 → padStart 3 "0" (pretty n) = "0-" +:+ pretty (- n).
Proof.
  intros Hn.
  assert (Forall (λ n : Z, padStart 3 "0" (pretty n) = "0-" +:+ pretty (- n))
            (seqZ (-9) 9)) as Hall
    by (apply (bool_decide_unpack _); vm_compute; reflexivity).
  rewrite Forall_forall in Hall. apply Hall, elem_of_seqZ. lia.
Qed.

(** X23: what the counters of a reachable page show.  The mine counter shows
    [mineCount] less the number of flagged cells, in three digits between 0
    and 999 but as a zero before the sign between -9 and -1; the time
    counter always has three characters; the count of hints is [hints], and
    the hint button is disabled exactly when no hint is left. *)
Theorem page_counters_are_right (p : Dom.Page) :
  Dom.reachable p →
  let remaining := mineCount (Dom.game p) - countCells isFlagged (Dom.game p) in
  Dom.mineCounter p = padStart 3 "0" (pretty remaining) ∧
  (0 ≤ remaining ≤ 999 → String.length (Dom.mineCounter p) = 3%nat) ∧
  (-9 ≤ remaining ≤ -1 → Dom.mineCounter p = "0-" +:+ pretty (- remaining)) ∧
  Dom.timeCounter p = padStart 3 "0" (pretty (Z.min (Z.abs (timer (Dom.game p))) 999)) ∧
  String.length (Dom.timeCounter p) = 3%nat ∧
  Dom.hintCount p = hints (Dom.game p) ∧
  (Dom.hintDisabled p = true ↔ hints (Dom.game p) = 0).
Proof.
  intros (s & Hs & ->)%reachable_rendered. cbn [Dom.game Dom.render].
  assert (flagCount s = countCells isFlagged s) as <-.
  { clear -Hs. induction Hs as [ta cfg s0|a s s' Hs IH Hstep].
    - symmetry. apply countCells_none. intros r c x ->%createGrid_getCell. done.
    - eapply perform_flagCount; [by apply reachable_Inv|done..]. }
  simpl. split_and!; [done| | |done| |done|].
  - apply padStart_three_digits.
  - apply padStart_minus_digit.
  - apply padStart_three_digits. lia.
  - apply Z.eqb_eq.
Qed.

(** ** The page of the easy board *)

Lemma firstClickPage_reachable : Dom.reachable firstClickPage.
Proof.
  apply (Dom.reachable_step (Reveal 0 0) easyPage); [apply Dom.reachable_start|].
  vm_compute. reflexivity.
Qed.

Lemma wrongFlagPage_reachable : Dom.reachable wrongFlagPage.
Proof.
  apply (Dom.reachable_step (Flag 0 4) firstClickPage);
    [apply firstClickPage_reachable|].
  vm_compute. reflexivity.
Qed.

Lemma page_shows_the_game_witness :
  reachable (Dom.game wrongFlagPage) ∧
  wrongFlagPage = Dom.render (Dom.game wrongFlagPage).
Proof. apply page_shows_the_game, wrongFlagPage_reachable. Defined.

Lemma page_handlers_follow_the_game_witness :
  Dom.perform (Flag 0 4) firstClickPage =
  Dom.render <$> perform (Flag 0 4) (Dom.game firstClickPage).
Proof. apply page_handlers_follow_the_game, firstClickPage_reachable. Defined.

Lemma page_cells_are_right_witness :
  ∃ x, getCell (grid (Dom.game firstClickPage)) 1 4 = Some x ∧
    Dom.flagged (Dom.mkCellView false true false (Some 1) (Some 1)) = isFlagged x ∧
    Dom.revealed (Dom.mkCellView false true false (Some 1) (Some 1)) =
      isRevealed x && negb (isFlagged x) ∧
    (Dom.mine (Dom.mkCellView false true false (Some 1) (Some 1)) = true →
     isMine x = true ∧ isRevealed x = true ∧
     face (Dom.game firstClickPage) = FaceLose) ∧
    (∀ n, Dom.textContent (Dom.mkCellView false true false (Some 1) (Some 1)) = Some n ↔
          isRevealed x = true ∧ isFlagged x = false ∧ isMine x = false ∧
          0 < n ∧ n = adjacentMines (Dom.game firstClickPage) 1 4).
Proof.
  apply (page_cells_are_right firstClickPage 1 4);
    [apply firstClickPage_reachable|reflexivity].
Defined.

Lemma page_counters_are_right_witness :
  let remaining :=
    mineCount (Dom.game wrongFlagPage) - countCells isFlagged (Dom.game wrongFlagPage) in
  Dom.mineCounter wrongFlagPage = padStart 3 "0" (pretty remaining) ∧
  (0 ≤ remaining ≤ 999 → String.length (Dom.mineCounter wrongFlagPage) = 3%nat) ∧
  (-9 ≤ remaining ≤ -1 → Dom.mineCounter wrongFlagPage = "0-" +:+ pretty (- remaining)) ∧
  Dom.timeCounter wrongFlagPage =
    padStart 3 "0" (pretty (Z.min (Z.abs (timer (Dom.game wrongFlagPage))) 999)) ∧
  String.length (Dom.timeCounter wrongFlagPage) = 3%nat ∧
  Dom.hintCount wrongFlagPage = hints (Dom.game wrongFlagPage) ∧
  (Dom.hintDisabled wrongFlagPage = true ↔ hints (Dom.game wrongFlagPage) = 0).
Proof. apply page_counters_are_right, wrongFlagPage_reachable. Defined.

(** ** Mouse and touch *)

(** X24: a mouse or touch event changes the game only as one call of
    [handleReveal], [handleFlag] or [handleChord] does, the last only while
    the game is not over; so every event leads from a reachable game to a
    reachable game. *)
Theorem events_act_through_the_handlers (e : Ui.Event) (st st' : Ui.State) :
  Ui.handle e st = Some st' →
  (Ui.game st' = Ui.game st ∨
   ∃ r c, handleReveal r c (Ui.game st) = Some (Ui.game st') ∨
          handleFlag r c (Ui.game st) = Some (Ui.game st') ∨
          (gameOver (Ui.game st) = false ∧
           handleChord r c (Ui.game st) = Some (Ui.game st'))) ∧
  (reachable (Ui.game st) → reachable (Ui.game st')).
Proof.
  intros Hrun.
  assert (Ui.game st' = Ui.game st ∨
          ∃ r c, handleReveal r c (Ui.game st) = Some (Ui.game st') ∨
                 handleFlag r c (Ui.game st) = Some (Ui.game st') ∨
                 (gameOver (Ui.game st) = false ∧
                  handleChord r c (Ui.game st) = Some (Ui.game st'))) as Hcase.
  { destruct e as [r c|r c|id|b r c|b r c|b r c|r c]; simpl in Hrun.
    - unfold Ui.handleTouchStart in Hrun. simplify_eq. by left.
    - unfold Ui.handleTouchEnd in Hrun. destruct (Ui.touchTimer st); [|simplify_eq; by left].
      destruct (handleReveal r c (Ui.game st)) eqn:Hg; simplify_eq/=. right. eauto.
    - unfold Ui.touchTimeout in Hrun.
      destruct (Ui.timeouts st !! id) as [[r c]|]; [|simplify_eq; by left].
      destruct (handleFlag r c (Ui.game st)) eqn:Hg; simplify_eq/=. right. eauto.
    - unfold Ui.handleMouseDown in Hrun.
      destruct (gameOver (Ui.game st)) eqn:Hgo; [simplify_eq; by left|].
      destruct (b =? 3); [|simplify_eq; by left].
      destruct (handleChord r c (Ui.game st)) eqn:Hg; simplify_eq/=. right. eauto 6.
    - unfold Ui.handleMouseUp in Hrun.
      destruct (gameOver (Ui.game st)); [simplify_eq; by left|].
      destruct (Ui.chordingActive st); [simplify_eq; by left|].
      destruct (negb (b =? 0)); [simplify_eq; by left|].
      destruct (handleReveal r c (Ui.game st)) eqn:Hg; simplify_eq/=. right. eauto.
    - unfold Ui.handleAuxClick in Hrun.
      destruct (gameOver (Ui.game st)) eqn:Hgo; [simplify_eq; by left|].
      destruct (b =? 1); [|simplify_eq; by left].
      destruct (handleChord r c (Ui.game st)) eqn:Hg; simplify_eq/=. right. eauto 6.
    - unfold Ui.handleRightClick in Hrun.
      destruct (gameOver (Ui.game st) || Ui.chordingActive st); [simplify_eq; by left|].
      destruct (handleFlag r c (Ui.game st)) eqn:Hg; simplify_eq/=. right. eauto. }
  split; [done|]. intros Hs.
  destruct Hcase as [->|(r & c & [Hg|[Hg|[Hgo Hg]]])]; [done|..].
  - by apply (reachable_step (Reveal r c) (Ui.game st)).
  - by apply (reachable_step (Flag r c) (Ui.game st)).
  - apply (reachable_step (Chord r c) (Ui.game st)); [done|]. simpl. by rewrite Hgo.
Qed.

(** X25: with no touch under way, a touch that ends before its timeout fires
    reveals the cell and takes the timeout back, so that it cannot flag; a
    touch whose timeout fires flags the cell, and its end reveals
    nothing. *)
Theorem touch_reveals_or_flags (st : Ui.State) (row col : Z) :
  Ui.touchTimer st = None → Ui.timeouts st = ∅ →
  let id := S (Ui.lastTimeout st) in
  Ui.run [Ui.TouchStart row col; Ui.TouchEnd row col] st =
    (g ← handleReveal row col (Ui.game st);
     Some (Ui.mkState g (Ui.mouseDownButtons st) (Ui.chordingActive st) None ∅ id)) ∧
  Ui.run [Ui.TouchStart row col; Ui.Timeout id; Ui.TouchEnd row col] st =
    (g ← handleFlag row col (Ui.game st);
     Some (Ui.mkState g (Ui.mouseDownButtons st) (Ui.chordingActive st) None ∅ id)).
Proof.
  intros Htimer Hnone. unfold Ui.run. simpl.
  unfold Ui.handleTouchStart, Ui.handleTouchEnd, Ui.touchTimeout. simpl.
  rewrite lookup_insert_eq, Hnone. simpl. split.
  - destruct (handleReveal row col (Ui.game st)); [|done]. simpl.
    by rewrite delete_insert_eq, delete_empty.
  - destruct (handleFlag row col (Ui.game st)); [|done]. simpl.
    by rewrite delete_insert_eq, delete_empty.
Qed.


Lemma events_act_through_the_handlers_witness :
  (Ui.game (Ui.mkState wrongFlag 0 false None ∅ 0) = Ui.game firstClickUi ∨
   ∃ r c, handleReveal r c (Ui.game firstClickUi) =
            Some (Ui.game (Ui.mkState wrongFlag 0 false None ∅ 0)) ∨
          handleFlag r c (Ui.game firstClickUi) =
            Some (Ui.game (Ui.mkState wrongFlag 0 false None ∅ 0)) ∨
          (gameOver (Ui.game firstClickUi) = false ∧
           handleChord r c (Ui.game firstClickUi) =
             Some (Ui.game (Ui.mkState wrongFlag 0 false None ∅ 0)))) ∧
  (reachable (Ui.game firstClickUi) →
   reachable (Ui.game (Ui.mkState wrongFlag 0 false None ∅ 0))).
Proof.
  apply (events_act_through_the_handlers (Ui.ContextMenu 0 4)).
  vm_compute. reflexivity.
Defined.

Lemma touch_reveals_or_flags_witness :
  let id := S (Ui.lastTimeout firstClickUi) in
  Ui.run [Ui.TouchStart 0 4; Ui.TouchEnd 0 4] firstClickUi =
    (g ← handleReveal 0 4 (Ui.game firstClickUi);
     Some (Ui.mkState g (Ui.mouseDownButtons firstClickUi)
             (Ui.chordingActive firstClickUi) None ∅ id)) ∧
  Ui.run [Ui.TouchStart 0 4; Ui.Timeout id; Ui.TouchEnd 0 4] firstClickUi =
    (g ← handleFlag 0 4 (Ui.game firstClickUi);
     Some (Ui.mkState g (Ui.mouseDownButtons firstClickUi)
             (Ui.chordingActive firstClickUi) None ∅ id)).
Proof. apply touch_reveals_or_flags; reflexivity. Defined.


(** ** The clock *)

(** X17: a tick of the installed clock returns.  In the classic mode it adds
    one second and changes nothing else.  In a time attack it takes one
    second; while more than a second was left nothing else changes, and when
    the last second goes the game is lost: it is over, the clock is taken
    away, every mine is revealed and [revealedCount] is as it was. *)
Theorem tick_counts_and_runs_out (s : Game) :
  reachable s → timerInterval s = true →
  ∃ s', perform Tick s = Some s' ∧
    (isTimeAttack s = false → s' = set_timer (timer s + 1) s) ∧
    (isTimeAttack s = true → 1 < timer s → s' = set_timer (timer s - 1) s) ∧
    (isTimeAttack s = true → timer s ≤ 1 →
     timer s' = timer s - 1 ∧ gameOver s' = true ∧ face s' = FaceLose ∧
     timerInterval s' = false ∧ revealedCount s' = revealedCount s ∧
     ∀ r c x, getCell (grid s') r c = Some x → isMine x = true → isRevealed x = true).
Proof.
  intros HI%reachable_Inv Hon. pose proof (inv_wf _ HI) as Hwf.
  simpl. rewrite Hon. unfold tick.
  destruct (isTimeAttack s) eqn:Hmode.
  - cbn zeta. change (timer (set_timer (timer s - 1) s)) with (timer s - 1).
    destruct (timer s - 1 <=? 0) eqn:Hout.
    + apply Z.leb_le in Hout.
      destruct (revealAllMines_returns
                  (set_face FaceLose (stopTimer (set_gameOver true
                     (set_timer (timer s - 1) s)))) Hwf) as [s' Hs'].
      exists s'. split; [exact Hs'|]. split; [done|]. split; [intros; lia|].
      intros _ _.
      pose proof (revealAllMines_spec _ _ Hs') as Hre.
      pose proof (regrid_frame _ _ _ Hre) as Hframe.
      split_and!; try (rewrite Hframe; done).
      by eapply revealAllMines_shown; [|exact Hs'].
    + apply Z.leb_gt in Hout. eexists. split; [done|].
      split; [done|]. split; [done|]. intros; lia.
  - eexists. split; [done|]. split; [done|]. split; done.
Qed.

Lemma lastSecond_reachable : reachable lastSecond.
Proof.
  apply (reachable_step (Reveal 0 0)
           (startGame true easy
              (mkGame [] 9 9 10 0 0 false false 0 false 3 false 1 FaceNew easyDraws)));
    [apply reachable_start|].
  vm_compute. reflexivity.
Qed.

Lemma tick_counts_and_runs_out_witness :
  ∃ s', perform Tick lastSecond = Some s' ∧
    (isTimeAttack lastSecond = false → s' = set_timer (timer lastSecond + 1) lastSecond) ∧
    (isTimeAttack lastSecond = true → 1 < timer lastSecond →
     s' = set_timer (timer lastSecond - 1) lastSecond) ∧
    (isTimeAttack lastSecond = true → timer lastSecond ≤ 1 →
     timer s' = timer lastSecond - 1 ∧ gameOver s' = true ∧ face s' = FaceLose ∧
     timerInterval s' = false ∧ revealedCount s' = revealedCount lastSecond ∧
     ∀ r c x, getCell (grid s') r c = Some x → isMine x = true → isRevealed x = true).
Proof.
  apply tick_counts_and_runs_out; [apply lastSecond_reachable|reflexivity].
Defined.

(** ** A click on a hidden cell *)



